(** * Forward error correction over GF(2^8): a shallow embedding of fecpp.cpp

    The C++ translation unit implements a systematic Reed-Solomon erasure
    code.  This development embeds its functions as Rocq definitions and
    proves properties of them.

    Conventions of the embedding.
    - [byte] (an [unsigned char]) is [Byte.byte]; [^] on bytes is [bxor].
    - A [std::vector<byte>] or a [byte*] buffer is a [list byte]; a pointer
      into a buffer is a [nat] offset.  [size_t] and [int] values that only
      serve as indices or sizes are [nat]; index arithmetic is assumed not
      to overflow (k, n <= 256 in every call the library makes).
    - A loop counter that the source declares with type [byte] keeps its
      wrap-around at 256.
    - Functions that throw return a [result]; in the constructor, a store
      through a pointer that has left its vector is reported as
      [Undefined] (C++ undefined behaviour).  The helper kernels are total
      functions on lists; their theorems carry the size preconditions under
      which the C++ accesses are in bounds. *)

From Stdlib Require Import List Arith Lia Bool ZArith Ring Field Permutation.
From Stdlib.Strings Require Import Byte.
Import ListNotations.

(** ** Bytes *)

(** [typedef unsigned char byte] *)
Abbreviation byte := Byte.byte (only parsing).

Definition b2n (b : byte) : nat := Byte.to_nat b.

Definition xor8 (a b : bool * (bool * (bool * (bool * (bool * (bool * (bool * bool)))))))
  : bool * (bool * (bool * (bool * (bool * (bool * (bool * bool)))))) :=
  let '(a0, (a1, (a2, (a3, (a4, (a5, (a6, a7))))))) := a in
  let '(b0, (b1, (b2, (b3, (b4, (b5, (b6, b7))))))) := b in
  (xorb a0 b0, (xorb a1 b1, (xorb a2 b2, (xorb a3 b3,
  (xorb a4 b4, (xorb a5 b5, (xorb a6 b6, xorb a7 b7))))))).

(** [a ^ b] on [unsigned char]. *)
Definition bxor (a b : byte) : byte :=
  Byte.of_bits (xor8 (Byte.to_bits a) (Byte.to_bits b)).

Definition is_zero (b : byte) : bool := Byte.eqb b x00.

(** ** Vectors and buffers *)

(** [v[i]] *)
Definition get {A} (d : A) (v : list A) (i : nat) : A := nth i v d.

(** [v[i] = x] *)
Fixpoint upd {A} (i : nat) (x : A) (v : list A) : list A :=
  match v, i with
  | [], _ => []
  | _ :: t, O => x :: t
  | h :: t, S i' => h :: upd i' x t
  end.

Definition rd (v : list byte) (i : nat) : byte := nth i v x00.

(** [std::swap(v[i], v[j])] *)
Definition swap {A} (d : A) (i j : nat) (v : list A) : list A :=
  upd j (nth i v d) (upd i (nth j v d) v).

(** [std::memset(dst, c, n)] *)
Definition memset (dst : list byte) (c : byte) (n : nat) : list byte :=
  repeat c n ++ skipn n dst.

(** [std::memcpy(dst, src, n)] *)
Definition memcpy (dst src : list byte) (n : nat) : list byte :=
  firstn n src ++ skipn n dst.

(** A counted loop [for (i = 0; i < n; i++) s = body i s]. *)
Definition for_loop {S} (n : nat) (body : nat -> S -> S) (s : S) : S :=
  fold_left (fun s i => body i s) (seq 0 n) s.

(** A counted loop running down, [for (i = n-1; i >= 0; i--)]. *)
Definition for_down {S} (n : nat) (body : nat -> S -> S) (s : S) : S :=
  fold_left (fun s i => body i s) (rev (seq 0 n)) s.

(** ** Outcomes *)

(** The failures of the library, named as the design names them.  The C++
    exceptions behind them are:
    - [InvalidParameters]: [std::invalid_argument], constructor guards;
    - [InvalidIndex]: [std::invalid_argument], [encode];
    - [DuplicateIndex]: [std::logic_error("fec_code::decode - shuffle failed")];
    - [SingularMatrix]: [std::invalid_argument] thrown by [invert_mat]
      ("singlar matrix", "pivot not found in invert_mat");
    - [BadDecodeIndex]: [std::logic_error("bad index in build_decode_matrix")];
    - [BadAlloc]: [std::bad_alloc] or [std::length_error], thrown by the
      constructor of a [std::vector] that cannot get its storage. *)
Inductive error : Type :=
| InvalidParameters
| InvalidIndex
| DuplicateIndex
| SingularMatrix
| BadDecodeIndex
| BadAlloc.

Inductive result (A : Type) : Type :=
| Ok (a : A)
| Throw (e : error)
| Undefined.

Arguments Ok {A} a.
Arguments Throw {A} e.
Arguments Undefined {A}.

Definition bind {A B} (r : result A) (f : A -> result B) : result B :=
  match r with
  | Ok a => f a
  | Throw e => Throw e
  | Undefined => Undefined
  end.

Notation "x <- r ;; k" := (bind r (fun x => k))
  (at level 61, r at next level, right associativity).
Notation "' p <- r ;; k" := (bind r (fun x => let p := x in k))
  (at level 61, p pattern, r at next level, right associativity).

(** A counted loop whose body may fail. *)
Fixpoint for_r {S} (l : list nat) (body : nat -> S -> result S) (s : S) : result S :=
  match l with
  | [] => Ok s
  | i :: rest => s' <- body i s ;; for_r rest body s'
  end.

(** A checked store [v[i] = x]: outside the vector it is undefined. *)
Definition vset (v : list byte) (i : nat) (x : byte) : result (list byte) :=
  if i <? length v then Ok (upd i x v) else Undefined.

(** ** Tables for arithmetic in GF(2^8), polynomial 1+x^2+x^3+x^4+x^8 *)

Definition GF_EXP : list byte :=
[ x01; x02; x04; x08; x10; x20; x40; x80; x1d; x3a; x74; xe8; xcd; x87; x13; x26;
  x4c; x98; x2d; x5a; xb4; x75; xea; xc9; x8f; x03; x06; x0c; x18; x30; x60; xc0;
  x9d; x27; x4e; x9c; x25; x4a; x94; x35; x6a; xd4; xb5; x77; xee; xc1; x9f; x23;
  x46; x8c; x05; x0a; x14; x28; x50; xa0; x5d; xba; x69; xd2; xb9; x6f; xde; xa1;
  x5f; xbe; x61; xc2; x99; x2f; x5e; xbc; x65; xca; x89; x0f; x1e; x3c; x78; xf0;
  xfd; xe7; xd3; xbb; x6b; xd6; xb1; x7f; xfe; xe1; xdf; xa3; x5b; xb6; x71; xe2;
  xd9; xaf; x43; x86; x11; x22; x44; x88; x0d; x1a; x34; x68; xd0; xbd; x67; xce;
  x81; x1f; x3e; x7c; xf8; xed; xc7; x93; x3b; x76; xec; xc5; x97; x33; x66; xcc;
  x85; x17; x2e; x5c; xb8; x6d; xda; xa9; x4f; x9e; x21; x42; x84; x15; x2a; x54;
  xa8; x4d; x9a; x29; x52; xa4; x55; xaa; x49; x92; x39; x72; xe4; xd5; xb7; x73;
  xe6; xd1; xbf; x63; xc6; x91; x3f; x7e; xfc; xe5; xd7; xb3; x7b; xf6; xf1; xff;
  xe3; xdb; xab; x4b; x96; x31; x62; xc4; x95; x37; x6e; xdc; xa5; x57; xae; x41;
  x82; x19; x32; x64; xc8; x8d; x07; x0e; x1c; x38; x70; xe0; xdd; xa7; x53; xa6;
  x51; xa2; x59; xb2; x79; xf2; xf9; xef; xc3; x9b; x2b; x56; xac; x45; x8a; x09;
  x12; x24; x48; x90; x3d; x7a; xf4; xf5; xf7; xf3; xfb; xeb; xcb; x8b; x0b; x16;
  x2c; x58; xb0; x7d; xfa; xe9; xcf; x83; x1b; x36; x6c; xd8; xad; x47; x8e; x01;
  x02; x04; x08; x10; x20; x40; x80; x1d; x3a; x74; xe8; xcd; x87; x13; x26; x4c;
  x98; x2d; x5a; xb4; x75; xea; xc9; x8f; x03; x06; x0c; x18; x30; x60; xc0; x9d;
  x27; x4e; x9c; x25; x4a; x94; x35; x6a; xd4; xb5; x77; xee; xc1; x9f; x23; x46;
  x8c; x05; x0a; x14; x28; x50; xa0; x5d; xba; x69; xd2; xb9; x6f; xde; xa1; x5f;
  xbe; x61; xc2; x99; x2f; x5e; xbc; x65; xca; x89; x0f; x1e; x3c; x78; xf0; xfd;
  xe7; xd3; xbb; x6b; xd6; xb1; x7f; xfe; xe1; xdf; xa3; x5b; xb6; x71; xe2; xd9;
  xaf; x43; x86; x11; x22; x44; x88; x0d; x1a; x34; x68; xd0; xbd; x67; xce; x81;
  x1f; x3e; x7c; xf8; xed; xc7; x93; x3b; x76; xec; xc5; x97; x33; x66; xcc; x85;
  x17; x2e; x5c; xb8; x6d; xda; xa9; x4f; x9e; x21; x42; x84; x15; x2a; x54; xa8;
  x4d; x9a; x29; x52; xa4; x55; xaa; x49; x92; x39; x72; xe4; xd5; xb7; x73; xe6;
  xd1; xbf; x63; xc6; x91; x3f; x7e; xfc; xe5; xd7; xb3; x7b; xf6; xf1; xff; xe3;
  xdb; xab; x4b; x96; x31; x62; xc4; x95; x37; x6e; xdc; xa5; x57; xae; x41; x82;
  x19; x32; x64; xc8; x8d; x07; x0e; x1c; x38; x70; xe0; xdd; xa7; x53; xa6; x51;
  xa2; x59; xb2; x79; xf2; xf9; xef; xc3; x9b; x2b; x56; xac; x45; x8a; x09; x12;
  x24; x48; x90; x3d; x7a; xf4; xf5; xf7; xf3; xfb; xeb; xcb; x8b; x0b; x16; x2c;
  x58; xb0; x7d; xfa; xe9; xcf; x83; x1b; x36; x6c; xd8; xad; x47; x8e ].

Definition GF_LOG : list byte :=
[ xff; x00; x01; x19; x02; x32; x1a; xc6; x03; xdf; x33; xee; x1b; x68; xc7; x4b;
  x04; x64; xe0; x0e; x34; x8d; xef; x81; x1c; xc1; x69; xf8; xc8; x08; x4c; x71;
  x05; x8a; x65; x2f; xe1; x24; x0f; x21; x35; x93; x8e; xda; xf0; x12; x82; x45;
  x1d; xb5; xc2; x7d; x6a; x27; xf9; xb9; xc9; x9a; x09; x78; x4d; xe4; x72; xa6;
  x06; xbf; x8b; x62; x66; xdd; x30; xfd; xe2; x98; x25; xb3; x10; x91; x22; x88;
  x36; xd0; x94; xce; x8f; x96; xdb; xbd; xf1; xd2; x13; x5c; x83; x38; x46; x40;
  x1e; x42; xb6; xa3; xc3; x48; x7e; x6e; x6b; x3a; x28; x54; xfa; x85; xba; x3d;
  xca; x5e; x9b; x9f; x0a; x15; x79; x2b; x4e; xd4; xe5; xac; x73; xf3; xa7; x57;
  x07; x70; xc0; xf7; x8c; x80; x63; x0d; x67; x4a; xde; xed; x31; xc5; xfe; x18;
  xe3; xa5; x99; x77; x26; xb8; xb4; x7c; x11; x44; x92; xd9; x23; x20; x89; x2e;
  x37; x3f; xd1; x5b; x95; xbc; xcf; xcd; x90; x87; x97; xb2; xdc; xfc; xbe; x61;
  xf2; x56; xd3; xab; x14; x2a; x5d; x9e; x84; x3c; x39; x53; x47; x6d; x41; xa2;
  x1f; x2d; x43; xd8; xb7; x7b; xa4; x76; xc4; x17; x49; xec; x7f; x0c; x6f; xf6;
  x6c; xa1; x3b; x52; x29; x9d; x55; xaa; xfb; x60; x86; xb1; xbb; xcc; x3e; x5a;
  xcb; x59; x5f; xb0; x9c; xa9; xa0; x51; x0b; xf5; x16; xeb; x7a; x75; x2c; xd7;
  x4f; xae; xd5; xe9; xe6; xe7; xad; xe8; x74; xd6; xf4; xea; xa8; x50; x58; xaf ].

Definition GF_INVERSE : list byte :=
[ x00; x01; x8e; xf4; x47; xa7; x7a; xba; xad; x9d; xdd; x98; x3d; xaa; x5d; x96;
  xd8; x72; xc0; x58; xe0; x3e; x4c; x66; x90; xde; x55; x80; xa0; x83; x4b; x2a;
  x6c; xed; x39; x51; x60; x56; x2c; x8a; x70; xd0; x1f; x4a; x26; x8b; x33; x6e;
  x48; x89; x6f; x2e; xa4; xc3; x40; x5e; x50; x22; xcf; xa9; xab; x0c; x15; xe1;
  x36; x5f; xf8; xd5; x92; x4e; xa6; x04; x30; x88; x2b; x1e; x16; x67; x45; x93;
  x38; x23; x68; x8c; x81; x1a; x25; x61; x13; xc1; xcb; x63; x97; x0e; x37; x41;
  x24; x57; xca; x5b; xb9; xc4; x17; x4d; x52; x8d; xef; xb3; x20; xec; x2f; x32;
  x28; xd1; x11; xd9; xe9; xfb; xda; x79; xdb; x77; x06; xbb; x84; xcd; xfe; xfc;
  x1b; x54; xa1; x1d; x7c; xcc; xe4; xb0; x49; x31; x27; x2d; x53; x69; x02; xf5;
  x18; xdf; x44; x4f; x9b; xbc; x0f; x5c; x0b; xdc; xbd; x94; xac; x09; xc7; xa2;
  x1c; x82; x9f; xc6; x34; xc2; x46; x05; xce; x3b; x0d; x3c; x9c; x08; xbe; xb7;
  x87; xe5; xee; x6b; xeb; xf2; xbf; xaf; xc5; x64; x07; x7b; x95; x9a; xae; xb6;
  x12; x59; xa5; x35; x65; xb8; xa3; x9e; xd2; xf7; x62; x5a; x85; x7d; xa8; x3a;
  x29; x71; xc8; xf6; xf9; x43; xd7; xd6; x10; x73; x76; x78; x99; x0a; x19; x91;
  x14; x3f; xe6; xf0; x86; xb1; xe2; xf1; xfa; x74; xf3; xb4; x6d; x21; xb2; x6a;
  xe3; xe7; xb5; xea; x03; x8f; xd3; xc9; x42; xd4; xe8; x75; x7f; xff; x7e; xfd ].

Definition gf_exp (i : nat) : byte := nth i GF_EXP x00.

Definition gf_log (x : byte) : nat := b2n (nth (b2n x) GF_LOG x00).

Definition gf_inverse (x : byte) : byte := nth (b2n x) GF_INVERSE x00.

(** [gf_mul_table[i][j]] as [init_mul_table] leaves it: the first pass stores
    [GF_EXP[(GF_LOG[i] + GF_LOG[j]) % 255]] in every cell, the second pass
    clears row 0 and column 0. *)
Definition gf_mul_table (i j : byte) : byte :=
  if is_zero i || is_zero j then x00
  else gf_exp ((gf_log i + gf_log j) mod 255).

(** [#define gf_mul(x,y) gf_mul_table[x][y]] *)
Definition gf_mul (x y : byte) : byte := gf_mul_table x y.

(** ** The vector kernel *)

(** [m[i] ^= v] *)
Definition xor_at (m : list byte) (i : nat) (v : byte) : list byte :=
  upd i (bxor (rd m i) v) m.

(** The loop unrolled 16 times: [for(; dst < lim; dst += 16, src += 16)].
    [dst] and [src] are offsets into one memory [m]; [lim] may lie before
    the start of the buffer, so the comparison is made in [Z]. *)
Fixpoint addmul_unrolled (fuel : nat) (mul_base : byte -> byte) (lim : Z)
  (m : list byte) (dst src : nat) : list byte * nat * nat :=
  match fuel with
  | O => (m, dst, src)
  | S fuel' =>
    if (Z.of_nat dst <? lim)%Z then
      let m := xor_at m (dst + 0) (mul_base (rd m (src + 0))) in
      let m := xor_at m (dst + 1) (mul_base (rd m (src + 1))) in
      let m := xor_at m (dst + 2) (mul_base (rd m (src + 2))) in
      let m := xor_at m (dst + 3) (mul_base (rd m (src + 3))) in
      let m := xor_at m (dst + 4) (mul_base (rd m (src + 4))) in
      let m := xor_at m (dst + 5) (mul_base (rd m (src + 5))) in
      let m := xor_at m (dst + 6) (mul_base (rd m (src + 6))) in
      let m := xor_at m (dst + 7) (mul_base (rd m (src + 7))) in
      let m := xor_at m (dst + 8) (mul_base (rd m (src + 8))) in
      let m := xor_at m (dst + 9) (mul_base (rd m (src + 9))) in
      let m := xor_at m (dst + 10) (mul_base (rd m (src + 10))) in
      let m := xor_at m (dst + 11) (mul_base (rd m (src + 11))) in
      let m := xor_at m (dst + 12) (mul_base (rd m (src + 12))) in
      let m := xor_at m (dst + 13) (mul_base (rd m (src + 13))) in
      let m := xor_at m (dst + 14) (mul_base (rd m (src + 14))) in
      let m := xor_at m (dst + 15) (mul_base (rd m (src + 15))) in
      addmul_unrolled fuel' mul_base lim m (dst + 16) (src + 16)
    else (m, dst, src)
  end.

(** The final components: [for(; dst < lim; dst++, src++) *dst ^= mul_base[*src]]. *)
Fixpoint addmul_tail (fuel : nat) (mul_base : byte -> byte) (lim : Z)
  (m : list byte) (dst src : nat) : list byte :=
  match fuel with
  | O => m
  | S fuel' =>
    if (Z.of_nat dst <? lim)%Z then
      addmul_tail fuel' mul_base lim (xor_at m dst (mul_base (rd m src))) (S dst) (S src)
    else m
  end.

(** [addmul(dst, src, c, sz)]: dst[] = dst[] + c * src[].  Each loop runs at
    most [sz] times, which is the fuel it is given. *)
Definition addmul (m : list byte) (dst src : nat) (c : byte) (sz : Z) : list byte :=
  if is_zero c then m
  else
    let mul_base := gf_mul_table c in
    let lim := (Z.of_nat dst + sz - 16 + 1)%Z in
    let '(m, dst, src) := addmul_unrolled (Z.to_nat sz) mul_base lim m dst src in
    let lim := (lim + (16 - 1))%Z in
    addmul_tail (Z.to_nat sz) mul_base lim m dst src.

(** [addmul_k(dst, srcs, cs, size, k)] *)
Definition addmul_k (dst : list byte) (srcs : list (list byte)) (cs : list byte)
  (size k : nat) : list byte :=
  for_loop k (fun i dst =>
    let c := rd cs i in
    if is_zero c then dst
    else
      let mul_c := gf_mul_table c in
      let src := nth i srcs [] in
      for_loop size (fun j dst => xor_at dst j (mul_c (rd src j))) dst) dst.

(** ** Matrices (row-major) *)

(** [matmul(a, b, c, n, k, m)]: C = AB where A is n*k, B is k*m, C is n*m. *)
Definition matmul (a b c : list byte) (n k m : nat) : list byte :=
  for_loop n (fun row c =>
    for_loop m (fun col c =>
      let acc := for_loop k (fun i acc =>
                   bxor acc (gf_mul (rd a (row * k + i)) (rd b (col + i * m)))) x00 in
      upd (row * m + col) acc c) c) c.

Fixpoint bytes_eqb (a b : list byte) : bool :=
  match a, b with
  | [], [] => true
  | x :: a', y :: b' => Byte.eqb x y && bytes_eqb a' b'
  | _, _ => false
  end.

(** [memcmp(a, b, n) != 0] *)
Definition memcmp_ne (a b : list byte) (n : nat) : bool :=
  negb (bytes_eqb (firstn n a) (firstn n b)).

(** The scan of one row in the pivot search: the first column [ix] with
    [ipiv[ix] == 0] and a non-zero entry; a column with [ipiv[ix] > 1]
    met on the way throws. *)
Fixpoint scan_ix (src : list byte) (ipiv : list nat) (k row : nat) (ixs : list nat)
  : result (option nat) :=
  match ixs with
  | [] => Ok None
  | ix :: rest =>
    if nth ix ipiv 0 =? 0 then
      if negb (is_zero (rd src (row * k + ix))) then Ok (Some ix)
      else scan_ix src ipiv k row rest
    else if 1 <? nth ix ipiv 0 then Throw SingularMatrix
    else scan_ix src ipiv k row rest
  end.

Fixpoint scan_rows (src : list byte) (ipiv : list nat) (k : nat) (rows : list nat)
  : result (option (nat * nat)) :=
  match rows with
  | [] => Ok None
  | row :: rest =>
    if negb (nth row ipiv 0 =? 1) then
      r <- scan_ix src ipiv k row (seq 0 k) ;;
      match r with
      | Some ix => Ok (Some (row, ix))
      | None => scan_rows src ipiv k rest
      end
    else scan_rows src ipiv k rest
  end.

(** The pivot search of one step, up to the label [found_piv]: first the
    diagonal, then the scan; [None] from the scan is [icol == -1]. *)
Definition find_pivot (src : list byte) (ipiv : list nat) (k col : nat)
  : result (nat * nat) :=
  if negb (nth col ipiv 0 =? 1) && negb (is_zero (rd src (col * k + col)))
  then Ok (col, col)
  else
    r <- scan_rows src ipiv k (seq 0 k) ;;
    match r with
    | Some p => Ok p
    | None => Throw SingularMatrix
    end.

Definition swap_rows (src : list byte) (k irow icol : nat) : list byte :=
  for_loop k (fun i src => swap x00 (irow * k + i) (icol * k + i) src) src.

Definition swap_cols (src : list byte) (k c1 c2 : nat) : list byte :=
  for_loop k (fun row src => swap x00 (row * k + c1) (row * k + c2) src) src.

(** The state of the main loop of [invert_mat]. *)
Record gj_state : Type := mk_gj {
  gj_src : list byte;
  gj_ipiv : list nat;
  gj_indxr : list nat;
  gj_indxc : list nat;
  gj_id_row : list byte
}.

(** Normalising the pivot row: [if (c != 1) { c = GF_INVERSE[c]; ... }]. *)
Definition scale_pivot_row (src : list byte) (k icol : nat) (c : byte) : list byte :=
  if negb (Byte.eqb c x01) then
    let c := gf_inverse c in
    let src := upd (icol * k + icol) x01 src in
    for_loop k (fun i src => upd (icol * k + i) (gf_mul c (rd src (icol * k + i))) src) src
  else src.

(** Removing multiples of the pivot row from all other rows. *)
Definition eliminate (src : list byte) (k icol : nat) : list byte :=
  for_loop k (fun i src =>
    if negb (i =? icol) then
      let p := i * k in
      let c := rd src (p + icol) in
      let src := upd (p + icol) x00 src in
      addmul src p (icol * k) c (Z.of_nat k)
    else src) src.

(** One iteration of [for(int col = 0; col < k; col++)]. *)
Definition pivot_step (k col : nat) (st : gj_state) : result gj_state :=
  let src := gj_src st in
  let ipiv := gj_ipiv st in
  '(irow, icol) <- find_pivot src ipiv k col ;;
  let ipiv := upd icol (S (nth icol ipiv 0)) ipiv in
  let src := if negb (irow =? icol) then swap_rows src k irow icol else src in
  let indxr := upd col irow (gj_indxr st) in
  let indxc := upd col icol (gj_indxc st) in
  let c := rd src (icol * k + icol) in
  if is_zero c then Throw SingularMatrix
  else
    let src := scale_pivot_row src k icol c in
    let id_row := upd icol x01 (gj_id_row st) in
    let src := if memcmp_ne (skipn (icol * k) src) id_row k
               then eliminate src k icol else src in
    let id_row := upd icol x00 id_row in
    Ok (mk_gj src ipiv indxr indxc id_row).

(** The last loop of [invert_mat]: undo the column permutation.  The two
    first branches only print to stderr. *)
Definition unscramble (k : nat) (indxr indxc : list nat) (src : list byte) : list byte :=
  for_down k (fun col src =>
    if k <=? nth col indxr 0 then src
    else if k <=? nth col indxc 0 then src
    else if negb (nth col indxr 0 =? nth col indxc 0)
         then swap_cols src k (nth col indxr 0) (nth col indxc 0)
         else src) src.

(** [invert_mat(src, k)]: Gauss-Jordan inversion in place. *)
Definition invert_mat (src : list byte) (k : nat) : result (list byte) :=
  st <- for_r (seq 0 k) (pivot_step k)
          (mk_gj src (repeat 0 k) (repeat 0 k) (repeat 0 k) (repeat x00 k)) ;;
  Ok (unscramble k (gj_indxr st) (gj_indxc st) (gj_src st)).

(** A loop [for (i = lo; i < hi; i++)]. *)
Definition for_range {S} (lo hi : nat) (body : nat -> S -> S) (s : S) : S :=
  fold_left (fun s i => body i s) (seq lo (hi - lo)) s.

(** The coefficients of P(x) = Prod (x - p_i), built in [c]. *)
Definition vdm_coeffs (p : list byte) (k : nat) : list byte :=
  let c := repeat x00 k in
  let c := upd (k - 1) (rd p 0) c in
  for_range 1 k (fun i c =>
    let p_i := rd p i in
    let c := for_range (k - 1 - (i - 1)) (k - 1) (fun j c =>
               upd j (bxor (rd c j) (gf_mul p_i (rd c (j + 1)))) c) c in
    upd (k - 1) (bxor (rd c (k - 1)) p_i) c) c.

(** Synthetic division for one row: the vector [b] and the scalar [t]. *)
Definition vdm_row (c b : list byte) (k : nat) (xx : byte) : list byte * byte :=
  let b := upd (k - 1) x01 b in
  for_down (k - 1) (fun i '(b, t) =>
    let b := upd i (bxor (rd c (i + 1)) (gf_mul xx (rd b (i + 1)))) b in
    (b, bxor (gf_mul xx t) (rd b i))) (b, x01).

(** [invert_vdm(src, k)]: inverse of a Vandermonde matrix, read off its
    second column.  Called with k >= 1. *)
Definition invert_vdm (src : list byte) (k : nat) : list byte :=
  if k =? 1 then src
  else
    let p := for_loop k (fun i p => upd i (rd src (1 + i * k)) p) (repeat x00 k) in
    let c := vdm_coeffs p k in
    fst (for_loop k (fun row '(src, b) =>
      let xx := rd p row in
      let '(b, t) := vdm_row c b k xx in
      (for_loop k (fun col src =>
         upd (col * k + row) (gf_mul (gf_inverse t) (rd b col)) src) src, b))
      (src, repeat x00 k)).

(** ** Decoding helpers *)

Definition shard := list byte.

(** The loop of [shuffle].  [nswaps] is a ghost counter of the swaps done;
    [None] means the fuel ran out. *)
Fixpoint shuffle_loop (fuel k : nat) (pkt : list shard) (index : list nat)
  (i nswaps : nat) : option (nat * list shard * list nat * nat) :=
  match fuel with
  | O => None
  | S fuel' =>
    if i <? k then
      if (k <=? nth i index 0) || (nth i index 0 =? i) then
        shuffle_loop fuel' k pkt index (S i) nswaps
      else
        let c := nth i index 0 in
        if nth c index 0 =? c then Some (1, pkt, index, nswaps)
        else shuffle_loop fuel' k (swap [] i c pkt) (swap 0 i c index) i (S nswaps)
    else Some (0, pkt, index, nswaps)
  end.

(** [shuffle(pkt, index, k)]: returns the [int] result with the arrays. *)
Definition shuffle (pkt : list shard) (index : list nat) (k : nat)
  : option (nat * list shard * list nat) :=
  match shuffle_loop (2 * k + 1) k pkt index 0 0 with
  | Some (r, pkt, index, _) => Some (r, pkt, index)
  | None => None
  end.

(** [memset(&m[p], c, n)] and [memcpy(&m[p], src, n)]. *)
Definition memset_at (m : list byte) (p : nat) (c : byte) (n : nat) : list byte :=
  firstn p m ++ memset (skipn p m) c n.

Definition memcpy_at (m : list byte) (p : nat) (src : list byte) (n : nat) : list byte :=
  firstn p m ++ memcpy (skipn p m) src n.

Definition build_decode_matrix (k n : nat) (enc_matrix : list byte) (index : list nat)
  : result (list byte) :=
  matrix <- for_r (seq 0 k) (fun i matrix =>
              let p := i * k in
              if nth i index 0 <? k then
                Ok (upd (p + i) x01 (memset_at matrix p x00 k))
              else if nth i index 0 <? n then
                Ok (memcpy_at matrix p (skipn (nth i index 0 * k) enc_matrix) k)
              else Throw BadDecodeIndex) (repeat x00 (k * k)) ;;
  invert_mat matrix k.

(** ** The codec *)

Module fec_code.

Record t : Type := mk { k : nat; n : nat; enc_matrix : list byte }.

(** Filling rows 1..n-1 of the Vandermonde matrix:
    [for(byte* p = &tmp_m[k], row = 0; row < n-1; row++, p += k)].
    The declaration makes [row] a [byte], so [row++] wraps at 256.  The
    fuel is never exhausted: [p] moves forward on every iteration and a
    store past the end of the vector ends the run as [Undefined]. *)
Fixpoint fill_rows (fuel k n : nat) (tmp_m : list byte) (p row : nat)
  : result (list byte) :=
  match fuel with
  | O => Undefined
  | S fuel' =>
    if row <? n - 1 then
      tmp_m <- for_r (seq 0 k) (fun col tmp_m =>
                 vset tmp_m (p + col) (gf_exp ((row * col) mod 255))) tmp_m ;;
      fill_rows fuel' k n tmp_m (p + k) ((row + 1) mod 256)
    else Ok tmp_m
  end.

(** The diagonal of the identity:
    [for(byte* p = &enc_matrix[0], col = 0; col < k; col++, p += k+1) *p = 1].
    [col] is a [byte] as well. *)
Fixpoint set_diag (fuel k : nat) (enc : list byte) (p col : nat) : result (list byte) :=
  match fuel with
  | O => Undefined
  | S fuel' =>
    if col <? k then
      enc <- vset enc p x01 ;;
      set_diag fuel' k enc (p + (k + 1)) ((col + 1) mod 256)
    else Ok enc
  end.

(** [fec_code::fec_code(k_arg, n_arg)] once the storage of its vectors
    is there; whether the member initialiser [enc_matrix(n * k)] gets it
    is in [fec_code] below.  Past the two guards [n >= 1] whenever
    [tmp_m[0]] could be stored, so [n - 1] does not wrap. *)
Definition create (k_arg n_arg : nat) : result t :=
  let k := k_arg in
  let n := n_arg in
  let enc_matrix := repeat x00 (n * k) in
  if (256 <? k) || (256 <? n) then Throw InvalidParameters
  else if n <? k then Throw InvalidParameters
  else
    let tmp_m := repeat x00 (n * k) in
    tmp_m <- vset tmp_m 0 x01 ;;
    tmp_m <- for_r (seq 1 (k - 1)) (fun col tmp_m => vset tmp_m col x00) tmp_m ;;
    tmp_m <- fill_rows (S (length tmp_m)) k n tmp_m k 0 ;;
    let tmp_m := invert_vdm tmp_m k in
    let enc_matrix :=
      firstn (k * k) enc_matrix ++
      matmul (skipn (k * k) tmp_m) tmp_m (skipn (k * k) enc_matrix) (n - k) k k in
    let enc_matrix := memset enc_matrix x00 (k * k) in
    enc_matrix <- set_diag (S (length enc_matrix)) k enc_matrix 0 0 ;;
    Ok (mk k n enc_matrix).

(** [size_t] has 64 bits. *)
Definition size_max : N := 18446744073709551616%N.

(** [fec_code::fec_code(k_arg, n_arg)] from its member initialisers on:
    [k(k_arg), n(n_arg), enc_matrix(n * k)].  The vector is built before
    the body runs, so before the two guards; the product is a [size_t]
    product and wraps.  [heap] is the largest request for storage that
    can be served: a larger one makes the constructor of the vector
    throw.  The body asks for the same size once more, for [tmp_m]. *)
Definition fec_code (heap k_arg n_arg : N) : result t :=
  let size := ((n_arg * k_arg) mod size_max)%N in
  if (heap <? size)%N then Throw BadAlloc
  else create (N.to_nat k_arg) (N.to_nat n_arg).

(** [fec_code::encode(src, fec, index, sz)]; returns the buffer [fec]. *)
Definition encode (code : t) (src : list shard) (fec : list byte) (index sz : nat)
  : result (list byte) :=
  if n code <=? index then Throw InvalidIndex
  else if index <? k code then Ok (memcpy fec (nth index src []) sz)
  else
    let p := skipn (index * k code) (enc_matrix code) in
    let fec := memset fec x00 sz in
    Ok (addmul_k fec src p sz (k code)).

(** [fec_code::decode(pkt, index, sz)]; returns the arrays [pkt] and
    [index] as the call leaves them.  The shards are distinct buffers. *)
Definition decode (code : t) (pkt : list shard) (index : list nat) (sz : nat)
  : result (list shard * list nat) :=
  match shuffle pkt index (k code) with
  | None => Undefined
  | Some (r, pkt, index) =>
    if negb (r =? 0) then Throw DuplicateIndex
    else
      m_dec <- build_decode_matrix (k code) (n code) (enc_matrix code) index ;;
      let new_pkt :=
        for_loop (k code) (fun row new_pkt =>
          if k code <=? nth row index 0 then
            upd row (addmul_k (repeat x00 sz) pkt (skipn (row * k code) m_dec) sz (k code))
                new_pkt
          else new_pkt) (repeat [] (k code)) in
      let pkt :=
        for_loop (k code) (fun row pkt =>
          if k code <=? nth row index 0 then
            upd row (memcpy (nth row pkt []) (nth row new_pkt []) sz) pkt
          else pkt) pkt in
      Ok (pkt, index)
  end.

End fec_code.


(** * Part II: the field GF(2^8) *)

(** ** Exhaustive checks over bytes *)

Definition all_bytes : list byte :=
  map (fun i => match Byte.of_nat i with Some b => b | None => x00 end) (seq 0 256).

Lemma all_bytes_complete (b : byte) : In b all_bytes.
Proof.
  unfold all_bytes. apply in_map_iff. exists (Byte.to_nat b). split.
  - now rewrite Byte.of_to_nat.
  - apply in_seq. pose proof (Byte.to_nat_bounded b). lia.
Qed.

Lemma byte_forall (f : byte -> bool) :
  forallb f all_bytes = true -> forall b, f b = true.
Proof.
  intros H b. rewrite forallb_forall in H. apply H, all_bytes_complete.
Qed.

Lemma byte_eqb_eq (a b : byte) : Byte.eqb a b = true <-> a = b.
Proof. split; [apply Byte.byte_dec_bl | apply Byte.byte_dec_lb]. Qed.

Lemma byte_eqb_refl (a : byte) : Byte.eqb a a = true.
Proof. now apply byte_eqb_eq. Qed.

Lemma byte_eqb_neq (a b : byte) : Byte.eqb a b = false <-> a <> b.
Proof.
  split.
  - intros H E. subst. now rewrite byte_eqb_refl in H.
  - intros H. destruct (Byte.eqb a b) eqn:E; auto. now apply byte_eqb_eq in E.
Qed.

Lemma is_zero_true (b : byte) : is_zero b = true <-> b = x00.
Proof. apply byte_eqb_eq. Qed.

Lemma is_zero_false (b : byte) : is_zero b = false <-> b <> x00.
Proof. apply byte_eqb_neq. Qed.

(** ** Addition: bitwise exclusive or *)

Lemma bxor_comm (a b : byte) : bxor a b = bxor b a.
Proof.
  unfold bxor. f_equal.
  destruct (Byte.to_bits a) as (a0 & a1 & a2 & a3 & a4 & a5 & a6 & a7).
  destruct (Byte.to_bits b) as (b0 & b1 & b2 & b3 & b4 & b5 & b6 & b7).
  cbn. now rewrite !(xorb_comm a0), !(xorb_comm a1), !(xorb_comm a2), !(xorb_comm a3),
    !(xorb_comm a4), !(xorb_comm a5), !(xorb_comm a6), !(xorb_comm a7).
Qed.

Lemma bxor_assoc (a b c : byte) : bxor a (bxor b c) = bxor (bxor a b) c.
Proof.
  unfold bxor. rewrite !Byte.to_bits_of_bits. f_equal.
  destruct (Byte.to_bits a) as (a0 & a1 & a2 & a3 & a4 & a5 & a6 & a7).
  destruct (Byte.to_bits b) as (b0 & b1 & b2 & b3 & b4 & b5 & b6 & b7).
  destruct (Byte.to_bits c) as (c0 & c1 & c2 & c3 & c4 & c5 & c6 & c7).
  cbn. now rewrite !xorb_assoc.
Qed.

Lemma bxor_0_l (a : byte) : bxor x00 a = a.
Proof.
  unfold bxor. rewrite <- (Byte.of_bits_to_bits a) at 2. f_equal.
  destruct (Byte.to_bits a) as (a0 & a1 & a2 & a3 & a4 & a5 & a6 & a7).
  reflexivity.
Qed.

Lemma bxor_0_r (a : byte) : bxor a x00 = a.
Proof. rewrite bxor_comm. apply bxor_0_l. Qed.

Lemma bxor_self (a : byte) : bxor a a = x00.
Proof.
  unfold bxor.
  destruct (Byte.to_bits a) as (a0 & a1 & a2 & a3 & a4 & a5 & a6 & a7).
  cbn. now rewrite !xorb_nilpotent.
Qed.

Lemma bxor_cancel_l (a b c : byte) : bxor a b = bxor a c -> b = c.
Proof.
  intros H. rewrite <- (bxor_0_l b), <- (bxor_0_l c), <- (bxor_self a).
  rewrite <- !bxor_assoc. now f_equal.
Qed.

Lemma bxor_eq_0 (a b : byte) : bxor a b = x00 <-> a = b.
Proof.
  split.
  - intros H. rewrite <- (bxor_0_r a), <- (bxor_self b), bxor_assoc, H.
    apply bxor_0_l.
  - intros ->. apply bxor_self.
Qed.

(** ** Multiplication: the logarithm and exponential tables *)

Lemma nat_forall (f : nat -> bool) (n : nat) :
  forallb f (seq 0 n) = true -> forall i, i < n -> f i = true.
Proof.
  intros H i Hi. rewrite forallb_forall in H. apply H, in_seq. lia.
Qed.

Lemma exp_log (x : byte) : x <> x00 -> gf_exp (gf_log x) = x.
Proof.
  intros H.
  assert (C : forall b, (is_zero b || Byte.eqb (gf_exp (gf_log b)) b) = true)
    by (apply byte_forall; vm_compute; reflexivity).
  specialize (C x). apply is_zero_false in H. rewrite H in C. now apply byte_eqb_eq.
Qed.

Lemma log_lt (x : byte) : x <> x00 -> gf_log x < 255.
Proof.
  intros H.
  assert (C : forall b, (is_zero b || (gf_log b <? 255)) = true)
    by (apply byte_forall; vm_compute; reflexivity).
  specialize (C x). apply is_zero_false in H. rewrite H in C. now apply Nat.ltb_lt.
Qed.

Lemma log_exp (i : nat) : i < 255 -> gf_log (gf_exp i) = i.
Proof.
  intros H.
  assert (C : forall j, j < 255 -> (gf_log (gf_exp j) =? j) = true)
    by (apply nat_forall; vm_compute; reflexivity).
  now apply Nat.eqb_eq, C.
Qed.

Lemma exp_nonzero (i : nat) : i < 255 -> gf_exp i <> x00.
Proof.
  intros H.
  assert (C : forall j, j < 255 -> negb (is_zero (gf_exp j)) = true)
    by (apply nat_forall; vm_compute; reflexivity).
  specialize (C i H). apply is_zero_false. now destruct (is_zero (gf_exp i)).
Qed.

Lemma exp_dup (i : nat) : i < 255 -> gf_exp (i + 255) = gf_exp i.
Proof.
  intros H.
  assert (C : forall j, j < 255 -> Byte.eqb (gf_exp (j + 255)) (gf_exp j) = true)
    by (apply nat_forall; vm_compute; reflexivity).
  now apply byte_eqb_eq, C.
Qed.

Lemma inverse_log (x : byte) :
  x <> x00 -> gf_inverse x <> x00 /\ (gf_log x + gf_log (gf_inverse x)) mod 255 = 0.
Proof.
  intros H.
  assert (C : forall b, (is_zero b ||
             (negb (is_zero (gf_inverse b)) &&
              ((gf_log b + gf_log (gf_inverse b)) mod 255 =? 0))) = true)
    by (apply byte_forall; vm_compute; reflexivity).
  specialize (C x). apply is_zero_false in H. rewrite H in C. rewrite orb_false_l in C.
  apply andb_true_iff in C. destruct C as [C1 C2]. split.
  - apply is_zero_false. now destruct (is_zero (gf_inverse x)).
  - now apply Nat.eqb_eq.
Qed.

Lemma gf_mul_0_l (y : byte) : gf_mul x00 y = x00.
Proof. reflexivity. Qed.

Lemma gf_mul_0_r (x : byte) : gf_mul x x00 = x00.
Proof. unfold gf_mul, gf_mul_table. cbn. now rewrite orb_true_r. Qed.

Lemma gf_mul_nz (x y : byte) :
  x <> x00 -> y <> x00 -> gf_mul x y = gf_exp ((gf_log x + gf_log y) mod 255).
Proof.
  intros Hx Hy. unfold gf_mul, gf_mul_table.
  apply is_zero_false in Hx, Hy. now rewrite Hx, Hy.
Qed.

Lemma gf_mul_nonzero (x y : byte) : x <> x00 -> y <> x00 -> gf_mul x y <> x00.
Proof.
  intros Hx Hy. rewrite gf_mul_nz by assumption.
  apply exp_nonzero, Nat.mod_upper_bound. lia.
Qed.

Lemma gf_mul_eq_0 (x y : byte) : gf_mul x y = x00 -> x = x00 \/ y = x00.
Proof.
  intros H. destruct (Byte.byte_eq_dec x x00) as [|Hx]; auto.
  destruct (Byte.byte_eq_dec y x00) as [|Hy]; auto.
  now destruct (gf_mul_nonzero x y).
Qed.

Lemma log_mul (x y : byte) :
  x <> x00 -> y <> x00 -> gf_log (gf_mul x y) = (gf_log x + gf_log y) mod 255.
Proof.
  intros Hx Hy. rewrite gf_mul_nz by assumption.
  apply log_exp, Nat.mod_upper_bound. lia.
Qed.

Lemma gf_mul_comm (x y : byte) : gf_mul x y = gf_mul y x.
Proof.
  unfold gf_mul, gf_mul_table. rewrite (orb_comm (is_zero x)), (Nat.add_comm (gf_log x)).
  reflexivity.
Qed.

Lemma gf_mul_assoc (x y z : byte) : gf_mul x (gf_mul y z) = gf_mul (gf_mul x y) z.
Proof.
  destruct (Byte.byte_eq_dec x x00) as [->|Hx]; [now rewrite !gf_mul_0_l|].
  destruct (Byte.byte_eq_dec y x00) as [->|Hy];
    [now rewrite gf_mul_0_l, gf_mul_0_r, gf_mul_0_l|].
  destruct (Byte.byte_eq_dec z x00) as [->|Hz]; [now rewrite !gf_mul_0_r|].
  rewrite (gf_mul_nz x (gf_mul y z)), (gf_mul_nz (gf_mul x y) z), !log_mul
    by auto using gf_mul_nonzero.
  f_equal. rewrite Nat.Div0.add_mod_idemp_l, Nat.Div0.add_mod_idemp_r. f_equal. lia.
Qed.

Lemma gf_mul_1_l (x : byte) : gf_mul x01 x = x.
Proof.
  destruct (Byte.byte_eq_dec x x00) as [->|Hx]; [reflexivity|].
  rewrite gf_mul_nz by (auto; discriminate).
  change (gf_log x01) with 0. rewrite Nat.add_0_l, Nat.mod_small by now apply log_lt.
  now apply exp_log.
Qed.

Lemma gf_mul_1_r (x : byte) : gf_mul x x01 = x.
Proof. rewrite gf_mul_comm. apply gf_mul_1_l. Qed.

Lemma gf_mul_inverse (x : byte) : x <> x00 -> gf_mul (gf_inverse x) x = x01.
Proof.
  intros Hx. destruct (inverse_log x Hx) as [Hi Hl].
  rewrite gf_mul_comm, gf_mul_nz, Hl by assumption. reflexivity.
Qed.

(** Multiplication by the generator is linear; distributivity follows by
    induction on the logarithm of the multiplier. *)
Lemma xtime_linear (y z : byte) :
  gf_mul x02 (bxor y z) = bxor (gf_mul x02 y) (gf_mul x02 z).
Proof.
  assert (C : forall a, forallb (fun b =>
             Byte.eqb (gf_mul x02 (bxor a b)) (bxor (gf_mul x02 a) (gf_mul x02 b)))
             all_bytes = true)
    by (apply byte_forall; vm_compute; reflexivity).
  specialize (C y). apply byte_eqb_eq.
  now apply (byte_forall _ C z).
Qed.

Lemma gf_mul_exp_S (i : nat) (y : byte) :
  i < 255 -> gf_mul (gf_exp (S i mod 255)) y = gf_mul x02 (gf_mul (gf_exp i) y).
Proof.
  intros Hi.
  destruct (Byte.byte_eq_dec y x00) as [->|Hy]; [now rewrite !gf_mul_0_r|].
  assert (Hs : S i mod 255 < 255) by (apply Nat.mod_upper_bound; lia).
  rewrite (gf_mul_nz x02), !log_mul, !gf_mul_nz, !log_exp
    by (auto using exp_nonzero, gf_mul_nonzero; discriminate).
  change (gf_log x02) with 1.
  rewrite Nat.Div0.add_mod_idemp_l, Nat.Div0.add_mod_idemp_r. reflexivity.
Qed.

Lemma gf_mul_exp_distr (i : nat) (y z : byte) :
  i < 255 ->
  gf_mul (gf_exp i) (bxor y z) = bxor (gf_mul (gf_exp i) y) (gf_mul (gf_exp i) z).
Proof.
  induction i as [|i IH]; intros Hi.
  - change (gf_exp 0) with x01. now rewrite !gf_mul_1_l.
  - assert (E : S i = S i mod 255) by (symmetry; apply Nat.mod_small; lia).
    rewrite E, !gf_mul_exp_S, IH by lia. apply xtime_linear.
Qed.

Lemma gf_mul_distr_l (x y z : byte) :
  gf_mul x (bxor y z) = bxor (gf_mul x y) (gf_mul x z).
Proof.
  destruct (Byte.byte_eq_dec x x00) as [->|Hx]; [reflexivity|].
  rewrite <- (exp_log x Hx). apply gf_mul_exp_distr. now apply log_lt.
Qed.

Lemma gf_mul_distr_r (x y z : byte) :
  gf_mul (bxor x y) z = bxor (gf_mul x z) (gf_mul y z).
Proof. rewrite !(gf_mul_comm _ z). apply gf_mul_distr_l. Qed.

(** ** The ring structure, for the [ring] tactic *)

Definition gf_of_bool (b : bool) : byte := if b then x01 else x00.

Lemma gf_ring : ring_theory x00 x01 bxor gf_mul bxor (fun x => x) eq.
Proof.
  constructor; intros.
  - apply bxor_0_l.
  - apply bxor_comm.
  - apply bxor_assoc.
  - apply gf_mul_1_l.
  - apply gf_mul_comm.
  - apply gf_mul_assoc.
  - apply gf_mul_distr_r.
  - reflexivity.
  - apply bxor_self.
Qed.

Lemma gf_morph :
  ring_morph x00 x01 bxor gf_mul bxor (fun x => x) eq
             false true xorb andb xorb (fun b => b) Bool.eqb gf_of_bool.
Proof.
  constructor; try reflexivity.
  - now intros [] [].
  - now intros [] [].
  - now intros [] [].
  - intros x y H. apply Bool.eqb_prop in H. now subst.
Qed.

Add Ring gf_ring_inst : gf_ring (morphism gf_morph).

Lemma ring_test (a b c : byte) :
  bxor (gf_mul a (bxor b c)) (gf_mul a b) = gf_mul c a.
Proof. ring. Qed.

Lemma ring_test2 (a b c : byte) :
  bxor (bxor a b) (bxor (gf_mul c b) a) = bxor b (gf_mul b c).
Proof. ring. Qed.


(** * Part III: vectors and loops *)

Section Vectors.
Context {A : Type}.
Implicit Types (v : list A) (x d : A).

Lemma upd_length i x v : length (upd i x v) = length v.
Proof.
  revert i; induction v as [|h t IH]; intros [|i]; cbn; auto.
Qed.

Lemma nth_upd_eq i x v d : i < length v -> nth i (upd i x v) d = x.
Proof.
  revert i; induction v as [|h t IH]; intros [|i] H; cbn in *; try lia; auto.
  apply IH. lia.
Qed.

Lemma nth_upd_neq i j x v d : j <> i -> nth j (upd i x v) d = nth j v d.
Proof.
  revert i j; induction v as [|h t IH]; intros [|i] [|j] H; cbn; auto; try lia.
Qed.

Lemma nth_upd i j x v d :
  nth j (upd i x v) d = if (j =? i) && (i <? length v) then x else nth j v d.
Proof.
  destruct (Nat.eqb_spec j i) as [->|Hn]; cbn [andb].
  - destruct (Nat.ltb_spec i (length v)).
    + now apply nth_upd_eq.
    + rewrite !nth_overflow; auto. now rewrite upd_length.
  - now apply nth_upd_neq.
Qed.

Lemma upd_overflow i x v : length v <= i -> upd i x v = v.
Proof.
  revert i; induction v as [|h t IH]; intros [|i] H; cbn in *; auto; try lia.
  f_equal. apply IH. lia.
Qed.

Lemma swap_length d i j v : length (swap d i j v) = length v.
Proof. unfold swap. now rewrite !upd_length. Qed.

Lemma nth_swap d i j v p :
  i < length v -> j < length v ->
  nth p (swap d i j v) d =
  if p =? j then nth i v d else if p =? i then nth j v d else nth p v d.
Proof.
  intros Hi Hj. unfold swap. rewrite !nth_upd, !upd_length.
  apply Nat.ltb_lt in Hi, Hj. rewrite Hi, Hj, !andb_true_r.
  destruct (Nat.eqb_spec p j), (Nat.eqb_spec p i); subst; auto.
Qed.

Lemma list_ext v w d :
  length v = length w -> (forall i, i < length v -> nth i v d = nth i w d) -> v = w.
Proof.
  intros HL H. apply (nth_ext v w d d); auto.
Qed.

End Vectors.

Section Loops.
Context {S : Type}.
Implicit Types (body : nat -> S -> S) (s : S).

Lemma for_loop_0 body s : for_loop 0 body s = s.
Proof. reflexivity. Qed.

Lemma for_loop_S n body s : for_loop (Datatypes.S n) body s = body n (for_loop n body s).
Proof. unfold for_loop. now rewrite seq_S, fold_left_app. Qed.

Lemma for_loop_ind (P : nat -> S -> Prop) n body s :
  P 0 s ->
  (forall i t, i < n -> P i t -> P (Datatypes.S i) (body i t)) ->
  P n (for_loop n body s).
Proof.
  intros H0 HS. induction n as [|n IH].
  - exact H0.
  - rewrite for_loop_S. apply HS; [lia|]. apply IH. intros. apply HS; auto.
Qed.

Lemma for_range_ind (P : nat -> S -> Prop) lo hi body s :
  lo <= hi ->
  P lo s ->
  (forall i t, lo <= i < hi -> P i t -> P (Datatypes.S i) (body i t)) ->
  P hi (for_range lo hi body s).
Proof.
  intros Hle H0 HS. unfold for_range.
  remember (hi - lo) as len eqn:E.
  assert (Hhi : hi = lo + len) by lia. clear E. subst hi. clear Hle.
  induction len as [|len IH].
  - now rewrite Nat.add_0_r.
  - rewrite seq_S, fold_left_app. cbn. rewrite Nat.add_succ_r.
    apply HS; [lia|]. apply IH. intros. apply HS; auto. lia.
Qed.

Lemma for_down_0 body s : for_down 0 body s = s.
Proof. reflexivity. Qed.

Lemma for_down_S n body s : for_down (Datatypes.S n) body s = for_down n body (body n s).
Proof. unfold for_down. now rewrite seq_S, rev_app_distr. Qed.

(** Invariant rule for a loop running down: [P i] holds before the
    iteration with counter [i - 1]. *)
Lemma for_down_ind (P : nat -> S -> Prop) n body s :
  P n s ->
  (forall i t, i < n -> P (Datatypes.S i) t -> P i (body i t)) ->
  P 0 (for_down n body s).
Proof.
  revert s. induction n as [|n IH]; intros s H0 HS.
  - exact H0.
  - rewrite for_down_S. apply IH.
    + apply HS; auto.
    + intros. apply HS; auto.
Qed.

End Loops.

Lemma rd_upd (m : list byte) i j x :
  rd (upd i x m) j = if (j =? i) && (i <? length m) then x else rd m j.
Proof. apply nth_upd. Qed.

Lemma rd_xor_at (m : list byte) i j v :
  rd (xor_at m i v) j = if (j =? i) && (i <? length m) then bxor (rd m i) v else rd m j.
Proof. unfold xor_at. apply rd_upd. Qed.

Lemma xor_at_length (m : list byte) i v : length (xor_at m i v) = length m.
Proof. apply upd_length. Qed.

(** * Part IV: the vector kernel [addmul] *)

Section Addmul.
Variables (m0 : list byte) (dst0 src0 : nat) (c : byte) (sz : nat).
Hypothesis Hdst : dst0 + sz <= length m0.
Hypothesis Hsrc : src0 + sz <= length m0.
Hypothesis Hdisj : dst0 + sz <= src0 \/ src0 + sz <= dst0.

(** The memory after the first [j] positions have been processed. *)
Definition addmul_done (j : nat) (m : list byte) : Prop :=
  length m = length m0 /\
  forall p, rd m p =
    if (dst0 <=? p) && (p <? dst0 + j)
    then bxor (rd m0 p) (gf_mul c (rd m0 (src0 + (p - dst0))))
    else rd m0 p.

Lemma addmul_done_0 : addmul_done 0 m0.
Proof.
  split; auto. intros p.
  destruct (Nat.leb_spec dst0 p), (Nat.ltb_spec p (dst0 + 0)); cbn; auto; lia.
Qed.

Lemma addmul_done_step j m d s :
  addmul_done j m -> j < sz -> d = dst0 + j -> s = src0 + j ->
  addmul_done (S j) (xor_at m d (gf_mul_table c (rd m s))).
Proof.
  intros [HL HP] Hj -> ->. split; [now rewrite xor_at_length|].
  intros p. rewrite rd_xor_at, HL, !HP.
  repeat match goal with
  | |- context [?a <=? ?b] => destruct (Nat.leb_spec a b); try lia
  | |- context [?a <? ?b] => destruct (Nat.ltb_spec a b); try lia
  | |- context [?a =? ?b] => destruct (Nat.eqb_spec a b); try lia
  end; cbn; subst; auto;
  replace (src0 + (dst0 + j - dst0)) with (src0 + j) by lia; reflexivity.
Qed.

Lemma addmul_done_steps len j m :
  addmul_done j m -> j + len <= sz ->
  addmul_done (j + len)
    (fold_left (fun m t => xor_at m (dst0 + j + t) (gf_mul_table c (rd m (src0 + j + t))))
       (seq 0 len) m).
Proof.
  intros Hd Hl. induction len as [|len IH].
  - cbn. now rewrite Nat.add_0_r.
  - rewrite seq_S, fold_left_app. cbn [fold_left]. rewrite Nat.add_succ_r.
    apply addmul_done_step; try lia. apply IH. lia.
Qed.

(** One turn of the unrolled loop is sixteen single steps. *)
Lemma addmul_unrolled_S fuel mul_base lim m dst src :
  addmul_unrolled (S fuel) mul_base lim m dst src =
  if (Z.of_nat dst <? lim)%Z then
    addmul_unrolled fuel mul_base lim
      (fold_left (fun m t => xor_at m (dst + t) (mul_base (rd m (src + t)))) (seq 0 16) m)
      (dst + 16) (src + 16)
  else (m, dst, src).
Proof. reflexivity. Qed.

Lemma addmul_unrolled_spec fuel j m :
  addmul_done j m -> j <= sz -> sz - j <= 16 * fuel ->
  exists j' m',
    addmul_unrolled fuel (gf_mul_table c) (Z.of_nat dst0 + Z.of_nat sz - 16 + 1)
      m (dst0 + j) (src0 + j) = (m', dst0 + j', src0 + j') /\
    addmul_done j' m' /\ j' <= sz /\ sz - j' < 16 /\
    (Z.of_nat (dst0 + j') <? Z.of_nat dst0 + Z.of_nat sz - 16 + 1)%Z = false.
Proof.
  revert j m. induction fuel as [|fuel IH]; intros j m Hd Hj Hf.
  - exists j, m. cbn. split; [reflexivity|]. split; [exact Hd|].
    repeat split; try lia. apply Z.ltb_ge. lia.
  - rewrite addmul_unrolled_S.
    destruct (Z.ltb_spec (Z.of_nat (dst0 + j)) (Z.of_nat dst0 + Z.of_nat sz - 16 + 1)).
    + assert (Hj16 : j + 16 <= sz) by lia.
      rewrite <- !Nat.add_assoc.
      destruct (IH (j + 16)
        (fold_left (fun m t => xor_at m (dst0 + j + t) (gf_mul_table c (rd m (src0 + j + t))))
           (seq 0 16) m)) as (j' & m' & E & Hd' & Hj' & Hr & Hx); try lia.
      * now apply addmul_done_steps.
      * exists j', m'. split; [exact E|]. auto.
    + exists j, m. split; [reflexivity|]. split; [exact Hd|].
      repeat split; try lia. apply Z.ltb_ge. lia.
Qed.

Lemma addmul_tail_spec fuel j m :
  addmul_done j m -> j <= sz -> sz - j <= fuel ->
  addmul_done sz (addmul_tail fuel (gf_mul_table c) (Z.of_nat dst0 + Z.of_nat sz)
                    m (dst0 + j) (src0 + j)).
Proof.
  revert j m. induction fuel as [|fuel IH]; intros j m Hd Hj Hf.
  - cbn. replace sz with j by lia. exact Hd.
  - cbn [addmul_tail].
    destruct (Z.ltb_spec (Z.of_nat (dst0 + j)) (Z.of_nat dst0 + Z.of_nat sz)).
    + rewrite <- !Nat.add_succ_r. apply IH; try lia.
      apply addmul_done_step; auto. lia.
    + replace sz with j by lia. exact Hd.
Qed.

Lemma addmul_spec :
  addmul_done sz (addmul m0 dst0 src0 c (Z.of_nat sz)).
Proof.
  unfold addmul. destruct (is_zero c) eqn:Hc.
  - apply is_zero_true in Hc. split; auto. intros p.
    rewrite Hc, gf_mul_0_l, bxor_0_r. now destruct (_ && _).
  - rewrite Nat2Z.id.
    destruct (addmul_unrolled_spec sz 0 m0 addmul_done_0) as (j' & m' & E & Hd & Hj & Hr & _);
      try lia.
    rewrite !Nat.add_0_r in E. rewrite E.
    replace (Z.of_nat dst0 + Z.of_nat sz - 16 + 1 + (16 - 1))%Z
      with (Z.of_nat dst0 + Z.of_nat sz)%Z by lia.
    apply addmul_tail_spec; auto. lia.
Qed.

End Addmul.

(** * Loops that may fail, [memset], [memcpy] *)

Lemma for_r_ok_ind {S} (P : nat -> S -> Prop) (n : nat)
  (body : nat -> S -> result S) (s : S) :
  P 0 s ->
  (forall i t, i < n -> P i t -> exists t', body i t = Ok t' /\ P (Datatypes.S i) t') ->
  exists s', for_r (seq 0 n) body s = Ok s' /\ P n s'.
Proof.
  intros H0 HS.
  enough (G : forall len lo t, lo + len = n -> P lo t ->
              exists s', for_r (seq lo len) body t = Ok s' /\ P n s').
  { apply (G n 0 s); auto. }
  induction len as [|len IH]; intros lo t Hlen Hlo.
  - exists t. split; [reflexivity|]. now replace n with lo by lia.
  - cbn [seq for_r]. destruct (HS lo t) as (t' & E & Ht'); [lia|auto|].
    rewrite E. cbn [bind]. apply IH; auto. lia.
Qed.

Lemma memset_length dst c n : n <= length dst -> length (memset dst c n) = length dst.
Proof.
  intros H. unfold memset. rewrite length_app, repeat_length, length_skipn. lia.
Qed.

Lemma rd_memset dst c n q :
  rd (memset dst c n) q = if q <? n then c else rd dst q.
Proof.
  unfold memset, rd. destruct (Nat.ltb_spec q n).
  - rewrite app_nth1 by now rewrite repeat_length. now apply nth_repeat_lt.
  - rewrite app_nth2, repeat_length, nth_skipn by now rewrite repeat_length.
    f_equal. lia.
Qed.

Lemma memcpy_length dst src n :
  n <= length dst -> n <= length src -> length (memcpy dst src n) = length dst.
Proof.
  intros H1 H2. unfold memcpy. rewrite length_app, length_firstn, length_skipn. lia.
Qed.

Lemma rd_memcpy dst src n q :
  n <= length src -> rd (memcpy dst src n) q = if q <? n then rd src q else rd dst q.
Proof.
  intros Hn. unfold memcpy, rd.
  assert (L : length (firstn n src) = n) by (rewrite length_firstn; lia).
  destruct (Nat.ltb_spec q n) as [H|H].
  - rewrite app_nth1 by lia. rewrite nth_firstn.
    apply Nat.ltb_lt in H. now rewrite H.
  - rewrite app_nth2, L, nth_skipn by lia. f_equal. lia.
Qed.

Lemma memset_at_length m p c n :
  p + n <= length m -> length (memset_at m p c n) = length m.
Proof.
  intros H. unfold memset_at.
  rewrite length_app, length_firstn, memset_length; rewrite ?length_skipn; lia.
Qed.

Lemma rd_memset_at m p c n q :
  p + n <= length m ->
  rd (memset_at m p c n) q = if (p <=? q) && (q <? p + n) then c else rd m q.
Proof.
  intros H. unfold memset_at.
  assert (L : length (firstn p m) = p) by (rewrite length_firstn; lia).
  unfold rd at 1. destruct (Nat.leb_spec p q) as [Hq|Hq]; cbn [andb].
  - rewrite app_nth2, L by lia. fold (rd (memset (skipn p m) c n) (q - p)).
    rewrite rd_memset.
    destruct (Nat.ltb_spec (q - p) n), (Nat.ltb_spec q (p + n)); try lia; auto.
    unfold rd. rewrite nth_skipn. f_equal. lia.
  - rewrite app_nth1 by lia. rewrite nth_firstn.
    apply Nat.ltb_lt in Hq. now rewrite Hq.
Qed.

Lemma memcpy_at_length m p src n :
  p + n <= length m -> n <= length src -> length (memcpy_at m p src n) = length m.
Proof.
  intros H1 H2. unfold memcpy_at.
  rewrite length_app, length_firstn, memcpy_length; rewrite ?length_skipn; lia.
Qed.

Lemma rd_memcpy_at m p src n q :
  p + n <= length m -> n <= length src ->
  rd (memcpy_at m p src n) q =
  if (p <=? q) && (q <? p + n) then rd src (q - p) else rd m q.
Proof.
  intros H1 H2. unfold memcpy_at.
  assert (L : length (firstn p m) = p) by (rewrite length_firstn; lia).
  unfold rd at 1. destruct (Nat.leb_spec p q) as [Hq|Hq]; cbn [andb].
  - rewrite app_nth2, L by lia. fold (rd (memcpy (skipn p m) src n) (q - p)).
    rewrite rd_memcpy by auto.
    destruct (Nat.ltb_spec (q - p) n), (Nat.ltb_spec q (p + n)); try lia; auto.
    unfold rd. rewrite nth_skipn. f_equal. lia.
  - rewrite app_nth1 by lia. rewrite nth_firstn.
    apply Nat.ltb_lt in Hq. now rewrite Hq.
Qed.


(** * Part V: the shuffle step *)

(** ** Counting positions *)

Definition count_pos (f : nat -> bool) (k : nat) : nat :=
  length (filter f (seq 0 k)).

Lemma filter_le_mono {A} (f g : A -> bool) (l : list A) :
  (forall x, In x l -> f x = true -> g x = true) ->
  length (filter f l) <= length (filter g l).
Proof.
  induction l as [|h t IH]; intros H; cbn; auto.
  assert (IH' : length (filter f t) <= length (filter g t))
    by (apply IH; intros; apply H; cbn; auto).
  destruct (f h) eqn:Ef.
  - rewrite (H h); cbn; auto. lia.
  - destruct (g h); cbn; lia.
Qed.

Lemma filter_lt_mono {A} (f g : A -> bool) (l : list A) (c : A) :
  (forall x, In x l -> f x = true -> g x = true) ->
  In c l -> f c = false -> g c = true ->
  length (filter f l) < length (filter g l).
Proof.
  induction l as [|h t IH]; intros H Hin Hf Hg; [destruct Hin|].
  cbn. destruct Hin as [->|Hin].
  - rewrite Hf, Hg. cbn.
    assert (length (filter f t) <= length (filter g t))
      by (apply filter_le_mono; intros; apply H; cbn; auto).
    lia.
  - assert (length (filter f t) < length (filter g t))
      by (apply IH; auto; intros; apply H; cbn; auto).
    destruct (f h) eqn:Ef.
    + rewrite (H h); cbn; auto. lia.
    + destruct (g h); cbn; lia.
Qed.

Lemma count_pos_le (f : nat -> bool) (k : nat) : count_pos f k <= k.
Proof.
  unfold count_pos. rewrite <- (length_seq k 0) at 2. apply filter_length_le.
Qed.

(** The positions already in place. *)
Definition fixed (index : list nat) (k : nat) : nat :=
  count_pos (fun c => nth c index 0 =? c) k.

Lemma fixed_swap (index : list nat) (k i c : nat) :
  k <= length index -> i < k -> c < k ->
  nth i index 0 = c -> c <> i -> nth c index 0 <> c ->
  fixed index k < fixed (swap 0 i c index) k.
Proof.
  intros HL Hi Hc Hic Hne Hcc. unfold fixed, count_pos.
  apply filter_lt_mono with (c := c).
  - intros x Hx Hfx. apply in_seq in Hx. apply Nat.eqb_eq in Hfx. apply Nat.eqb_eq.
    rewrite nth_swap by lia.
    destruct (Nat.eqb_spec x c); [lia|]. destruct (Nat.eqb_spec x i); [|auto].
    subst x. lia.
  - apply in_seq. lia.
  - now apply Nat.eqb_neq.
  - apply Nat.eqb_eq. rewrite nth_swap by lia. now rewrite Nat.eqb_refl.
Qed.

Lemma nth_error_upd {A} (i j : nat) (x : A) (v : list A) :
  nth_error (upd i x v) j =
  if j =? i then (if i <? length v then Some x else None) else nth_error v j.
Proof.
  revert i j; induction v as [|h t IH]; intros [|i] [|j]; cbn; auto.
  now destruct (j =? i).
Qed.

Lemma nth_error_swap {A} (d : A) (i j p : nat) (v : list A) :
  i < length v -> j < length v ->
  nth_error (swap d i j v) p =
  nth_error v (if p =? j then i else if p =? i then j else p).
Proof.
  intros Hi Hj. unfold swap. rewrite !nth_error_upd, upd_length.
  apply Nat.ltb_lt in Hi as Hi', Hj as Hj'. rewrite Hi', Hj'.
  destruct (Nat.eqb_spec p j), (Nat.eqb_spec p i); subst; auto;
    symmetry; now apply nth_error_nth'.
Qed.

Lemma swap_perm {A} (d : A) (i j : nat) (v : list A) :
  i < length v -> j < length v -> Permutation v (swap d i j v).
Proof.
  intros Hi Hj. apply Permutation_nth_error. split; [now rewrite swap_length|].
  exists (fun p => if p =? j then i else if p =? i then j else p). split.
  - intros p q.
    destruct (Nat.eqb_spec p j), (Nat.eqb_spec p i),
             (Nat.eqb_spec q j), (Nat.eqb_spec q i); lia.
  - intros p. now apply nth_error_swap.
Qed.

(** ** The loop *)

(** Every position below [i] is in place or holds a parity shard. *)
Definition placed (k : nat) (index : list nat) (i : nat) : Prop :=
  forall p, p < i -> k <= nth p index 0 \/ nth p index 0 = p.

(** Two positions claim the same source slot [c]. *)
Definition conflict (k : nat) (index : list nat) : Prop :=
  exists a c, a < k /\ c < k /\ a <> c /\ nth a index 0 = c /\ nth c index 0 = c.

Lemma shuffle_loop_spec (R : nat -> shard -> Prop) (k fuel : nat) :
  forall (pkt : list shard) (index : list nat) (i ns : nat),
  k <= length index -> k <= length pkt -> i <= k ->
  (k - i) + (k - fixed index k) < fuel ->
  placed k index i ->
  (forall p, p < k -> R (nth p index 0) (nth p pkt [])) ->
  exists r pkt' index' ns',
    shuffle_loop fuel k pkt index i ns = Some (r, pkt', index', ns') /\
    ns' + fixed index k <= ns + k /\
    length index' = length index /\ length pkt' = length pkt /\
    Permutation index index' /\
    (forall p, p < k -> R (nth p index' 0) (nth p pkt' [])) /\
    (r = 0 /\ placed k index' k \/ r = 1 /\ conflict k index').
Proof.
  induction fuel as [|fuel IH]; intros pkt index i ns HL HLp Hi Hf Hpl HR; [lia|].
  cbn [shuffle_loop]. pose proof (count_pos_le (fun c => nth c index 0 =? c) k) as Hfx.
  fold (fixed index k) in Hfx.
  destruct (Nat.ltb_spec i k) as [Hik|Hik].
  - destruct (Nat.leb_spec k (nth i index 0)) as [Hge|Hlt]; cbn [orb].
    { apply IH; auto; try lia.
      intros p Hp. destruct (Nat.eq_dec p i) as [->|]; [auto|apply Hpl; lia]. }
    destruct (Nat.eqb_spec (nth i index 0) i) as [Heq|Hne].
    { apply IH; auto; try lia.
      intros p Hp. destruct (Nat.eq_dec p i) as [->|]; [auto|apply Hpl; lia]. }
    destruct (Nat.eqb_spec (nth (nth i index 0) index 0) (nth i index 0)) as [Hc|Hc].
    + exists 1, pkt, index, ns. repeat split; auto; try lia.
      right. split; auto. exists i, (nth i index 0). repeat split; auto.
    + set (c := nth i index 0) in *.
      assert (Hfix : fixed index k < fixed (swap 0 i c index) k)
        by (apply fixed_swap; auto; lia).
      pose proof (count_pos_le (fun x => nth x (swap 0 i c index) 0 =? x) k) as Hfx'.
      fold (fixed (swap 0 i c index) k) in Hfx'.
      destruct (IH (swap [] i c pkt) (swap 0 i c index) i (S ns))
        as (r & pkt' & index' & ns' & E & Hns & HL' & HLp' & HP & HR' & Hres).
      * rewrite swap_length. lia.
      * rewrite swap_length. lia.
      * lia.
      * lia.
      * intros p Hp. rewrite nth_swap by lia.
        destruct (Nat.eqb_spec p c); [auto|].
        destruct (Nat.eqb_spec p i); [lia|]. apply Hpl. lia.
      * intros p Hp. rewrite !nth_swap by lia.
        destruct (Nat.eqb_spec p c); [apply HR; lia|].
        destruct (Nat.eqb_spec p i); [apply HR; lia|]. now apply HR.
      * exists r, pkt', index', ns'. rewrite !swap_length in *.
        repeat split; auto; try lia.
        eapply Permutation_trans; [|exact HP]. apply swap_perm; lia.
  - exists 0, pkt, index, ns. repeat split; auto; try lia.
    left. split; auto. assert (i = k) by lia. subst i. exact Hpl.
Qed.

Lemma shuffle_spec (R : nat -> shard -> Prop) (k : nat) (pkt : list shard) (index : list nat) :
  k <= length index -> k <= length pkt ->
  (forall p, p < k -> R (nth p index 0) (nth p pkt [])) ->
  exists r pkt' index',
    shuffle pkt index k = Some (r, pkt', index') /\
    length index' = length index /\ length pkt' = length pkt /\
    Permutation index index' /\
    (forall p, p < k -> R (nth p index' 0) (nth p pkt' [])) /\
    (r = 0 /\ placed k index' k \/ r = 1 /\ conflict k index').
Proof.
  intros HL HLp HR. unfold shuffle.
  destruct (shuffle_loop_spec R k (2 * k + 1) pkt index 0 0)
    as (r & pkt' & index' & ns' & E & _ & H); auto; try lia.
  - intros p Hp. lia.
  - rewrite E. exists r, pkt', index'. auto.
Qed.

(** ** Duplicates *)

Lemma count_occ_two (l : list nat) (a b v : nat) :
  a < b -> b < length l -> nth a l 0 = v -> nth b l 0 = v -> 2 <= count_occ Nat.eq_dec l v.
Proof.
  revert a b. induction l as [|h t IH]; intros a b Hab Hb Ha Hbv; cbn in *; [lia|].
  destruct b as [|b]; [lia|]. destruct a as [|a].
  - subst h. destruct (Nat.eq_dec v v); [|congruence].
    assert (In v t) by (rewrite <- Hbv; apply nth_In; lia).
    apply (count_occ_In Nat.eq_dec) in H. lia.
  - assert (2 <= count_occ Nat.eq_dec t v) by (apply (IH a b); auto; lia).
    destruct (Nat.eq_dec h v); lia.
Qed.

Lemma count_occ_one (l : list nat) (v : nat) :
  (forall p q, p < length l -> q < length l -> nth p l 0 = v -> nth q l 0 = v -> p = q) ->
  count_occ Nat.eq_dec l v <= 1.
Proof.
  induction l as [|h t IH]; intros H; cbn; [lia|].
  assert (IH' : count_occ Nat.eq_dec t v <= 1).
  { apply IH. intros p q Hp Hq Hpv Hqv.
    assert (S p = S q) by (apply H; cbn; auto; lia). lia. }
  destruct (Nat.eq_dec h v) as [->|]; [|exact IH'].
  destruct (count_occ Nat.eq_dec t v) as [|c] eqn:E; [lia|].
  assert (Hin : In v t) by (apply (count_occ_In Nat.eq_dec); lia).
  destruct (In_nth t v 0 Hin) as (q & Hq & Hqv).
  assert (0 = S q) by (apply H; cbn; auto; lia). lia.
Qed.

(** The index array has two distinct positions holding the same [v < k]. *)
Definition dup_source (k : nat) (index : list nat) : Prop :=
  exists a b v, a < b /\ b < length index /\
                nth a index 0 = v /\ nth b index 0 = v /\ v < k.

Lemma placed_no_dup (k : nat) (index index' : list nat) :
  length index' = k -> Permutation index index' -> placed k index' k ->
  ~ dup_source k index.
Proof.
  intros HL HP Hpl (a & b & v & Hab & Hb & Ha & Hbv & Hv).
  pose proof (count_occ_two index a b v Hab Hb Ha Hbv) as H2.
  rewrite (Permutation_count_occ Nat.eq_dec) in HP. rewrite HP in H2.
  assert (H1 : count_occ Nat.eq_dec index' v <= 1).
  { apply count_occ_one. intros p q Hp Hq Hpv Hqv.
    destruct (Hpl p) as [?|?]; [lia|lia|].
    destruct (Hpl q) as [?|?]; [lia|lia|]. lia. }
  lia.
Qed.

Lemma count_occ_positions (l : list nat) (c : nat) :
  2 <= count_occ Nat.eq_dec l c ->
  exists a b, a < b /\ b < length l /\ nth a l 0 = c /\ nth b l 0 = c.
Proof.
  induction l as [|h t IH]; cbn; [lia|]. intros H.
  destruct (Nat.eq_dec h c) as [->|Hn].
  - assert (Hin : In c t) by (apply (count_occ_In Nat.eq_dec); lia).
    destruct (In_nth t c 0 Hin) as (q & Hq & Hqv).
    exists 0, (S q). repeat split; auto; lia.
  - destruct (IH H) as (a' & b' & ? & ? & ? & ?).
    exists (S a'), (S b'). repeat split; auto; lia.
Qed.

Lemma conflict_dup (k : nat) (index index' : list nat) :
  k <= length index' -> Permutation index index' -> conflict k index' ->
  dup_source k index.
Proof.
  intros HL HP (a & c & Ha & Hc & Hac & Hav & Hcv).
  assert (H2 : 2 <= count_occ Nat.eq_dec index' c).
  { destruct (Nat.lt_total a c) as [H|[H|H]]; [|lia|].
    - apply (count_occ_two index' a c); auto; lia.
    - apply (count_occ_two index' c a); auto; lia. }
  rewrite (Permutation_count_occ Nat.eq_dec) in HP. rewrite <- HP in H2.
  destruct (count_occ_positions index c H2) as (a' & b' & ? & ? & ? & ?).
  exists a', b', c. auto.
Qed.


(** * Part VI: sums and matrices over GF(2^8) *)

(** The accumulation [acc ^= f(i)] for [i] in [0, k). *)
Definition gf_sum (k : nat) (f : nat -> byte) : byte :=
  for_loop k (fun i acc => bxor acc (f i)) x00.

Lemma gf_sum_0 f : gf_sum 0 f = x00.
Proof. reflexivity. Qed.

Lemma gf_sum_S k f : gf_sum (S k) f = bxor (gf_sum k f) (f k).
Proof. unfold gf_sum. now rewrite for_loop_S. Qed.

Lemma gf_sum_ext k f g : (forall i, i < k -> f i = g i) -> gf_sum k f = gf_sum k g.
Proof.
  induction k as [|k IH]; intros H; [reflexivity|].
  rewrite !gf_sum_S, IH, H; auto.
Qed.

Lemma gf_sum_zero k f : (forall i, i < k -> f i = x00) -> gf_sum k f = x00.
Proof.
  induction k as [|k IH]; intros H; [reflexivity|].
  rewrite gf_sum_S, IH, H; auto.
Qed.

Lemma gf_sum_add k f g :
  gf_sum k (fun i => bxor (f i) (g i)) = bxor (gf_sum k f) (gf_sum k g).
Proof.
  induction k as [|k IH]; [reflexivity|]. rewrite !gf_sum_S, IH. ring.
Qed.

Lemma gf_sum_scale k c f :
  gf_sum k (fun i => gf_mul c (f i)) = gf_mul c (gf_sum k f).
Proof.
  induction k as [|k IH]; [cbn; ring|]. rewrite !gf_sum_S, IH. ring.
Qed.

Lemma gf_sum_scale_r k c f :
  gf_sum k (fun i => gf_mul (f i) c) = gf_mul (gf_sum k f) c.
Proof.
  induction k as [|k IH]; [cbn; ring|]. rewrite !gf_sum_S, IH. ring.
Qed.

(** Taking one term out of a sum. *)
Lemma gf_sum_split k p f :
  p < k ->
  gf_sum k f = bxor (f p) (gf_sum k (fun i => if i =? p then x00 else f i)).
Proof.
  induction k as [|k IH]; intros Hp; [lia|]. rewrite !gf_sum_S.
  destruct (Nat.eqb_spec k p) as [->|Hn].
  - rewrite (gf_sum_ext p (fun i => if i =? p then x00 else f i) f).
    + ring.
    + intros i Hi. destruct (Nat.eqb_spec i p); [lia|reflexivity].
  - rewrite IH by lia. ring.
Qed.

Lemma gf_sum_single k p f :
  p < k -> (forall i, i < k -> i <> p -> f i = x00) -> gf_sum k f = f p.
Proof.
  intros Hp H. rewrite (gf_sum_split k p f Hp), gf_sum_zero; [ring|].
  intros i Hi. destruct (Nat.eqb_spec i p); auto.
Qed.

Lemma gf_sum_exchange k m (f : nat -> nat -> byte) :
  gf_sum k (fun i => gf_sum m (fun j => f i j)) =
  gf_sum m (fun j => gf_sum k (fun i => f i j)).
Proof.
  induction k as [|k IH].
  - cbn. symmetry. now apply gf_sum_zero.
  - rewrite gf_sum_S, IH, <- gf_sum_add. apply gf_sum_ext. intros j _.
    now rewrite gf_sum_S.
Qed.

(** The transposition of [a] and [b]. *)
Definition transp (a b i : nat) : nat :=
  if i =? a then b else if i =? b then a else i.

Lemma transp_involutive a b i : transp a b (transp a b i) = i.
Proof.
  unfold transp.
  destruct (Nat.eqb_spec i a), (Nat.eqb_spec i b); subst;
    repeat (rewrite ?Nat.eqb_refl;
            try match goal with |- context [?x =? ?y] =>
              destruct (Nat.eqb_spec x y); try lia end); auto.
Qed.

Lemma transp_lt a b i k : a < k -> b < k -> i < k -> transp a b i < k.
Proof. unfold transp. destruct (i =? a), (i =? b); lia. Qed.

Lemma transp_same a i : transp a a i = i.
Proof. unfold transp. destruct (Nat.eqb_spec i a); auto. Qed.

Lemma transp_eq_iff a b i j : transp a b i = transp a b j <-> i = j.
Proof.
  split; [|now intros ->]. intros H.
  rewrite <- (transp_involutive a b i), <- (transp_involutive a b j). now rewrite H.
Qed.

Lemma gf_sum_transp k a b f :
  a < k -> b < k -> gf_sum k (fun i => f (transp a b i)) = gf_sum k f.
Proof.
  intros Ha Hb. destruct (Nat.eq_dec a b) as [->|Hab].
  - apply gf_sum_ext. intros. now rewrite transp_same.
  - rewrite (gf_sum_split k a (fun i => f (transp a b i))) by auto.
    rewrite (gf_sum_split k b (fun i => if i =? a then x00 else f (transp a b i))) by auto.
    rewrite (gf_sum_split k a f) by auto.
    rewrite (gf_sum_split k b (fun i => if i =? a then x00 else f i)) by auto.
    unfold transp at 1 2. rewrite !Nat.eqb_refl.
    destruct (Nat.eqb_spec b a) as [|_]; [lia|].
    rewrite (gf_sum_ext k
      (fun i => if i =? b then x00 else if i =? a then x00 else f (transp a b i))
      (fun i => if i =? b then x00 else if i =? a then x00 else f i)).
    + ring.
    + intros i _. unfold transp.
      destruct (Nat.eqb_spec i b), (Nat.eqb_spec i a); auto.
Qed.

(** ** Row-major matrices *)

Definition mx (src : list byte) (k i j : nat) : byte := rd src (i * k + j).

Definition delta (i j : nat) : byte := if i =? j then x01 else x00.

(** The k x k identity matrix. *)
Definition identity (k : nat) : list byte :=
  map (fun p => delta (p / k) (p mod k)) (seq 0 (k * k)).

Lemma idx_div m i j : j < m -> (i * m + j) / m = i.
Proof.
  intros H. rewrite Nat.add_comm, Nat.div_add by lia.
  rewrite Nat.div_small by auto. reflexivity.
Qed.

Lemma idx_mod m i j : j < m -> (i * m + j) mod m = j.
Proof.
  intros H. rewrite Nat.add_comm, Nat.Div0.mod_add. now apply Nat.mod_small.
Qed.

Lemma idx_lt k m i j : i < k -> j < m -> i * m + j < k * m.
Proof.
  intros Hi Hj. assert (S i * m <= k * m) by (apply Nat.mul_le_mono_r; lia).
  cbn in *. lia.
Qed.

Lemma idx_inj m i j i' j' :
  j < m -> j' < m -> i * m + j = i' * m + j' -> i = i' /\ j = j'.
Proof.
  intros Hj Hj' E.
  assert (Hi : i = i').
  { rewrite <- (idx_div m i j Hj), <- (idx_div m i' j' Hj'). now rewrite E. }
  subst. split; auto. lia.
Qed.

Lemma identity_length k : length (identity k) = k * k.
Proof. unfold identity. now rewrite length_map, length_seq. Qed.

Lemma mx_identity k i j : i < k -> j < k -> mx (identity k) k i j = delta i j.
Proof.
  intros Hi Hj. unfold mx, rd, identity.
  rewrite (nth_indep _ x00 (delta (0 / k) (0 mod k)))
    by (rewrite length_map, length_seq; now apply idx_lt).
  rewrite (map_nth (fun p => delta (p / k) (p mod k))), seq_nth by now apply idx_lt.
  cbn [Nat.add]. now rewrite idx_div, idx_mod.
Qed.

(** Two square matrices with the same entries are the same list. *)
Lemma mx_ext k a b :
  length a = k * k -> length b = k * k ->
  (forall i j, i < k -> j < k -> mx a k i j = mx b k i j) -> a = b.
Proof.
  intros Ha Hb H. apply (list_ext a b x00); [congruence|].
  intros p Hp. rewrite Ha in Hp.
  assert (Hk : 0 < k) by nia.
  specialize (H (p / k) (p mod k)). unfold mx, rd in H.
  rewrite (Nat.mul_comm (p / k)), <- Nat.div_mod_eq in H.
  apply H.
  - apply Nat.Div0.div_lt_upper_bound. lia.
  - apply Nat.mod_upper_bound. lia.
Qed.

(** ** [matmul] *)

Lemma matmul_spec a b c n k m :
  length c = n * m ->
  length (matmul a b c n k m) = n * m /\
  forall i j, i < n -> j < m ->
    rd (matmul a b c n k m) (i * m + j) =
    gf_sum k (fun t => gf_mul (rd a (i * k + t)) (rd b (j + t * m))).
Proof.
  intros Hc. unfold matmul.
  apply (for_loop_ind (fun row c' =>
    length c' = n * m /\
    forall i j, i < row -> j < m ->
      rd c' (i * m + j) = gf_sum k (fun t => gf_mul (rd a (i * k + t)) (rd b (j + t * m))))).
  - split; auto. intros; lia.
  - intros row c1 Hrow [HL1 H1].
    set (body := fun (col : nat) (c : list byte) => upd (row * m + col) _ c).
    enough (G : length (for_loop m body c1) = n * m /\
      forall i j, j < m -> (i < row \/ i = row /\ j < m) ->
        rd (for_loop m body c1) (i * m + j) =
        gf_sum k (fun t => gf_mul (rd a (i * k + t)) (rd b (j + t * m)))).
    { destruct G as [HL H]. split; auto. intros i j Hi Hj. apply H; auto.
      destruct (Nat.eq_dec i row); [right|left]; lia. }
    apply (for_loop_ind (fun col c' =>
      length c' = n * m /\
      forall i j, j < m -> (i < row \/ i = row /\ j < col) ->
        rd c' (i * m + j) = gf_sum k (fun t => gf_mul (rd a (i * k + t)) (rd b (j + t * m))))).
    + split; auto. intros i j Hj [Hi|[_ Hi]]; [auto|lia].
    + intros col c2 Hcol [HL2 H2]. subst body. cbv beta.
      split; [now rewrite upd_length|].
      intros i j Hj Hij. rewrite rd_upd, HL2.
      assert (Hlt : row * m + col < n * m) by now apply idx_lt.
      apply Nat.ltb_lt in Hlt. rewrite Hlt, andb_true_r.
      destruct (Nat.eqb_spec (i * m + j) (row * m + col)) as [E|E].
      * apply idx_inj in E; auto. destruct E as [-> ->]. reflexivity.
      * apply H2; auto. destruct Hij as [?|[-> ?]]; auto.
        right. split; auto. destruct (Nat.eq_dec j col); [subst; lia|lia].
Qed.


(** * Part VII: the elementary operations of [invert_mat] *)

Lemma idx_eqb k i j a t :
  j < k -> t < k -> (i * k + j =? a * k + t) = (i =? a) && (j =? t).
Proof.
  intros Hj Ht.
  destruct (Nat.eqb_spec (i * k + j) (a * k + t)) as [E|E].
  - apply idx_inj in E; auto. destruct E as [-> ->]. now rewrite !Nat.eqb_refl.
  - destruct (Nat.eqb_spec i a), (Nat.eqb_spec j t); subst; auto; congruence.
Qed.

Lemma idx_in_row k i r j :
  j < k -> (i * k <=? r * k + j) && (r * k + j <? i * k + k) = (r =? i).
Proof.
  intros Hj. destruct (Nat.eqb_spec r i) as [->|Hn].
  - destruct (Nat.leb_spec (i * k) (i * k + j)), (Nat.ltb_spec (i * k + j) (i * k + k));
      auto; lia.
  - destruct (Nat.lt_total r i) as [H|[H|H]]; [|lia|].
    + assert (Hm : S r * k <= i * k) by (apply Nat.mul_le_mono_r; lia).
      rewrite Nat.mul_succ_l in Hm.
      destruct (Nat.leb_spec (i * k) (r * k + j)); auto; lia.
    + assert (Hm : S i * k <= r * k) by (apply Nat.mul_le_mono_r; lia).
      rewrite Nat.mul_succ_l in Hm.
      destruct (Nat.ltb_spec (r * k + j) (i * k + k)); rewrite ?andb_false_r; auto; lia.
Qed.

Lemma rd_swap (s : list byte) p q r :
  p < length s -> q < length s ->
  rd (swap x00 p q s) r = if r =? q then rd s p else if r =? p then rd s q else rd s r.
Proof. apply nth_swap. Qed.

Section SquareOps.
Variable k : nat.

Definition square (src : list byte) : Prop := length src = k * k.

Lemma swap_rows_spec src a b :
  square src -> a < k -> b < k ->
  square (swap_rows src k a b) /\
  forall i j, i < k -> j < k ->
    mx (swap_rows src k a b) k i j = mx src k (transp a b i) j.
Proof.
  intros HL Ha Hb. unfold swap_rows.
  enough (G : square (for_loop k (fun i s => swap x00 (a * k + i) (b * k + i) s) src) /\
    forall i j, i < k -> j < k ->
      mx (for_loop k (fun i s => swap x00 (a * k + i) (b * k + i) s) src) k i j =
      if j <? k then mx src k (transp a b i) j else mx src k i j).
  { destruct G as [G1 G2]. split; auto. intros i j Hi Hj. rewrite G2 by auto.
    apply Nat.ltb_lt in Hj. now rewrite Hj. }
  apply (for_loop_ind (fun t s => square s /\
    forall i j, i < k -> j < k ->
      mx s k i j = if j <? t then mx src k (transp a b i) j else mx src k i j)).
  - split; auto.
  - intros t s Ht [HLs Hs]. unfold square in *. split; [now rewrite swap_length|].
    intros i j Hi Hj. unfold mx at 1.
    rewrite rd_swap by (rewrite HLs; now apply idx_lt).
    rewrite !idx_eqb by auto.
    change (rd s (a * k + t)) with (mx s k a t).
    change (rd s (b * k + t)) with (mx s k b t).
    change (rd s (i * k + j)) with (mx s k i j). rewrite !Hs by auto.
    rewrite Nat.ltb_irrefl. unfold transp.
    destruct (Nat.eqb_spec j t) as [->|Hjt].
    + assert (E : (t <? S t) = true) by (apply Nat.ltb_lt; lia).
      rewrite E, ?Nat.ltb_irrefl.
      destruct (Nat.eqb_spec i b) as [->|Hib]; cbn [andb].
      * destruct (Nat.eqb_spec b a); subst; auto.
      * destruct (Nat.eqb_spec i a) as [->|Hia]; cbn [andb]; auto.
    + rewrite !andb_false_r.
      destruct (Nat.ltb_spec j t), (Nat.ltb_spec j (S t)); auto; lia.
Qed.

Lemma swap_cols_spec src a b :
  square src -> a < k -> b < k ->
  square (swap_cols src k a b) /\
  forall i j, i < k -> j < k ->
    mx (swap_cols src k a b) k i j = mx src k i (transp a b j).
Proof.
  intros HL Ha Hb. unfold swap_cols.
  enough (G : square (for_loop k (fun r s => swap x00 (r * k + a) (r * k + b) s) src) /\
    forall i j, i < k -> j < k ->
      mx (for_loop k (fun r s => swap x00 (r * k + a) (r * k + b) s) src) k i j =
      if i <? k then mx src k i (transp a b j) else mx src k i j).
  { destruct G as [G1 G2]. split; auto. intros i j Hi Hj. rewrite G2 by auto.
    apply Nat.ltb_lt in Hi. now rewrite Hi. }
  apply (for_loop_ind (fun t s => square s /\
    forall i j, i < k -> j < k ->
      mx s k i j = if i <? t then mx src k i (transp a b j) else mx src k i j)).
  - split; auto.
  - intros t s Ht [HLs Hs]. unfold square in *. split; [now rewrite swap_length|].
    intros i j Hi Hj. unfold mx at 1.
    rewrite rd_swap by (rewrite HLs; now apply idx_lt).
    rewrite !idx_eqb by auto.
    change (rd s (t * k + a)) with (mx s k t a).
    change (rd s (t * k + b)) with (mx s k t b).
    change (rd s (i * k + j)) with (mx s k i j). rewrite !Hs by auto.
    rewrite Nat.ltb_irrefl. unfold transp.
    destruct (Nat.eqb_spec i t) as [->|Hit].
    + assert (E : (t <? S t) = true) by (apply Nat.ltb_lt; lia).
      rewrite E, ?Nat.ltb_irrefl.
      destruct (Nat.eqb_spec j b) as [->|Hjb]; cbn [andb].
      * destruct (Nat.eqb_spec b a); subst; auto.
      * destruct (Nat.eqb_spec j a) as [->|Hja]; cbn [andb]; auto.
    + cbn [andb].
      destruct (Nat.ltb_spec i t), (Nat.ltb_spec i (S t)); auto; lia.
Qed.

Lemma gf_inverse_1 : gf_inverse x01 = x01.
Proof. reflexivity. Qed.

Lemma scale_pivot_row_spec src p :
  square src -> p < k ->
  let c := gf_inverse (mx src k p p) in
  square (scale_pivot_row src k p (mx src k p p)) /\
  forall i j, i < k -> j < k ->
    mx (scale_pivot_row src k p (mx src k p p)) k i j =
    if i =? p then (if j =? p then c else gf_mul c (mx src k p j)) else mx src k i j.
Proof.
  intros HL Hp c. unfold scale_pivot_row.
  destruct (Byte.eqb (mx src k p p) x01) eqn:E1; cbn [negb].
  - apply byte_eqb_eq in E1. split; auto. intros i j Hi Hj. subst c. rewrite E1, gf_inverse_1.
    destruct (Nat.eqb_spec i p) as [->|]; auto.
    destruct (Nat.eqb_spec j p) as [->|]; auto. now rewrite gf_mul_1_l.
  - fold c.
    enough (G : square (for_loop k (fun i s => upd (p * k + i) (gf_mul c (rd s (p * k + i))) s)
                          (upd (p * k + p) x01 src)) /\
      forall i j, i < k -> j < k ->
        mx (for_loop k (fun i s => upd (p * k + i) (gf_mul c (rd s (p * k + i))) s)
              (upd (p * k + p) x01 src)) k i j =
        if (i =? p) && (j <? k)
        then (if j =? p then c else gf_mul c (mx src k p j))
        else if (i =? p) && (j =? p) then x01 else mx src k i j).
    { destruct G as [G1 G2]. split; auto. intros i j Hi Hj. rewrite G2 by auto.
      apply Nat.ltb_lt in Hj. rewrite Hj, andb_true_r.
      destruct (Nat.eqb_spec i p); auto. }
    apply (for_loop_ind (fun t s => square s /\
      forall i j, i < k -> j < k ->
        mx s k i j =
        if (i =? p) && (j <? t)
        then (if j =? p then c else gf_mul c (mx src k p j))
        else if (i =? p) && (j =? p) then x01 else mx src k i j)).
    + unfold square in *. split; [now rewrite upd_length|]. intros i j Hi Hj.
      unfold mx. rewrite rd_upd, idx_eqb, andb_false_r by auto.
      assert (Hlt : p * k + p < length src) by (rewrite HL; now apply idx_lt).
      apply Nat.ltb_lt in Hlt. now rewrite Hlt, andb_true_r.
    + intros t s Ht [HLs Hs]. unfold square in *. split; [now rewrite upd_length|].
      intros i j Hi Hj. unfold mx at 1. rewrite rd_upd, idx_eqb by auto.
      assert (Hlt : p * k + t < length s) by (rewrite HLs; now apply idx_lt).
      apply Nat.ltb_lt in Hlt. rewrite Hlt, andb_true_r.
      fold (mx s k p t) (mx s k i j). rewrite !Hs by auto.
      rewrite Nat.eqb_refl, Nat.ltb_irrefl. cbn [andb].
      destruct (Nat.eqb_spec i p) as [->|Hip]; cbn [andb]; auto.
      destruct (Nat.eqb_spec j t) as [->|Hjt].
      * assert (E : (t <? S t) = true) by (apply Nat.ltb_lt; lia). rewrite E.
        destruct (Nat.eqb_spec t p); auto. now rewrite gf_mul_1_r.
      * destruct (Nat.ltb_spec j t), (Nat.ltb_spec j (S t)); auto; lia.
Qed.

Lemma eliminate_spec src p :
  square src -> p < k ->
  square (eliminate src k p) /\
  forall i j, i < k -> j < k ->
    mx (eliminate src k p) k i j =
    if i =? p then mx src k p j
    else if j =? p then gf_mul (mx src k i p) (mx src k p p)
    else bxor (mx src k i j) (gf_mul (mx src k i p) (mx src k p j)).
Proof.
  intros HL Hp. unfold eliminate.
  set (body := fun (i : nat) (s : list byte) => if negb (i =? p) then _ else s).
  enough (G : square (for_loop k body src) /\
    forall i j, i < k -> j < k ->
      mx (for_loop k body src) k i j =
      if (i <? k) && negb (i =? p) then
        if j =? p then gf_mul (mx src k i p) (mx src k p p)
        else bxor (mx src k i j) (gf_mul (mx src k i p) (mx src k p j))
      else mx src k i j).
  { destruct G as [G1 G2]. split; auto. intros i j Hi Hj. rewrite G2 by auto.
    apply Nat.ltb_lt in Hi. rewrite Hi. destruct (Nat.eqb_spec i p) as [->|]; auto. }
  apply (for_loop_ind (fun t s => square s /\
    forall i j, i < k -> j < k ->
      mx s k i j =
      if (i <? t) && negb (i =? p) then
        if j =? p then gf_mul (mx src k i p) (mx src k p p)
        else bxor (mx src k i j) (gf_mul (mx src k i p) (mx src k p j))
      else mx src k i j)).
  - split; auto.
  - intros t s Ht [HLs Hs]. unfold square in *. subst body. cbv beta.
    destruct (Nat.eqb_spec t p) as [->|Htp]; cbn [negb].
    + split; auto. intros i j Hi Hj. rewrite Hs by auto.
      destruct (Nat.eqb_spec i p) as [->|Hip]; cbn [negb]; rewrite ?andb_false_r; auto.
      rewrite !andb_true_r.
      destruct (Nat.ltb_spec i p), (Nat.ltb_spec i (S p)); auto; lia.
    + set (s1 := upd (t * k + p) x00 s).
      assert (HL1 : length s1 = k * k) by (unfold s1; now rewrite upd_length).
      assert (Hdisj : t * k + k <= p * k \/ p * k + k <= t * k).
      { destruct (Nat.lt_total t p) as [H|[H|H]]; [left|lia|right].
        - assert (Hm : S t * k <= p * k) by (apply Nat.mul_le_mono_r; lia).
          rewrite Nat.mul_succ_l in Hm. lia.
        - assert (Hm : S p * k <= t * k) by (apply Nat.mul_le_mono_r; lia).
          rewrite Nat.mul_succ_l in Hm. lia. }
      assert (Ht' : t * k + k <= k * k).
      { assert (Hm : S t * k <= k * k) by (apply Nat.mul_le_mono_r; lia).
        rewrite Nat.mul_succ_l in Hm. lia. }
      assert (Hp' : p * k + k <= k * k).
      { assert (Hm : S p * k <= k * k) by (apply Nat.mul_le_mono_r; lia).
        rewrite Nat.mul_succ_l in Hm. lia. }
      destruct (addmul_spec s1 (t * k) (p * k) (rd s (t * k + p)) k) as [HLa Ha];
        try lia.
      split; [congruence|].
      intros i j Hi Hj. unfold mx at 1. rewrite Ha, idx_in_row by auto.
      assert (Hs1 : forall r q, r < k -> q < k ->
        rd s1 (r * k + q) = if (r =? t) && (q =? p) then x00 else mx s k r q).
      { intros r q Hr Hq. unfold s1. rewrite rd_upd, idx_eqb by auto.
        assert (Hlt : t * k + p < length s) by (rewrite HLs; now apply idx_lt).
        apply Nat.ltb_lt in Hlt. now rewrite Hlt, andb_true_r. }
      replace (p * k + (i * k + j - t * k)) with (p * k + (i * k + j - t * k)) by lia.
      destruct (Nat.eqb_spec i t) as [->|Hit].
      * replace (p * k + (t * k + j - t * k)) with (p * k + j) by lia.
        rewrite !Hs1 by auto. rewrite Nat.eqb_refl. cbn [andb].
        destruct (Nat.eqb_spec p t) as [|_]; [lia|]. cbn [andb].
        fold (mx s k t p). rewrite !Hs by auto.
        rewrite Nat.ltb_irrefl, Nat.eqb_refl. cbn [andb negb]. rewrite andb_false_r.
        assert (E : (t <? S t) = true) by (apply Nat.ltb_lt; lia). rewrite E.
        destruct (Nat.eqb_spec t p) as [|_]; [lia|]. cbn [negb andb].
        destruct (Nat.eqb_spec j p) as [->|Hjp]; [ring|reflexivity].
      * rewrite Hs1 by auto.
        destruct (Nat.eqb_spec i t) as [|_]; [lia|]. cbn [andb].
        rewrite Hs by auto.
        destruct (Nat.ltb_spec i t), (Nat.ltb_spec i (S t)); auto; lia.
Qed.


Lemma bytes_eqb_eq (a b : list byte) : bytes_eqb a b = true <-> a = b.
Proof.
  revert b; induction a as [|x a IH]; intros [|y b]; cbn; split; intros H;
    try reflexivity; try discriminate.
  - apply andb_true_iff in H. destruct H as [H1 H2].
    apply byte_eqb_eq in H1. apply IH in H2. now subst.
  - injection H as -> ->. rewrite byte_eqb_refl. now apply IH.
Qed.

(** The vector [id_row] with [id_row[p] = 1]. *)
Lemma nth_unit_row p j : p < k -> j < k -> rd (upd p x01 (repeat x00 k)) j = delta p j.
Proof.
  intros Hp Hj. rewrite rd_upd, repeat_length. unfold delta, rd.
  apply Nat.ltb_lt in Hp. rewrite Hp, andb_true_r, nth_repeat.
  rewrite (Nat.eqb_sym p j). reflexivity.
Qed.

Lemma memcmp_ne_unit src p :
  square src -> p < k ->
  memcmp_ne (skipn (p * k) src) (upd p x01 (repeat x00 k)) k = false <->
  forall j, j < k -> mx src k p j = delta p j.
Proof.
  intros HL Hp. unfold memcmp_ne. rewrite negb_false_iff, bytes_eqb_eq.
  assert (Hrow : p * k + k <= k * k).
  { assert (Hm : S p * k <= k * k) by (apply Nat.mul_le_mono_r; lia).
    rewrite Nat.mul_succ_l in Hm. lia. }
  assert (L1 : length (firstn k (skipn (p * k) src)) = k).
  { rewrite length_firstn, length_skipn, HL. lia. }
  assert (L2 : length (firstn k (upd p x01 (repeat x00 k))) = k).
  { rewrite length_firstn, upd_length, repeat_length. lia. }
  assert (N1 : forall j, j < k -> nth j (firstn k (skipn (p * k) src)) x00 = mx src k p j).
  { intros j Hj. rewrite nth_firstn, nth_skipn. apply Nat.ltb_lt in Hj. now rewrite Hj. }
  assert (N2 : forall j, j < k ->
             nth j (firstn k (upd p x01 (repeat x00 k))) x00 = delta p j).
  { intros j Hj. rewrite nth_firstn. pose proof (nth_unit_row p j Hp Hj) as H.
    apply Nat.ltb_lt in Hj. now rewrite Hj. }
  split.
  - intros E j Hj. rewrite <- N1, <- N2 by auto. now rewrite E.
  - intros H. apply (list_ext _ _ x00); [congruence|].
    intros j Hj. rewrite L1 in Hj. rewrite N1, N2 by auto. now apply H.
Qed.

(** ** The pivot search *)

Lemma is_zero_negb (b : byte) : negb (is_zero b) = true <-> b <> x00.
Proof. rewrite negb_true_iff. apply is_zero_false. Qed.

Lemma scan_ix_spec src ipiv row ixs :
  (forall ix, In ix ixs -> nth ix ipiv 0 <= 1) ->
  (exists ix, scan_ix src ipiv k row ixs = Ok (Some ix) /\
              In ix ixs /\ nth ix ipiv 0 = 0 /\ mx src k row ix <> x00) \/
  (scan_ix src ipiv k row ixs = Ok None /\
   forall ix, In ix ixs -> nth ix ipiv 0 = 0 -> mx src k row ix = x00).
Proof.
  induction ixs as [|ix rest IH]; intros Hle.
  - right. split; [reflexivity|]. intros ix [].
  - cbn [scan_ix].
    assert (IH' := IH (fun i Hi => Hle i (or_intror Hi))). clear IH.
    destruct (Nat.eqb_spec (nth ix ipiv 0) 0) as [E0|E0].
    + destruct (is_zero (rd src (row * k + ix))) eqn:Ez; cbn [negb].
      * apply is_zero_true in Ez.
        destruct IH' as [(ix' & E & Hin & Hp & Hnz)|[E Hall]].
        -- left. exists ix'. repeat split; auto. now right.
        -- right. split; auto. intros i [<-|Hi] Hi0; auto.
      * apply is_zero_false in Ez. left. exists ix. repeat split; auto. now left.
    + assert (Hix : nth ix ipiv 0 <= 1) by (apply Hle; now left).
      destruct (Nat.ltb_spec 1 (nth ix ipiv 0)); [lia|].
      destruct IH' as [(ix' & E & Hin & Hp & Hnz)|[E Hall]].
      * left. exists ix'. repeat split; auto. now right.
      * right. split; auto. intros i [<-|Hi] Hi0; auto. lia.
Qed.

Lemma scan_rows_spec src ipiv rows :
  (forall ix, ix < k -> nth ix ipiv 0 <= 1) ->
  (exists row ix, scan_rows src ipiv k rows = Ok (Some (row, ix)) /\
              In row rows /\ ix < k /\ nth row ipiv 0 <> 1 /\ nth ix ipiv 0 = 0 /\
              mx src k row ix <> x00) \/
  (scan_rows src ipiv k rows = Ok None /\
   forall row ix, In row rows -> ix < k -> nth row ipiv 0 <> 1 -> nth ix ipiv 0 = 0 ->
                  mx src k row ix = x00).
Proof.
  intros Hle. induction rows as [|row rest IH].
  - right. split; [reflexivity|]. intros ? ? [].
  - cbn [scan_rows].
    destruct (Nat.eqb_spec (nth row ipiv 0) 1) as [E1|E1]; cbn [negb].
    + destruct IH as [(r & ix & E & Hin & Hix & Hr & Hp & Hnz)|[E Hall]].
      * left. exists r, ix. repeat split; auto. now right.
      * right. split; auto. intros r ix [<-|Hr] Hix Hr1 Hp; auto. congruence.
    + destruct (scan_ix_spec src ipiv row (seq 0 k)) as [(ix & E & Hin & Hp & Hnz)|[E Hall]].
      * intros ix Hix. apply Hle. apply in_seq in Hix. lia.
      * rewrite E. cbn [bind]. left. exists row, ix. apply in_seq in Hin.
        repeat split; auto; [now left | lia].
      * rewrite E. cbn [bind].
        destruct IH as [(r & ix & E' & Hin & Hix & Hr & Hp & Hnz)|[E' Hall']].
        -- left. exists r, ix. repeat split; auto. now right.
        -- right. split; auto. intros r ix [<-|Hr] Hix Hr1 Hp; auto.
           apply Hall; auto. apply in_seq. lia.
Qed.

Lemma find_pivot_spec src ipiv col :
  col < k -> (forall ix, ix < k -> nth ix ipiv 0 <= 1) ->
  (exists irow icol, find_pivot src ipiv k col = Ok (irow, icol) /\
     irow < k /\ icol < k /\ nth irow ipiv 0 = 0 /\ nth icol ipiv 0 = 0 /\
     mx src k irow icol <> x00) \/
  (find_pivot src ipiv k col = Throw SingularMatrix /\
   forall r c, r < k -> c < k -> nth r ipiv 0 = 0 -> nth c ipiv 0 = 0 ->
               mx src k r c = x00).
Proof.
  intros Hcol Hle. unfold find_pivot.
  destruct (Nat.eqb_spec (nth col ipiv 0) 1) as [E1|E1]; cbn [negb andb].
  2: destruct (is_zero (rd src (col * k + col))) eqn:Ez; cbn [negb].
  3: { apply is_zero_false in Ez. left. exists col, col.
       pose proof (Hle col Hcol). repeat split; auto; lia. }
  all: destruct (scan_rows_spec src ipiv (seq 0 k) Hle)
         as [(r & ix & E & Hin & Hix & Hr & Hp & Hnz)|[E Hall]];
       rewrite E; cbn [bind].
  all: try (left; exists r, ix; apply in_seq in Hin; pose proof (Hle r);
            repeat split; auto; lia).
  all: right; split; auto; intros r c Hr Hc Hr0 Hc0; apply Hall; auto;
       try (apply in_seq; lia); lia.
Qed.

End SquareOps.


(** * Part VIII: Gauss-Jordan elimination as an exchange of variables

    A state of the in-place elimination is read as a linear relation
    between two vectors [x] and [z]: at a position that has been used as
    pivot the roles of [x] and [z] are exchanged.  Every step of the
    algorithm keeps the relation described by the original matrix. *)

Section Exchange.
Variable k : nat.

Definition matrix := nat -> nat -> byte.
Definition vector := nat -> byte.

(** z = M x *)
Definition lin (M : matrix) (x z : vector) : Prop :=
  forall i, i < k -> z i = gf_sum k (fun j => gf_mul (M i j) (x j)).

(** u = A v, where u and v take their entries from x or z by [piv]. *)
Definition lin_ex (A : matrix) (piv : nat -> bool) (x z : vector) : Prop :=
  forall i, i < k ->
    (if piv i then x i else z i) =
    gf_sum k (fun j => gf_mul (A i j) (if piv j then z j else x j)).

Definition exch (M A : matrix) (piv : nat -> bool) : Prop :=
  forall x z, lin M x z <-> lin_ex A piv x z.

Lemma exch_init (M A : matrix) :
  (forall i j, i < k -> j < k -> A i j = M i j) -> exch M A (fun _ => false).
Proof.
  intros H x z. unfold lin, lin_ex. split; intros G i Hi; rewrite (G i Hi);
    apply gf_sum_ext; intros j Hj; now rewrite H.
Qed.

Lemma exch_ext (M M' A A' : matrix) (piv piv' : nat -> bool) :
  (forall i j, i < k -> j < k -> M' i j = M i j) ->
  (forall i j, i < k -> j < k -> A' i j = A i j) ->
  (forall i, i < k -> piv' i = piv i) ->
  exch M A piv -> exch M' A' piv'.
Proof.
  intros HM HA Hp H x z. specialize (H x z). unfold lin, lin_ex in *.
  split; intros G.
  - assert (G' : forall i, i < k -> z i = gf_sum k (fun j => gf_mul (M i j) (x j))).
    { intros i Hi. rewrite (G i Hi). apply gf_sum_ext. intros j Hj. now rewrite HM. }
    pose proof (proj1 H G') as G2; clear G'; rename G2 into G'. intros i Hi. rewrite Hp by auto. rewrite (G' i Hi).
    apply gf_sum_ext. intros j Hj. now rewrite HA, Hp.
  - assert (G' : forall i, i < k -> (if piv i then x i else z i) =
                 gf_sum k (fun j => gf_mul (A i j) (if piv j then z j else x j))).
    { intros i Hi. rewrite <- Hp by auto. rewrite (G i Hi).
      apply gf_sum_ext. intros j Hj. now rewrite HA, Hp. }
    pose proof (proj2 H G') as G2; clear G'; rename G2 into G'. intros i Hi. rewrite (G' i Hi).
    apply gf_sum_ext. intros j Hj. now rewrite HM.
Qed.

(** Swapping two rows that have not been used as pivots. *)
Lemma exch_swap (M A : matrix) (piv : nat -> bool) (a b : nat) :
  a < k -> b < k -> piv a = false -> piv b = false ->
  exch M A piv ->
  exch (fun i j => M (transp a b i) j) (fun i j => A (transp a b i) j) piv.
Proof.
  intros Ha Hb Hpa Hpb H x z.
  assert (Hpiv : forall i, piv (transp a b i) = piv i).
  { intros i. unfold transp.
    destruct (Nat.eqb_spec i a) as [->|]; [congruence|].
    destruct (Nat.eqb_spec i b) as [->|]; congruence. }
  assert (Hfix : forall i, piv i = true -> transp a b i = i).
  { intros i Hi. unfold transp.
    destruct (Nat.eqb_spec i a) as [->|]; [congruence|].
    destruct (Nat.eqb_spec i b) as [->|]; congruence. }
  specialize (H x (fun i => z (transp a b i))). unfold lin, lin_ex in *.
  split; intros G.
  - assert (G' : forall i, i < k ->
                 z (transp a b i) = gf_sum k (fun j => gf_mul (M i j) (x j))).
    { intros i Hi. rewrite (G (transp a b i)) by now apply transp_lt.
      now rewrite transp_involutive. }
    pose proof (proj1 H G') as G2; clear G'; rename G2 into G'. intros i Hi.
    specialize (G' (transp a b i) (transp_lt a b i k Ha Hb Hi)).
    rewrite Hpiv, transp_involutive in G'.
    destruct (piv i) eqn:Ei.
    + rewrite (Hfix i) in G' by auto. rewrite (Hfix i) by auto. rewrite G'.
      apply gf_sum_ext. intros j Hj.
      destruct (piv j) eqn:Ej; auto. now rewrite (Hfix j).
    + rewrite G'. apply gf_sum_ext. intros j Hj.
      destruct (piv j) eqn:Ej; auto. now rewrite (Hfix j).
  - assert (G' : forall i, i < k ->
       (if piv i then x i else z (transp a b i)) =
       gf_sum k (fun j => gf_mul (A i j) (if piv j then z (transp a b j) else x j))).
    { intros i Hi.
      specialize (G (transp a b i) (transp_lt a b i k Ha Hb Hi)).
      rewrite Hpiv, transp_involutive in G.
      destruct (piv i) eqn:Ei.
      - rewrite (Hfix i) in G by auto. rewrite G.
        apply gf_sum_ext. intros j Hj.
        destruct (piv j) eqn:Ej; auto. now rewrite (Hfix j).
      - rewrite G. apply gf_sum_ext. intros j Hj.
        destruct (piv j) eqn:Ej; auto. now rewrite (Hfix j). }
    pose proof (proj2 H G') as G2; clear G'; rename G2 into G'. intros i Hi.
    specialize (G' (transp a b i) (transp_lt a b i k Ha Hb Hi)).
    now rewrite transp_involutive in G'.
Qed.

(** The sum over all columns but [p]. *)
Definition rest (p : nat) (f : nat -> byte) : byte :=
  gf_sum k (fun j => if j =? p then x00 else f j).

Lemma rest_split p f : p < k -> gf_sum k f = bxor (f p) (rest p f).
Proof. apply gf_sum_split. Qed.

Lemma rest_ext p f g :
  (forall j, j < k -> j <> p -> f j = g j) -> rest p f = rest p g.
Proof.
  intros H. apply gf_sum_ext. intros j Hj.
  destruct (Nat.eqb_spec j p); auto.
Qed.

Lemma rest_add p f g : rest p (fun j => bxor (f j) (g j)) = bxor (rest p f) (rest p g).
Proof.
  unfold rest. rewrite <- gf_sum_add. apply gf_sum_ext. intros j _.
  destruct (j =? p); auto.
Qed.

Lemma rest_scale p c f : rest p (fun j => gf_mul c (f j)) = gf_mul c (rest p f).
Proof.
  unfold rest. rewrite <- gf_sum_scale. apply gf_sum_ext. intros j _.
  destruct (j =? p); auto. now rewrite gf_mul_0_r.
Qed.

(** One elimination step with pivot at position [(p, p)]. *)
Lemma exch_pivot (M A A' : matrix) (piv piv' : nat -> bool) (p : nat) :
  p < k -> piv p = false -> A p p <> x00 ->
  (forall i, i < k -> piv' i = if i =? p then true else piv i) ->
  (forall i j, i < k -> j < k ->
     A' i j =
     let c := gf_inverse (A p p) in
     let P j := if j =? p then c else gf_mul c (A p j) in
     if i =? p then P j
     else if j =? p then gf_mul (A i p) c
     else bxor (A i j) (gf_mul (A i p) (P j))) ->
  exch M A piv -> exch M A' piv'.
Proof.
  intros Hp Hpp Hnz Hpiv' HA' H x z. rewrite (H x z). clear H M.
  set (c := gf_inverse (A p p)) in *.
  assert (Hca : gf_mul c (A p p) = x01) by now apply gf_mul_inverse.
  clearbody c.
  set (v := fun j => if piv j then z j else x j).
  set (s := fun i => rest p (fun j => gf_mul (A i j) (v j))).
  (* the two systems, with the term of column p taken out *)
  assert (R1 : lin_ex A piv x z <->
               forall i, i < k ->
                 (if piv i then x i else z i) = bxor (gf_mul (A i p) (x p)) (s i)).
  { unfold lin_ex. split; intros G i Hi; specialize (G i Hi).
    - rewrite G, (rest_split p) by auto. now rewrite Hpp.
    - rewrite G, (rest_split p _ Hp). now rewrite Hpp. }
  assert (R2 : lin_ex A' piv' x z <->
               forall i, i < k ->
                 (if piv' i then x i else z i) =
                 if i =? p then bxor (gf_mul c (z p)) (gf_mul c (s p))
                 else bxor (bxor (gf_mul (gf_mul (A i p) c) (z p)) (s i))
                           (gf_mul (gf_mul (A i p) c) (s p))).
  { assert (E : forall i, i < k ->
       gf_sum k (fun j => gf_mul (A' i j) (if piv' j then z j else x j)) =
       if i =? p then bxor (gf_mul c (z p)) (gf_mul c (s p))
       else bxor (bxor (gf_mul (gf_mul (A i p) c) (z p)) (s i))
                 (gf_mul (gf_mul (A i p) c) (s p))).
    { intros i Hi. rewrite (rest_split p _ Hp).
      rewrite (Hpiv' p Hp), Nat.eqb_refl, (HA' i p Hi Hp). cbv beta zeta.
      rewrite !Nat.eqb_refl.
      destruct (Nat.eqb_spec i p) as [->|Hip]; cbv beta iota.
      - f_equal. unfold s. rewrite <- rest_scale. apply rest_ext.
        intros j Hj Hjp. rewrite (HA' p j Hp Hj), (Hpiv' j Hj). cbv beta zeta.
        rewrite !Nat.eqb_refl.
        destruct (Nat.eqb_spec j p) as [|_]; [lia|]. cbv beta iota. unfold v. ring.
      - rewrite <- bxor_assoc. f_equal. unfold s.
        rewrite <- rest_scale, <- rest_add. apply rest_ext.
        intros j Hj Hjp. rewrite (HA' i j Hi Hj), (Hpiv' j Hj). cbv beta zeta.
        destruct (Nat.eqb_spec i p) as [|_]; [lia|].
        destruct (Nat.eqb_spec j p) as [|_]; [lia|]. cbv beta iota. unfold v. ring. }
    unfold lin_ex. split; intros G i Hi; specialize (G i Hi).
    - now rewrite <- E.
    - now rewrite E. }
  rewrite R1, R2. clear R1 R2. clearbody s.
  split; intros G.
  - pose proof (G p Hp) as Gp. rewrite Hpp in Gp.
    intros i Hi. rewrite (Hpiv' i Hi).
    destruct (Nat.eqb_spec i p) as [->|Hip].
    + rewrite Gp.
      transitivity (gf_mul (gf_mul c (A p p)) (x p)); [now rewrite Hca, gf_mul_1_l|ring].
    + rewrite (G i Hi), Gp.
      transitivity (bxor (gf_mul (gf_mul (A i p) (gf_mul c (A p p))) (x p)) (s i));
        [now rewrite Hca, gf_mul_1_r|ring].
  - assert (Gp : z p = bxor (gf_mul (A p p) (x p)) (s p)).
    { pose proof (G p Hp) as Gp. rewrite (Hpiv' p Hp), Nat.eqb_refl in Gp.
      rewrite Gp.
      transitivity (bxor (gf_mul (gf_mul c (A p p)) (z p))
                         (bxor (gf_mul (gf_mul c (A p p)) (s p)) (s p))); [|ring].
      rewrite Hca. ring. }
    intros i Hi. destruct (Nat.eqb_spec i p) as [->|Hip].
    + now rewrite Hpp.
    + pose proof (G i Hi) as Gi. rewrite (Hpiv' i Hi) in Gi.
      destruct (Nat.eqb_spec i p) as [|_]; [lia|]. rewrite Gi, Gp.
      transitivity (bxor (gf_mul (gf_mul (A i p) (gf_mul c (A p p))) (x p)) (s i));
        [ring|now rewrite Hca, gf_mul_1_r].
Qed.

Lemma gf_sum_delta_r (f : nat -> byte) (m : nat) :
  m < k -> gf_sum k (fun j => gf_mul (f j) (delta j m)) = f m.
Proof.
  intros Hm. rewrite (gf_sum_single k m); auto.
  - unfold delta. rewrite Nat.eqb_refl. ring.
  - intros i _ Hi. unfold delta. destruct (Nat.eqb_spec i m); [lia|ring].
Qed.

(** When every position has been used, the state is a two-sided inverse. *)
Lemma exch_final (M A : matrix) (piv : nat -> bool) :
  (forall i, i < k -> piv i = true) -> exch M A piv ->
  (forall i m, i < k -> m < k ->
     gf_sum k (fun j => gf_mul (M i j) (A j m)) = delta i m) /\
  (forall i m, i < k -> m < k ->
     gf_sum k (fun j => gf_mul (A i j) (M j m)) = delta i m).
Proof.
  intros Hall H. split; intros i m Hi Hm.
  - destruct (H (fun j => A j m) (fun j => delta j m)) as [_ G].
    symmetry. apply G; auto. intros r Hr. rewrite (Hall r Hr).
    rewrite <- (gf_sum_delta_r (fun j => A r j) m Hm) at 1.
    apply gf_sum_ext. intros j Hj. now rewrite (Hall j Hj).
  - destruct (H (fun j => delta j m) (fun j => M j m)) as [G _].
    assert (G' : lin_ex A piv (fun j => delta j m) (fun j => M j m)).
    { apply G. intros r Hr. symmetry. apply (gf_sum_delta_r (fun j => M r j) m Hm). }
    specialize (G' i Hi). rewrite (Hall i Hi) in G'. rewrite G'.
    apply gf_sum_ext. intros j Hj. now rewrite (Hall j Hj).
Qed.

(** When no pivot is left, the original matrix has a non-trivial kernel. *)
Lemma exch_stuck (M A : matrix) (piv : nat -> bool) (j0 : nat) :
  j0 < k -> piv j0 = false ->
  (forall i j, i < k -> j < k -> piv i = false -> piv j = false -> A i j = x00) ->
  exch M A piv ->
  exists x : vector,
    x j0 = x01 /\ forall i, i < k -> gf_sum k (fun j => gf_mul (M i j) (x j)) = x00.
Proof.
  intros Hj0 Hp0 Hz H.
  set (x := fun i => if piv i then A i j0 else delta i j0).
  exists x. split.
  - unfold x. rewrite Hp0. unfold delta. now rewrite Nat.eqb_refl.
  - destruct (H x (fun _ => x00)) as [_ G]. intros i Hi. symmetry. apply G; auto.
    intros r Hr.
    assert (E : gf_sum k (fun j => gf_mul (A r j) (if piv j then x00 else x j)) = A r j0).
    { rewrite (gf_sum_single k j0); auto.
      - rewrite Hp0. unfold x. rewrite Hp0. unfold delta. rewrite Nat.eqb_refl. ring.
      - intros j Hj Hne. destruct (piv j) eqn:Ej; [ring|].
        unfold x. rewrite Ej. unfold delta.
        destruct (Nat.eqb_spec j j0); [lia|ring]. }
    rewrite E. destruct (piv r) eqn:Er.
    + unfold x. now rewrite Er.
    + symmetry. apply Hz; auto.
Qed.

End Exchange.


(** * Part IX: [invert_mat] *)

(** ** Counting pivots *)

Lemma count_pos_S (f : nat -> bool) (k : nat) :
  count_pos f (S k) = count_pos f k + (if f k then 1 else 0).
Proof.
  unfold count_pos. rewrite seq_S, filter_app, length_app. cbn.
  now destruct (f k).
Qed.

Lemma count_pos_ext (f g : nat -> bool) (k : nat) :
  (forall i, i < k -> f i = g i) -> count_pos f k = count_pos g k.
Proof.
  induction k as [|k IH]; intros H; [reflexivity|].
  rewrite !count_pos_S, IH, H; auto.
Qed.

Lemma count_pos_set (f g : nat -> bool) (k p : nat) :
  p < k -> f p = false -> g p = true ->
  (forall i, i < k -> i <> p -> g i = f i) ->
  count_pos g k = S (count_pos f k).
Proof.
  induction k as [|k IH]; intros Hp Hf Hg H; [lia|].
  rewrite !count_pos_S. destruct (Nat.eq_dec p k) as [->|Hn].
  - rewrite Hf, Hg, (count_pos_ext g f) by (intros; apply H; lia). lia.
  - rewrite IH, H by (auto; lia). lia.
Qed.

Lemma count_pos_none (f : nat -> bool) (k : nat) :
  (forall i, i < k -> f i = false) -> count_pos f k = 0.
Proof.
  induction k as [|k IH]; intros H; [reflexivity|].
  rewrite count_pos_S, IH, H; auto.
Qed.

Lemma count_pos_full (f : nat -> bool) (k : nat) :
  count_pos f k = k -> forall i, i < k -> f i = true.
Proof.
  induction k as [|k IH]; intros H i Hi; [lia|].
  rewrite count_pos_S in H. pose proof (count_pos_le f k).
  destruct (f k) eqn:E; [|lia].
  destruct (Nat.eq_dec i k) as [->|]; auto. apply IH; lia.
Qed.

Lemma count_pos_free (f : nat -> bool) (k : nat) :
  count_pos f k < k -> exists j, j < k /\ f j = false.
Proof.
  induction k as [|k IH]; intros H; [lia|].
  rewrite count_pos_S in H. destruct (f k) eqn:E.
  - destruct IH as (j & Hj & Hfj); [lia|]. exists j. split; auto.
  - exists k. split; auto.
Qed.

(** ** The row permutation recorded in [indxr] and [indxc] *)

(** Position [i] of the working matrix holds row [rho t i] of the
    original after [t] steps. *)
Fixpoint rho (indxr indxc : list nat) (t i : nat) : nat :=
  match t with
  | O => i
  | S t' => rho indxr indxc t' (transp (nth t' indxr 0) (nth t' indxc 0) i)
  end.

Lemma rho_ext (r1 c1 r2 c2 : list nat) (t i : nat) :
  (forall s, s < t -> nth s r1 0 = nth s r2 0 /\ nth s c1 0 = nth s c2 0) ->
  rho r1 c1 t i = rho r2 c2 t i.
Proof.
  revert i. induction t as [|t IH]; intros i H; [reflexivity|].
  cbn. destruct (H t) as [-> ->]; [lia|]. apply IH. intros; apply H; lia.
Qed.

Lemma rho_lt (r c : list nat) (k t i : nat) :
  (forall s, s < t -> nth s r 0 < k /\ nth s c 0 < k) -> i < k -> rho r c t i < k.
Proof.
  revert i. induction t as [|t IH]; intros i H Hi; [exact Hi|].
  cbn. destruct (H t) as [? ?]; [lia|].
  apply IH; [intros; apply H; lia|]. now apply transp_lt.
Qed.

Lemma rho_surj (r c : list nat) (k t j : nat) :
  (forall s, s < t -> nth s r 0 < k /\ nth s c 0 < k) -> j < k ->
  exists i, i < k /\ rho r c t i = j.
Proof.
  revert j. induction t as [|t IH]; intros j H Hj.
  - exists j. auto.
  - destruct (IH j) as (i & Hi & E); [intros; apply H; lia|auto|].
    destruct (H t) as [? ?]; [lia|].
    exists (transp (nth t r 0) (nth t c 0) i). split; [now apply transp_lt|].
    cbn. now rewrite transp_involutive.
Qed.

(** ** The invariant of the main loop *)

Section GaussJordan.
Variables (k : nat) (M0 : list byte).

Definition pivoted (ipiv : list nat) (i : nat) : bool := nth i ipiv 0 =? 1.

Record gj_inv (t : nat) (st : gj_state) : Prop := {
  gi_square : length (gj_src st) = k * k;
  gi_ipiv_len : length (gj_ipiv st) = k;
  gi_indxr_len : length (gj_indxr st) = k;
  gi_indxc_len : length (gj_indxc st) = k;
  gi_id_row : gj_id_row st = repeat x00 k;
  gi_ipiv_le : forall i, i < k -> nth i (gj_ipiv st) 0 <= 1;
  gi_count : count_pos (pivoted (gj_ipiv st)) k = t;
  gi_indx : forall s, s < t -> nth s (gj_indxr st) 0 < k /\ nth s (gj_indxc st) 0 < k;
  gi_exch : exch k (fun i j => mx M0 k (rho (gj_indxr st) (gj_indxc st) t i) j)
                   (mx (gj_src st) k) (pivoted (gj_ipiv st))
}.

(** A non-zero vector of the kernel of [M0]. *)
Definition kernel_vector (x : nat -> byte) : Prop :=
  (exists j, j < k /\ x j <> x00) /\
  forall i, i < k -> gf_sum k (fun j => gf_mul (mx M0 k i j) (x j)) = x00.

Lemma gj_inv_init :
  length M0 = k * k ->
  gj_inv 0 (mk_gj M0 (repeat 0 k) (repeat 0 k) (repeat 0 k) (repeat x00 k)).
Proof.
  intros HL. constructor; cbn [gj_src gj_ipiv gj_indxr gj_indxc gj_id_row];
    rewrite ?repeat_length; auto.
  - intros i Hi. rewrite nth_repeat. lia.
  - apply count_pos_none. intros i Hi. unfold pivoted. now rewrite nth_repeat.
  - intros s Hs. lia.
  - apply exch_ext with (M := mx M0 k) (A := mx M0 k) (piv := fun _ => false); auto.
    + intros i Hi. unfold pivoted. now rewrite nth_repeat.
    + now apply exch_init.
Qed.

Lemma repeat_upd_back {A} (a b : A) n p :
  upd p a (upd p b (repeat a n)) = repeat a n.
Proof.
  apply (list_ext _ _ a).
  - now rewrite !upd_length.
  - intros i Hi. rewrite !nth_upd, !upd_length, nth_repeat.
    now destruct ((i =? p) && (p <? length (repeat a n))).
Qed.

Lemma pivot_step_spec (t : nat) (st : gj_state) :
  t < k -> gj_inv t st ->
  (exists st', pivot_step k t st = Ok st' /\ gj_inv (S t) st') \/
  (pivot_step k t st = Throw SingularMatrix /\ exists x, kernel_vector x).
Proof.
  intros Ht [HL HLp HLr HLc Hid Hle Hcnt Hindx Hex].
  unfold pivot_step.
  destruct (find_pivot_spec k (gj_src st) (gj_ipiv st) t Ht Hle)
    as [(irow & icol & E & Hirow & Hicol & Hpr & Hpc & Hnz)|[E Hnone]];
    rewrite E; cbn [bind].
  2: { (* no pivot: the matrix is singular *)
    right. split; auto.
    destruct (count_pos_free (pivoted (gj_ipiv st)) k) as (j0 & Hj0 & Hf0); [lia|].
    destruct (exch_stuck k
                (fun i j => mx M0 k (rho (gj_indxr st) (gj_indxc st) t i) j)
                (mx (gj_src st) k) (pivoted (gj_ipiv st)) j0 Hj0 Hf0)
      as (x & Hx1 & Hx0); [|exact Hex|].
    - intros i j Hi Hj Hpi Hpj. apply Hnone; auto.
      + unfold pivoted in Hpi. apply Nat.eqb_neq in Hpi. pose proof (Hle i Hi). lia.
      + unfold pivoted in Hpj. apply Nat.eqb_neq in Hpj. pose proof (Hle j Hj). lia.
    - exists x. split.
      + exists j0. split; auto. rewrite Hx1. discriminate.
      + intros i Hi.
        destruct (rho_surj (gj_indxr st) (gj_indxc st) k t i Hindx Hi) as (i' & Hi' & <-).
        now apply Hx0. }
  left.
  (* the row swap *)
  set (src1 := if negb (irow =? icol) then swap_rows (gj_src st) k irow icol
               else gj_src st).
  assert (H1 : length src1 = k * k /\
               forall i j, i < k -> j < k ->
                 mx src1 k i j = mx (gj_src st) k (transp irow icol i) j).
  { unfold src1. destruct (Nat.eqb_spec irow icol) as [->|Hne]; cbn [negb].
    - split; auto. intros. now rewrite transp_same.
    - now apply swap_rows_spec. }
  destruct H1 as [HL1 H1]. clearbody src1.
  assert (Hnz1 : mx src1 k icol icol <> x00).
  { rewrite H1 by auto. unfold transp.
    destruct (Nat.eqb_spec icol irow) as [->|]; [exact Hnz|].
    now rewrite Nat.eqb_refl. }
  change (rd src1 (icol * k + icol)) with (mx src1 k icol icol).
  apply is_zero_false in Hnz1 as Hz. rewrite Hz.
  (* scaling *)
  destruct (scale_pivot_row_spec k src1 icol HL1 Hicol) as [HL2 H2].
  cbv zeta in H2.
  set (src2 := scale_pivot_row src1 k icol (mx src1 k icol icol)) in *. clearbody src2.
  (* elimination *)
  rewrite Hid.
  set (src3 := if memcmp_ne (skipn (icol * k) src2) (upd icol x01 (repeat x00 k)) k
               then eliminate src2 k icol else src2).
  assert (H3 : length src3 = k * k /\
    forall i j, i < k -> j < k ->
      mx src3 k i j =
      let c := gf_inverse (mx src1 k icol icol) in
      let P j := if j =? icol then c else gf_mul c (mx src1 k icol j) in
      if i =? icol then P j
      else if j =? icol then gf_mul (mx src1 k i icol) c
      else bxor (mx src1 k i j) (gf_mul (mx src1 k i icol) (P j))).
  { unfold src3.
    destruct (memcmp_ne (skipn (icol * k) src2) (upd icol x01 (repeat x00 k)) k) eqn:Em.
    - destruct (eliminate_spec k src2 icol HL2 Hicol) as [HL3 H3]. split; auto.
      intros i j Hi Hj. rewrite H3 by auto. cbv zeta. rewrite !H2 by auto.
      rewrite !Nat.eqb_refl.
      destruct (Nat.eqb_spec i icol) as [->|Hi']; auto.
    - pose proof (proj1 (memcmp_ne_unit k src2 icol HL2 Hicol) Em) as Em'.
      clear Em. rename Em' into Em. split; auto.
      intros i j Hi Hj. cbv zeta.
      pose proof (Em icol Hicol) as Ec. rewrite H2, Nat.eqb_refl in Ec by auto.
      unfold delta in Ec. rewrite Nat.eqb_refl in Ec.
      rewrite H2 by auto.
      destruct (Nat.eqb_spec i icol) as [->|Hi']; auto.
      destruct (Nat.eqb_spec j icol) as [->|Hj'].
      + rewrite Ec. ring.
      + pose proof (Em j Hj) as Ej. rewrite H2, Nat.eqb_refl in Ej by auto.
        destruct (Nat.eqb_spec j icol) as [|_]; [lia|].
        unfold delta in Ej. destruct (Nat.eqb_spec icol j) as [|_]; [lia|].
        rewrite Ej. ring. }
  destruct H3 as [HL3 H3]. clearbody src3.
  eexists. split; [reflexivity|].
  assert (Hpiv' : forall i, i < k ->
            pivoted (upd icol (S (nth icol (gj_ipiv st) 0)) (gj_ipiv st)) i =
            if i =? icol then true else pivoted (gj_ipiv st) i).
  { intros i Hi. unfold pivoted. rewrite nth_upd, HLp, Hpc.
    apply Nat.ltb_lt in Hicol as Hlt. rewrite Hlt, andb_true_r.
    now destruct (Nat.eqb_spec i icol). }
  constructor; cbn [gj_src gj_ipiv gj_indxr gj_indxc gj_id_row];
    rewrite ?upd_length; auto.
  - apply repeat_upd_back.
  - intros i Hi. rewrite nth_upd, HLp, Hpc.
    destruct ((i =? icol) && (icol <? k)); auto.
  - rewrite <- Hcnt. apply count_pos_set with (p := icol); auto.
    + unfold pivoted. now rewrite Hpc.
    + rewrite Hpiv', Nat.eqb_refl by auto. reflexivity.
    + intros i Hi Hne. rewrite Hpiv' by auto.
      destruct (Nat.eqb_spec i icol); [lia|reflexivity].
  - intros s Hs. rewrite !nth_upd, HLr, HLc.
    apply Nat.ltb_lt in Ht as Hlt. rewrite Hlt, !andb_true_r.
    destruct (Nat.eqb_spec s t); auto. apply Hindx. lia.
  - apply exch_pivot with (A := mx src1 k) (piv := pivoted (gj_ipiv st)) (p := icol);
      auto.
    + unfold pivoted. now rewrite Hpc.
    + apply exch_ext with
        (M := fun i j => mx M0 k (rho (gj_indxr st) (gj_indxc st) t (transp irow icol i)) j)
        (A := fun i j => mx (gj_src st) k (transp irow icol i) j)
        (piv := pivoted (gj_ipiv st)); auto.
      * intros i j Hi Hj. cbn [rho]. rewrite !nth_upd_eq by lia.
        f_equal. apply rho_ext. intros s Hs. rewrite !nth_upd_neq by lia. auto.
      * apply (exch_swap k (fun i j => mx M0 k (rho (gj_indxr st) (gj_indxc st) t i) j));
          auto; unfold pivoted; [now rewrite Hpr | now rewrite Hpc].
Qed.


Lemma gj_loop_spec (len t : nat) (st : gj_state) :
  t + len = k -> gj_inv t st ->
  (exists st', for_r (seq t len) (pivot_step k) st = Ok st' /\ gj_inv k st') \/
  (for_r (seq t len) (pivot_step k) st = Throw SingularMatrix /\
   exists x, kernel_vector x).
Proof.
  revert t st. induction len as [|len IH]; intros t st Ht Hinv.
  - left. exists st. split; [reflexivity|]. now replace k with t by lia.
  - cbn [seq for_r].
    destruct (pivot_step_spec t st) as [(st1 & E & Hinv1)|[E Hker]]; auto; [lia| |].
    + rewrite E. cbn [bind]. apply IH; auto. lia.
    + right. rewrite E. split; auto.
Qed.

(** The inverse up to the recorded permutation of the first [t] swaps. *)
Definition inverse_upto (indxr indxc : list nat) (t : nat) (B : list byte) : Prop :=
  length B = k * k /\
  (forall i m, i < k -> m < k ->
     gf_sum k (fun j => gf_mul (mx M0 k (rho indxr indxc t i) j) (mx B k j m)) = delta i m) /\
  (forall i m, i < k -> m < k ->
     gf_sum k (fun j => gf_mul (mx B k i j) (mx M0 k (rho indxr indxc t j) m)) = delta i m).

Lemma delta_transp a b i m : delta (transp a b i) (transp a b m) = delta i m.
Proof.
  unfold delta. destruct (Nat.eqb_spec i m) as [->|Hn].
  - now rewrite Nat.eqb_refl.
  - destruct (Nat.eqb_spec (transp a b i) (transp a b m)) as [E|]; auto.
    now apply transp_eq_iff in E.
Qed.

Lemma unscramble_spec (st : gj_state) :
  gj_inv k st ->
  inverse_upto (gj_indxr st) (gj_indxc st) 0
    (unscramble k (gj_indxr st) (gj_indxc st) (gj_src st)).
Proof.
  intros [HL HLp HLr HLc Hid Hle Hcnt Hindx Hex].
  set (r := gj_indxr st) in *. set (c := gj_indxc st) in *.
  unfold unscramble.
  apply (for_down_ind (fun t B => inverse_upto r c t B)).
  - destruct (exch_final k _ _ _ (count_pos_full _ _ Hcnt) Hex) as [F1 F2].
    split; [exact HL|]. split; auto.
  - intros t B Ht (HLB & G1 & G2).
    destruct (Hindx t Ht) as [Hr Hc].
    destruct (Nat.leb_spec k (nth t r 0)) as [|_]; [lia|].
    destruct (Nat.leb_spec k (nth t c 0)) as [|_]; [lia|].
    set (a := nth t r 0) in *. set (b := nth t c 0) in *.
    set (B' := if negb (a =? b) then swap_cols B k a b else B).
    assert (HB' : length B' = k * k /\
                  forall i j, i < k -> j < k -> mx B' k i j = mx B k i (transp a b j)).
    { unfold B'. destruct (Nat.eqb_spec a b) as [->|Hne]; cbn [negb].
      - split; auto. intros. now rewrite transp_same.
      - now apply swap_cols_spec. }
    destruct HB' as [HLB' HB']. clearbody B'.
    split; [exact HLB'|]. split; intros i m Hi Hm.
    + rewrite <- (delta_transp a b i m).
      rewrite <- (G1 (transp a b i) (transp a b m)) by now apply transp_lt.
      apply gf_sum_ext. intros j Hj. rewrite HB' by auto.
      cbn [rho]. fold a b. now rewrite transp_involutive.
    + rewrite <- (G2 i m Hi Hm).
      rewrite <- (gf_sum_transp k a b
                   (fun j => gf_mul (mx B k i j) (mx M0 k (rho r c (S t) j) m))) by auto.
      apply gf_sum_ext. intros j Hj. rewrite HB' by auto.
      cbn [rho]. fold a b. now rewrite transp_involutive.
Qed.

(** [invert_mat] either returns a two-sided inverse or throws, and it
    throws only on a matrix with a non-trivial kernel. *)
Lemma invert_mat_spec :
  length M0 = k * k ->
  (exists B, invert_mat M0 k = Ok B /\ length B = k * k /\
     (forall i m, i < k -> m < k ->
        gf_sum k (fun j => gf_mul (mx M0 k i j) (mx B k j m)) = delta i m) /\
     (forall i m, i < k -> m < k ->
        gf_sum k (fun j => gf_mul (mx B k i j) (mx M0 k j m)) = delta i m)) \/
  (invert_mat M0 k = Throw SingularMatrix /\ exists x, kernel_vector x).
Proof.
  intros HL. unfold invert_mat.
  destruct (gj_loop_spec k 0 _ (Nat.add_0_l k) (gj_inv_init HL))
    as [(st & E & Hinv)|[E Hker]]; rewrite E; cbn [bind].
  - left. eexists. split; [reflexivity|]. exact (unscramble_spec st Hinv).
  - right. auto.
Qed.

End GaussJordan.

(** ** Non-singular matrices *)

(** A k x k matrix is non-singular when M x = 0 only for x = 0. *)
Definition nonsingular (M : list byte) (k : nat) : Prop :=
  forall x : list byte, length x = k ->
    (forall i, i < k -> gf_sum k (fun j => gf_mul (mx M k i j) (rd x j)) = x00) ->
    forall j, j < k -> rd x j = x00.

(** A matrix with a left inverse is non-singular. *)
Lemma left_inverse_nonsingular (M N : list byte) (k : nat) :
  (forall i m, i < k -> m < k ->
     gf_sum k (fun j => gf_mul (mx N k i j) (mx M k j m)) = delta i m) ->
  nonsingular M k.
Proof.
  intros HN x HL Hx j Hj.
  assert (E : gf_sum k (fun i => gf_mul (mx N k j i)
                (gf_sum k (fun m => gf_mul (mx M k i m) (rd x m)))) = rd x j).
  { rewrite (gf_sum_ext k _ (fun i => gf_sum k (fun m =>
               gf_mul (gf_mul (mx N k j i) (mx M k i m)) (rd x m)))).
    - rewrite gf_sum_exchange.
      rewrite (gf_sum_ext k _ (fun m => gf_mul (delta j m) (rd x m))).
      + rewrite (gf_sum_single k j); auto.
        * unfold delta. rewrite Nat.eqb_refl. ring.
        * intros i Hi Hne. unfold delta. destruct (Nat.eqb_spec j i); [lia|ring].
      + intros m Hm. rewrite gf_sum_scale_r. now rewrite HN.
    - intros i Hi. rewrite <- gf_sum_scale. apply gf_sum_ext. intros m Hm. ring. }
  rewrite <- E. apply gf_sum_zero. intros i Hi. rewrite Hx by auto. ring.
Qed.

Lemma kernel_vector_singular (M : list byte) (k : nat) (x : nat -> byte) :
  kernel_vector k M x -> ~ nonsingular M k.
Proof.
  intros [(j & Hj & Hnz) Hker] Hns. apply Hnz.
  specialize (Hns (map x (seq 0 k))).
  assert (Hrd : forall i, i < k -> rd (map x (seq 0 k)) i = x i).
  { intros i Hi. unfold rd.
    rewrite (nth_indep _ x00 (x 0)) by now rewrite length_map, length_seq.
    now rewrite map_nth, seq_nth. }
  rewrite <- Hrd by auto. apply Hns; auto.
  - now rewrite length_map, length_seq.
  - intros i Hi. rewrite <- (Hker i Hi). apply gf_sum_ext. intros m Hm. now rewrite Hrd.
Qed.



(** * Part X: decoding *)

Section Decode.
Variables (k n : nat) (enc : list byte).
Hypothesis Henc : length enc = n * k.

(** The matrix handed to [invert_mat] by [build_decode_matrix]. *)
Lemma decode_matrix_spec (index : list nat) :
  (forall i, i < k -> nth i index 0 < n) ->
  exists D,
    for_r (seq 0 k) (fun i matrix =>
      if nth i index 0 <? k
      then Ok (upd (i * k + i) x01 (memset_at matrix (i * k) x00 k))
      else if nth i index 0 <? n
           then Ok (memcpy_at matrix (i * k) (skipn (nth i index 0 * k) enc) k)
           else Throw BadDecodeIndex) (repeat x00 (k * k)) = Ok D /\
    length D = k * k /\
    forall i j, i < k -> j < k ->
      mx D k i j = if nth i index 0 <? k then delta i j else mx enc k (nth i index 0) j.
Proof.
  intros Hidx.
  apply (for_r_ok_ind (fun t D =>
    length D = k * k /\
    forall i j, i < t -> j < k ->
      mx D k i j = if nth i index 0 <? k then delta i j else mx enc k (nth i index 0) j)).
  - split; [apply repeat_length|]. intros; lia.
  - intros t D Ht [HL HD]. cbv beta.
    assert (Hrow : t * k + k <= k * k).
    { assert (Hm : S t * k <= k * k) by (apply Nat.mul_le_mono_r; lia).
      rewrite Nat.mul_succ_l in Hm. lia. }
    destruct (Nat.ltb_spec (nth t index 0) k) as [Hs|Hs].
    + eexists. split; [reflexivity|]. split.
      * rewrite upd_length, memset_at_length; lia.
      * intros i j Hi Hj. unfold mx at 1.
        rewrite rd_upd, idx_eqb, memset_at_length, rd_memset_at, idx_in_row by (auto; lia).
        assert (Hlt : t * k + t < length D) by (rewrite HL; now apply idx_lt).
        apply Nat.ltb_lt in Hlt. rewrite Hlt, andb_true_r.
        destruct (Nat.eqb_spec i t) as [->|Hit]; cbn [andb].
        -- apply Nat.ltb_lt in Hs. rewrite Hs. unfold delta.
           rewrite (Nat.eqb_sym t j). now destruct (j =? t).
        -- apply HD; auto. lia.
    + specialize (Hidx t Ht). apply Nat.ltb_lt in Hidx as Hn. rewrite Hn.
      assert (Hsrc : k <= length (skipn (nth t index 0 * k) enc)).
      { rewrite length_skipn, Henc.
        assert (Hm : S (nth t index 0) * k <= n * k) by (apply Nat.mul_le_mono_r; lia).
        rewrite Nat.mul_succ_l in Hm. lia. }
      eexists. split; [reflexivity|]. split.
      * rewrite memcpy_at_length; lia.
      * intros i j Hi Hj. unfold mx at 1.
        rewrite rd_memcpy_at, idx_in_row by (auto; lia).
        destruct (Nat.eqb_spec i t) as [->|Hit].
        -- destruct (Nat.ltb_spec (nth t index 0) k); [lia|].
           unfold rd, mx, rd. rewrite nth_skipn. f_equal. lia.
        -- apply HD; auto. lia.
Qed.

Lemma build_decode_matrix_spec (index : list nat) :
  (forall i, i < k -> nth i index 0 < n) ->
  exists D,
    build_decode_matrix k n enc index = invert_mat D k /\
    length D = k * k /\
    forall i j, i < k -> j < k ->
      mx D k i j = if nth i index 0 <? k then delta i j else mx enc k (nth i index 0) j.
Proof.
  intros Hidx. destruct (decode_matrix_spec index Hidx) as (D & E & HL & HD).
  exists D. split; auto. unfold build_decode_matrix. now rewrite E.
Qed.

(** Two equal rows make the matrix singular for [invert_mat]. *)
Lemma invert_mat_equal_rows (D : list byte) (a b : nat) :
  length D = k * k -> a < k -> b < k -> a <> b ->
  (forall j, j < k -> mx D k a j = mx D k b j) ->
  invert_mat D k = Throw SingularMatrix.
Proof.
  intros HL Ha Hb Hab Hrows.
  destruct (invert_mat_spec k D HL) as [(B & _ & _ & F1 & _)|[E _]]; [|exact E].
  exfalso. pose proof (F1 a a Ha Ha) as Ea. pose proof (F1 b a Hb Ha) as Eb.
  rewrite (gf_sum_ext k _ (fun j => gf_mul (mx D k b j) (mx B k j a))) in Ea
    by (intros j Hj; now rewrite Hrows).
  rewrite Eb in Ea. unfold delta in Ea. rewrite Nat.eqb_refl in Ea.
  destruct (Nat.eqb_spec b a); [congruence|discriminate].
Qed.

(** The index array has two distinct positions holding the same parity
    index [v >= k]. *)
Definition dup_parity (index : list nat) : Prop :=
  exists a b v, a < b /\ b < length index /\
                nth a index 0 = v /\ nth b index 0 = v /\ k <= v.

Lemma dup_parity_perm (index index' : list nat) :
  Permutation index index' -> dup_parity index -> dup_parity index'.
Proof.
  intros HP (a & b & v & Hab & Hb & Ha & Hbv & Hv).
  pose proof (count_occ_two index a b v Hab Hb Ha Hbv) as H2.
  rewrite (Permutation_count_occ Nat.eq_dec) in HP. rewrite HP in H2.
  destruct (count_occ_positions index' v H2) as (a' & b' & ? & ? & ? & ?).
  exists a', b', v. auto.
Qed.

Lemma perm_nth_bound (index index' : list nat) (m : nat) :
  Permutation index index' -> length index = k ->
  (forall i, i < k -> nth i index 0 < m) ->
  forall i, i < k -> nth i index' 0 < m.
Proof.
  intros HP HL H i Hi.
  assert (Hin : In (nth i index' 0) index).
  { apply (Permutation_in _ (Permutation_sym HP)), nth_In.
    rewrite <- (Permutation_length HP). lia. }
  destruct (In_nth index _ 0 Hin) as (q & Hq & <-). apply H. lia.
Qed.

End Decode.

(** The outcomes of [decode] on arrays of the right length.  [R] is any
    relation between an index and its shard that holds position by
    position in the arrays passed in: the shuffle step keeps it. *)
Lemma decode_cases_rel (R : nat -> shard -> Prop) (code : fec_code.t)
  (pkt : list shard) (index : list nat) (sz : nat) :
  let k := fec_code.k code in
  let n := fec_code.n code in
  length index = k -> length pkt = k ->
  (forall p, p < k -> R (nth p index 0) (nth p pkt [])) ->
  exists r pkt1 index1,
    shuffle pkt index k = Some (r, pkt1, index1) /\
    length index1 = k /\ length pkt1 = k /\ Permutation index index1 /\
    (forall p, p < k -> R (nth p index1 0) (nth p pkt1 [])) /\
    (r = 1 /\ dup_source k index /\
       fec_code.decode code pkt index sz = Throw DuplicateIndex
     \/
     r = 0 /\ ~ dup_source k index /\ placed k index1 k /\
       fec_code.decode code pkt index sz =
       (m_dec <- build_decode_matrix k n (fec_code.enc_matrix code) index1 ;;
        let new_pkt :=
          for_loop k (fun row new_pkt =>
            if k <=? nth row index1 0 then
              upd row (addmul_k (repeat x00 sz) pkt1 (skipn (row * k) m_dec) sz k) new_pkt
            else new_pkt) (repeat [] k) in
        let pkt2 :=
          for_loop k (fun row pkt =>
            if k <=? nth row index1 0 then
              upd row (memcpy (nth row pkt []) (nth row new_pkt []) sz) pkt
            else pkt) pkt1 in
        Ok (pkt2, index1))).
Proof.
  intros k n HL HLp HR.
  destruct (shuffle_spec R k pkt index)
    as (r & pkt1 & index1 & E & HL1 & HLp1 & HP & HR1 & Hres); auto; try lia.
  exists r, pkt1, index1. rewrite HL in HL1. rewrite HLp in HLp1.
  repeat split; auto.
  unfold fec_code.decode. fold k n. rewrite E.
  destruct Hres as [[-> Hpl]|[-> Hc]].
  - right. repeat split; auto.
    now apply (placed_no_dup k index index1).
  - left. repeat split; auto.
    apply (conflict_dup k index index1); auto. lia.
Qed.

Lemma decode_cases (code : fec_code.t) (pkt : list shard) (index : list nat) (sz : nat) :
  let k := fec_code.k code in
  let n := fec_code.n code in
  length index = k -> length pkt = k ->
  exists r pkt1 index1,
    shuffle pkt index k = Some (r, pkt1, index1) /\
    length index1 = k /\ length pkt1 = k /\ Permutation index index1 /\
    (r = 1 /\ dup_source k index /\
       fec_code.decode code pkt index sz = Throw DuplicateIndex
     \/
     r = 0 /\ ~ dup_source k index /\ placed k index1 k /\
       fec_code.decode code pkt index sz =
       (m_dec <- build_decode_matrix k n (fec_code.enc_matrix code) index1 ;;
        let new_pkt :=
          for_loop k (fun row new_pkt =>
            if k <=? nth row index1 0 then
              upd row (addmul_k (repeat x00 sz) pkt1 (skipn (row * k) m_dec) sz k) new_pkt
            else new_pkt) (repeat [] k) in
        let pkt2 :=
          for_loop k (fun row pkt =>
            if k <=? nth row index1 0 then
              upd row (memcpy (nth row pkt []) (nth row new_pkt []) sz) pkt
            else pkt) pkt1 in
        Ok (pkt2, index1))).
Proof.
  intros k n HL HLp.
  destruct (decode_cases_rel (fun _ _ => True) code pkt index sz HL HLp)
    as (r & pkt1 & index1 & E & HL1 & HLp1 & HP & _ & H); auto.
  exists r, pkt1, index1. auto.
Qed.


(** * Part XI: the constructor *)

Lemma upd_same {A} (i : nat) (x d : A) (v : list A) : nth i v d = x -> upd i x v = v.
Proof.
  intros H. apply (list_ext _ _ d); [apply upd_length|].
  intros j Hj. rewrite nth_upd. destruct (Nat.eqb_spec j i) as [->|]; auto.
  now destruct (i <? length v).
Qed.

Lemma vset_ok (v : list byte) (i : nat) (x : byte) :
  i < length v -> vset v i x = Ok (upd i x v).
Proof. intros H. unfold vset. apply Nat.ltb_lt in H. now rewrite H. Qed.

Lemma vset_undefined (v : list byte) (i : nat) (x : byte) :
  length v <= i -> vset v i x = Undefined.
Proof.
  intros H. unfold vset. destruct (Nat.ltb_spec i (length v)); [lia|reflexivity].
Qed.

Lemma for_r_const {S} (l : list nat) (body : nat -> S -> result S) (s : S) :
  (forall i, In i l -> body i s = Ok s) -> for_r l body s = Ok s.
Proof.
  induction l as [|i l IH]; intros H; [reflexivity|].
  cbn [for_r]. rewrite (H i) by now left. cbn [bind]. apply IH.
  intros j Hj. apply H. now right.
Qed.

(** The entries of the Vandermonde matrix built by the constructor. *)
Definition vdm_entry (i j : nat) : byte :=
  if i =? 0 then (if j =? 0 then x01 else x00) else gf_exp (((i - 1) * j) mod 255).

Section Create.
Variables (k n : nat).
Hypothesis Hk : 1 <= k.
Hypothesis Hkn : k <= n.
Hypothesis Hn : n <= 256.

Lemma row_bound i : i < n -> i * k + k <= n * k.
Proof.
  intros Hi. assert (Hm : S i * k <= n * k) by (apply Nat.mul_le_mono_r; lia).
  rewrite Nat.mul_succ_l in Hm. lia.
Qed.

Lemma size_pos : 0 < n * k.
Proof. pose proof (row_bound 0). lia. Qed.

(** The first row: [tmp_m[0] = 1] and the loop storing zeros. *)
Lemma first_row_ok :
  (tmp_m <- vset (repeat x00 (n * k)) 0 x01 ;;
   for_r (seq 1 (k - 1)) (fun col tmp_m => vset tmp_m col x00) tmp_m) =
  Ok (upd 0 x01 (repeat x00 (n * k))).
Proof.
  pose proof size_pos as Hs.
  rewrite vset_ok by now rewrite repeat_length. cbn [bind].
  apply for_r_const. intros col Hcol. apply in_seq in Hcol.
  pose proof (row_bound 0). 
  rewrite vset_ok by (rewrite upd_length, repeat_length; lia).
  f_equal. apply (upd_same col x00 x00).
  rewrite nth_upd_neq by lia. apply nth_repeat.
Qed.

Definition vdm_rows (r : nat) (t : list byte) : Prop :=
  length t = n * k /\
  forall i j, i < r -> j < k -> mx t k i j = vdm_entry i j.

Lemma fill_rows_spec (fuel r : nat) (t : list byte) :
  r <= n - 1 -> n - 1 - r < fuel -> vdm_rows (S r) t ->
  exists t', fec_code.fill_rows fuel k n t (k + r * k) r = Ok t' /\ vdm_rows n t'.
Proof.
  revert r t. induction fuel as [|fuel IH]; intros r t Hr Hf Ht; [lia|].
  cbn [fec_code.fill_rows]. destruct (Nat.ltb_spec r (n - 1)) as [Hlt|Hge].
  - destruct (for_r_ok_ind (fun c t' =>
        length t' = n * k /\
        forall i j, j < k -> (i < S r \/ i = S r /\ j < c) -> mx t' k i j = vdm_entry i j)
      k (fun col tmp_m => vset tmp_m (k + r * k + col) (gf_exp ((r * col) mod 255))) t)
      as (t1 & E & HL1 & H1).
    + destruct Ht as [HL Ht]. split; auto.
      intros i j Hj [Hi|[_ Hi]]; [auto|lia].
    + intros c t' Hc [HL' H']. pose proof (row_bound (S r)) as Hb.
      rewrite vset_ok by (rewrite HL'; cbn in Hb; lia).
      eexists. split; [reflexivity|]. split; [now rewrite upd_length|].
      intros i j Hj Hij. unfold mx.
      replace (k + r * k + c) with (S r * k + c) by (cbn; lia).
      rewrite rd_upd, idx_eqb, HL' by auto.
      assert (Hlt' : S r * k + c < n * k) by (cbn in *; lia).
      apply Nat.ltb_lt in Hlt'. rewrite Hlt', andb_true_r.
      destruct (Nat.eqb_spec i (S r)) as [->|Hi]; cbn [andb].
      * destruct (Nat.eqb_spec j c) as [->|Hjc].
        -- unfold vdm_entry. cbn [Nat.eqb]. now rewrite Nat.sub_succ, Nat.sub_0_r.
        -- apply H'; auto. right. split; auto. lia.
      * apply H'; auto. left. lia.
    + rewrite E. cbn [bind].
      replace ((r + 1) mod 256) with (S r) by (rewrite Nat.mod_small; lia).
      replace (k + r * k + k) with (k + S r * k) by (cbn; lia).
      apply IH; try lia. split; auto. intros i j Hi Hj. apply H1; auto.
      destruct (Nat.eq_dec i (S r)); [right|left]; lia.
  - exists t. split; auto. destruct Ht as [HL Ht]. split; auto.
    intros i j Hi Hj. apply Ht; auto. lia.
Qed.

Lemma first_row_vdm : vdm_rows 1 (upd 0 x01 (repeat x00 (n * k))).
Proof.
  pose proof size_pos as Hs. split; [now rewrite upd_length, repeat_length|].
  intros i j Hi Hj. assert (i = 0) by lia. subst i. unfold mx, vdm_entry.
  cbn [Nat.mul Nat.add Nat.eqb]. rewrite rd_upd, repeat_length.
  apply Nat.ltb_lt in Hs. rewrite Hs, andb_true_r.
  destruct (Nat.eqb_spec j 0); auto. apply nth_repeat.
Qed.

(** The Vandermonde matrix as the constructor leaves it in [tmp_m]. *)
Lemma vandermonde_ok :
  exists T,
    (tmp_m <- vset (repeat x00 (n * k)) 0 x01 ;;
     tmp_m <- for_r (seq 1 (k - 1)) (fun col tmp_m => vset tmp_m col x00) tmp_m ;;
     fec_code.fill_rows (S (length tmp_m)) k n tmp_m k 0) = Ok T /\
    vdm_rows n T.
Proof.
  pose proof first_row_ok as E.
  destruct (vset (repeat x00 (n * k)) 0 x01) as [t0| |]; cbn [bind] in *; try discriminate.
  rewrite E. cbn [bind].
  destruct (fill_rows_spec (S (length (upd 0 x01 (repeat x00 (n * k))))) 0
              (upd 0 x01 (repeat x00 (n * k)))) as (T & ET & HT).
  - lia.
  - rewrite upd_length, repeat_length. pose proof size_pos.
    assert (n <= n * k) by (rewrite <- (Nat.mul_1_r n) at 1; apply Nat.mul_le_mono_l; lia).
    lia.
  - apply first_row_vdm.
  - exists T. rewrite Nat.mul_0_l, Nat.add_0_r in ET. auto.
Qed.

(** The diagonal loop with a counter of type [byte]. *)
Lemma set_diag_small (fuel j : nat) (e : list byte) :
  k <= 255 -> length e = n * k -> j <= k -> k - j < fuel ->
  exists e', fec_code.set_diag fuel k e (j * (k + 1)) j = Ok e' /\
    length e' = n * k /\
    forall q, rd e' q =
      if (j * (k + 1) <=? q) && (q <? k * k) && (q mod (k + 1) =? 0) then x01 else rd e q.
Proof.
  intros Hs. revert j e. induction fuel as [|fuel IH]; intros j e HL Hj Hf; [lia|].
  cbn [fec_code.set_diag]. destruct (Nat.ltb_spec j k) as [Hlt|Hge].
  - assert (Hq : j * (k + 1) < k * k).
    { replace (j * (k + 1)) with (j * k + j) by lia. now apply idx_lt. }
    pose proof (row_bound (k - 1)) as Hb.
    assert (Hkk : k * k <= n * k) by (apply Nat.mul_le_mono_r; lia).
    rewrite vset_ok by lia. cbn [bind].
    replace ((j + 1) mod 256) with (S j) by (rewrite Nat.mod_small; lia).
    replace (j * (k + 1) + (k + 1)) with (S j * (k + 1)) by (cbn; lia).
    destruct (IH (S j) (upd (j * (k + 1)) x01 e)) as (e' & E & HL' & H'); try lia.
    { now rewrite upd_length. }
    exists e'. split; auto. split; auto. intros q. rewrite H', rd_upd.
    assert (Hlt' : j * (k + 1) < length e) by lia.
    apply Nat.ltb_lt in Hlt'. rewrite Hlt', andb_true_r.
    destruct (Nat.eqb_spec q (j * (k + 1))) as [->|Hne].
    + rewrite Nat.Div0.mod_mul, Nat.leb_refl.
      apply Nat.ltb_lt in Hq. rewrite Hq. cbn.
      now destruct (_ && _).
    + destruct (Nat.leb_spec (S j * (k + 1)) q), (Nat.leb_spec (j * (k + 1)) q);
        cbn [andb]; auto; try (cbn in *; lia).
      destruct (Nat.ltb_spec q (k * k)); cbn [andb]; auto.
      destruct (Nat.eqb_spec (q mod (k + 1)) 0) as [Hm|]; auto.
      exfalso. apply Nat.Div0.mod_divides in Hm. destruct Hm as [c Hc].
      assert (c = j); [|subst; lia].
      cbn in *. nia.
  - assert (j = k) by lia. subst j. exists e. split; auto. split; auto.
    intros q. destruct (Nat.leb_spec (k * (k + 1)) q); cbn [andb]; auto.
    destruct (Nat.ltb_spec q (k * k)); cbn [andb]; auto. lia.
Qed.

Lemma set_diag_256 (fuel j : nat) (e : list byte) :
  k = 256 -> length e = n * k -> j <= 256 -> 256 - j < fuel ->
  fec_code.set_diag fuel k e (j * 257) (j mod 256) = Undefined.
Proof.
  intros Hk256. assert (n = 256) by lia. subst n.
  revert j e. induction fuel as [|fuel IH]; intros j e HL Hj Hf; [lia|].
  cbn [fec_code.set_diag].
  assert (Hc : j mod 256 < k) by (rewrite Hk256; apply Nat.mod_upper_bound; lia).
  apply Nat.ltb_lt in Hc. rewrite Hc.
  destruct (Nat.eq_dec j 256) as [->|Hne].
  - rewrite vset_undefined; [reflexivity|]. rewrite HL, Hk256. lia.
  - rewrite vset_ok by (rewrite HL, Hk256; lia). cbn [bind].
    replace (j * 257 + (k + 1)) with (S j * 257) by lia.
    replace ((j mod 256 + 1) mod 256) with (S j mod 256).
    + apply IH; try lia. now rewrite upd_length.
    + rewrite (Nat.mod_small j) by lia. f_equal. lia.
Qed.

End Create.

Lemma for_loop_length {A} (n len : nat) (body : nat -> list A -> list A) (s : list A) :
  length s = len ->
  (forall i t, i < n -> length t = len -> length (body i t) = len) ->
  length (for_loop n body s) = len.
Proof.
  intros H0 HS. apply (for_loop_ind (fun _ t => length t = len)); auto.
Qed.

Lemma invert_vdm_length (src : list byte) (k : nat) :
  length (invert_vdm src k) = length src.
Proof.
  unfold invert_vdm. destruct (k =? 1); [reflexivity|].
  apply (for_loop_ind (fun _ (s : list byte * list byte) => length (fst s) = length src)).
  - reflexivity.
  - intros row [s b] Hrow Hs. cbn [fst] in Hs.
    destruct (vdm_row _ b k _) as [b' t]. cbn [fst].
    apply for_loop_length; auto. intros i t' _ Ht'. now rewrite upd_length.
Qed.

Lemma diag_mod (k i j : nat) :
  i < k -> j < k -> ((i * k + j) mod (k + 1) =? 0) = (i =? j).
Proof.
  intros Hi Hj. destruct (Nat.eqb_spec i j) as [->|Hne].
  - replace (j * k + j) with (j * (k + 1)) by lia.
    now rewrite Nat.Div0.mod_mul.
  - apply Nat.eqb_neq. destruct (Nat.lt_total i j) as [H|[H|H]]; [|lia|].
    + replace (i * k + j) with ((j - i) + i * (k + 1)) by lia.
      rewrite Nat.Div0.mod_add, Nat.mod_small by lia. lia.
    + replace (i * k + j) with ((k + 1 + j - i) + (i - 1) * (k + 1)) by nia.
      rewrite Nat.Div0.mod_add, Nat.mod_small by lia. lia.
Qed.

(** The encoding matrix before the identity is written over its top. *)
Definition parity_part (k n : nat) (T : list byte) : list byte :=
  firstn (k * k) (repeat x00 (n * k)) ++
  matmul (skipn (k * k) (invert_vdm T k)) (invert_vdm T k)
         (skipn (k * k) (repeat x00 (n * k))) (n - k) k k.

Lemma parity_part_length (k n : nat) (T : list byte) :
  k <= n -> length (parity_part k n T) = n * k.
Proof.
  intros Hkn. unfold parity_part.
  assert (Hkk : k * k <= n * k) by (apply Nat.mul_le_mono_r; lia).
  assert (Hs : length (skipn (k * k) (repeat x00 (n * k))) = (n - k) * k).
  { rewrite length_skipn, repeat_length, Nat.mul_sub_distr_r. reflexivity. }
  destruct (matmul_spec (skipn (k * k) (invert_vdm T k)) (invert_vdm T k)
              (skipn (k * k) (repeat x00 (n * k))) (n - k) k k Hs) as [HL _].
  rewrite length_app, length_firstn, repeat_length, HL, Nat.mul_sub_distr_r. lia.
Qed.

(** The outcome of the constructor on every pair of parameters. *)
Lemma create_outcome (k n : nat) :
  (k > 256 \/ n > 256 \/ k > n) /\ fec_code.create k n = Throw InvalidParameters
  \/
  (k = 0 /\ n <= 256) /\ fec_code.create k n = Undefined
  \/
  (k = 256 /\ n = 256) /\ fec_code.create k n = Undefined
  \/
  (1 <= k /\ k <= n /\ n <= 256 /\ k <= 255) /\
  exists T enc,
    vdm_rows k n n T /\
    fec_code.create k n = Ok (fec_code.mk k n enc) /\
    length enc = n * k /\
    forall q, rd enc q =
      if q <? k * k then (if q mod (k + 1) =? 0 then x01 else x00)
      else rd (parity_part k n T) q.
Proof.
  unfold fec_code.create. cbv zeta.
  destruct (Nat.ltb_spec 256 k) as [Hk|Hk]; cbn [orb]; [left; split; auto; lia|].
  destruct (Nat.ltb_spec 256 n) as [Hn|Hn]; [left; split; auto; lia|].
  destruct (Nat.ltb_spec n k) as [Hkn|Hkn]; [left; split; auto; lia|].
  right. destruct (Nat.eq_dec k 0) as [->|Hk0].
  { left. split; [lia|]. rewrite Nat.mul_0_r. reflexivity. }
  right.
  destruct (vandermonde_ok k n) as (T & ET & HT); try lia.
  destruct (vset (repeat x00 (n * k)) 0 x01) as [t0| |]; cbn [bind] in *; try discriminate.
  destruct (for_r (seq 1 (k - 1)) (fun col tmp_m => vset tmp_m col x00) t0)
    as [t1| |]; cbn [bind] in *; try discriminate.
  rewrite ET. cbn [bind]. fold (parity_part k n T).
  assert (HLp : length (memset (parity_part k n T) x00 (k * k)) = n * k).
  { rewrite memset_length; rewrite parity_part_length; auto.
    apply Nat.mul_le_mono_r; lia. }
  destruct (Nat.eq_dec k 256) as [Hk256|Hk256].
  - left. split; [lia|].
    assert (H1 : 1 <= k) by lia.
    rewrite (set_diag_256 k n H1 Hkn Hn _ 0); auto; lia.
  - right. split; [lia|].
    assert (H1 : 1 <= k) by lia.
    destruct (set_diag_small k n H1 Hkn Hn
                (S (length (memset (parity_part k n T) x00 (k * k)))) 0
                (memset (parity_part k n T) x00 (k * k)))
      as (enc & E & HL & Hq); [lia|exact HLp|lia| |].
    { rewrite HLp. pose proof (size_pos k n H1 Hkn).
      assert (k * 1 <= n * k); [|lia].
      rewrite (Nat.mul_comm n k). apply Nat.mul_le_mono_l. lia. }
    cbn [Nat.mul] in E. rewrite E. cbn [bind].
    exists T, enc. repeat split; auto; try apply HT.
    intros q. rewrite Hq, rd_memset. cbn [Nat.mul Nat.leb andb].
    destruct (q <? k * k); cbn [andb]; auto.
Qed.


(** * Part XII: polynomials over GF(2^8) *)

(** Powers. *)
Fixpoint gf_pow (x : byte) (t : nat) : byte :=
  match t with
  | O => x01
  | S t' => gf_mul x (gf_pow x t')
  end.

Lemma gf_pow_0 (t : nat) : gf_pow x00 t = if t =? 0 then x01 else x00.
Proof. destruct t; reflexivity. Qed.

Lemma gf_mul_exp (i j : nat) :
  i < 255 -> j < 255 -> gf_mul (gf_exp i) (gf_exp j) = gf_exp ((i + j) mod 255).
Proof.
  intros Hi Hj. rewrite gf_mul_nz by now apply exp_nonzero.
  now rewrite !log_exp.
Qed.

Lemma gf_pow_exp (i t : nat) :
  i < 255 -> gf_pow (gf_exp i) t = gf_exp ((i * t) mod 255).
Proof.
  intros Hi. induction t as [|t IH].
  - now rewrite Nat.mul_0_r.
  - cbn [gf_pow]. rewrite IH, gf_mul_exp by (auto; apply Nat.mod_upper_bound; lia).
    rewrite Nat.Div0.add_mod_idemp_r. f_equal. f_equal. lia.
Qed.

(** Evaluation of a polynomial given by its coefficients, lowest first
    (Horner's rule). *)
Fixpoint peval (p : list byte) (x : byte) : byte :=
  match p with
  | [] => x00
  | c :: p' => bxor c (gf_mul x (peval p' x))
  end.

(** The quotient of [p] by [x - a]: its coefficients are the values at
    [a] of the proper suffixes of [p]. *)
Fixpoint quot (p : list byte) (a : byte) : list byte :=
  match p with
  | [] => []
  | _ :: p' => match p' with
               | [] => []
               | _ => peval p' a :: quot p' a
               end
  end.

Lemma quot_length (p : list byte) (a : byte) : length (quot p a) = length p - 1.
Proof.
  induction p as [|c p IH]; [reflexivity|].
  destruct p as [|d p]; [reflexivity|].
  change (quot (c :: d :: p) a) with (peval (d :: p) a :: quot (d :: p) a).
  cbn [length] in *. rewrite IH. lia.
Qed.

(** The factor theorem: p(x) - p(a) = (x - a) q(x). *)
Lemma quot_spec (p : list byte) (a x : byte) :
  bxor (peval p x) (peval p a) = gf_mul (bxor x a) (peval (quot p a) x).
Proof.
  induction p as [|c p IH]; [cbn; ring|].
  destruct p as [|d p]; [cbn; ring|].
  change (quot (c :: d :: p) a) with (peval (d :: p) a :: quot (d :: p) a).
  cbn [peval] in *.
  set (u := bxor d (gf_mul x (peval p x))) in *.
  set (v := bxor d (gf_mul a (peval p a))) in *.
  transitivity (bxor (gf_mul x (bxor u v)) (gf_mul (bxor x a) v)); [ring|].
  rewrite IH. ring.
Qed.

Lemma nth_quot (p : list byte) (a : byte) (m : nat) :
  S m < length p -> rd (quot p a) m = peval (skipn (S m) p) a.
Proof.
  revert m. induction p as [|c p IH]; intros m Hm; [cbn in Hm; lia|].
  destruct p as [|d p]; [cbn in Hm; lia|].
  change (quot (c :: d :: p) a) with (peval (d :: p) a :: quot (d :: p) a).
  destruct m as [|m]; [reflexivity|].
  change (rd (peval (d :: p) a :: quot (d :: p) a) (S m)) with (rd (quot (d :: p) a) m).
  rewrite IH by (cbn in *; lia). reflexivity.
Qed.

Definition all_zero (p : list byte) : Prop := forall c, In c p -> c = x00.

Lemma quot_zero (p : list byte) (a : byte) :
  all_zero (quot p a) -> peval p a = x00 -> all_zero p.
Proof.
  induction p as [|c p IH]; intros Hq Hp; [intros ? []|].
  destruct p as [|d p].
  - cbn in Hp. intros e [<-|[]]. rewrite <- Hp. ring.
  - change (quot (c :: d :: p) a) with (peval (d :: p) a :: quot (d :: p) a) in Hq.
    assert (Hd : peval (d :: p) a = x00) by (apply Hq; now left).
    assert (Hz : all_zero (d :: p)).
    { apply IH; auto. intros e He. apply Hq. now right. }
    intros e [<-|He]; [|now apply Hz].
    cbn [peval] in Hp, Hd. rewrite Hd in Hp. rewrite <- Hp. ring.
Qed.

(** A polynomial with more distinct roots than coefficients is zero. *)
Lemma roots_bound (pts : list byte) :
  NoDup pts ->
  forall p, length p <= length pts ->
  (forall a, In a pts -> peval p a = x00) -> all_zero p.
Proof.
  induction pts as [|a pts IH]; intros Hnd p Hlen Hroots.
  - destruct p; [intros ? []|cbn in Hlen; lia].
  - inversion Hnd as [|? ? Hnin Hnd']; subst.
    apply (quot_zero p a); [|apply Hroots; now left].
    apply IH; auto.
    + rewrite quot_length. cbn in Hlen. lia.
    + intros b Hb.
      assert (E : gf_mul (bxor b a) (peval (quot p a) b) = x00).
      { rewrite <- quot_spec, (Hroots a), (Hroots b) by (cbn; auto). reflexivity. }
      destruct (gf_mul_eq_0 _ _ E) as [H|H]; [|exact H].
      apply (proj1 (bxor_eq_0 b a)) in H. rewrite H in Hb. destruct (Hnin Hb).
Qed.

(** Horner's rule against the sum of monomials. *)
Lemma gf_sum_shift (n : nat) (f : nat -> byte) :
  gf_sum (S n) f = bxor (f 0) (gf_sum n (fun t => f (S t))).
Proof.
  induction n as [|n IH]; [cbn; ring|].
  rewrite gf_sum_S, IH, gf_sum_S. ring.
Qed.

Lemma peval_sum (p : list byte) (x : byte) :
  peval p x = gf_sum (length p) (fun t => gf_mul (rd p t) (gf_pow x t)).
Proof.
  induction p as [|c p IH]; [reflexivity|].
  cbn [peval length]. rewrite gf_sum_shift, IH, <- gf_sum_scale.
  change (rd (c :: p) 0) with c. change (gf_pow x 0) with x01. f_equal; [ring|].
  apply gf_sum_ext. intros t _. change (rd (c :: p) (S t)) with (rd p t).
  cbn [gf_pow]. ring.
Qed.

Lemma peval_app (p q : list byte) (x : byte) :
  peval (p ++ q) x = bxor (peval p x) (gf_mul (gf_pow x (length p)) (peval q x)).
Proof.
  induction p as [|c p IH]; [cbn; ring|].
  cbn [app peval length gf_pow]. rewrite IH. ring.
Qed.

(** The polynomial stored in [c] from index [j] on, with leading
    coefficient 1. *)
Definition ev (c : list byte) (j : nat) (x : byte) : byte :=
  peval (skipn j c ++ [x01]) x.

Lemma ev_end (c : list byte) (j : nat) (x : byte) : length c <= j -> ev c j x = x01.
Proof.
  intros H. unfold ev. rewrite skipn_all2 by auto. cbn. ring.
Qed.

Lemma skipn_cons_nth {A} (d : A) (l : list A) (j : nat) :
  j < length l -> skipn j l = nth j l d :: skipn (S j) l.
Proof.
  revert j. induction l as [|h t IH]; intros j Hj; [cbn in Hj; lia|].
  destruct j as [|j]; [reflexivity|]. cbn [skipn nth]. apply IH. cbn in Hj. lia.
Qed.

Lemma ev_step (c : list byte) (j : nat) (x : byte) :
  j < length c -> ev c j x = bxor (rd c j) (gf_mul x (ev c (S j) x)).
Proof.
  intros H. unfold ev. rewrite (skipn_cons_nth x00 c j H). reflexivity.
Qed.

Lemma ev_ext (c c' : list byte) (j : nat) (x : byte) :
  length c = length c' -> (forall m, j <= m -> rd c m = rd c' m) ->
  ev c j x = ev c' j x.
Proof.
  intros HL H. unfold ev. f_equal. f_equal.
  apply (list_ext _ _ x00).
  - rewrite !length_skipn. lia.
  - intros i _. rewrite !nth_skipn. apply H. lia.
Qed.


(** * Part XIII: [invert_vdm] *)

(** The product (x - p_1) ... (x - p_i). *)
Fixpoint linprod (p : list byte) (i : nat) (x : byte) : byte :=
  match i with
  | O => x01
  | S i' => gf_mul (bxor x (rd p i)) (linprod p i' x)
  end.

Lemma linprod_root (p : list byte) (i j : nat) :
  1 <= i -> i <= j -> linprod p j (rd p i) = x00.
Proof.
  intros Hi Hij. induction j as [|j IH]; [lia|].
  cbn [linprod]. destruct (Nat.eq_dec i (S j)) as [->|Hne].
  - rewrite bxor_self. ring.
  - rewrite IH by lia. ring.
Qed.

Section VdmCoeffs.
Variables (k : nat) (p : list byte).
Hypothesis Hk : 2 <= k.
Hypothesis Hp0 : rd p 0 = x00.

(** One pass of the inner loop together with the update of [c[k-1]]. *)
Definition coeff_pass (i : nat) (c : list byte) : list byte :=
  let p_i := rd p i in
  let c := for_range (k - 1 - (i - 1)) (k - 1) (fun j c =>
             upd j (bxor (rd c j) (gf_mul p_i (rd c (j + 1)))) c) c in
  upd (k - 1) (bxor (rd c (k - 1)) p_i) c.

Lemma coeff_pass_spec (i : nat) (c : list byte) :
  1 <= i -> i < k -> length c = k ->
  length (coeff_pass i c) = k /\
  forall j, rd (coeff_pass i c) j =
    if (k - i <=? j) && (j <? k - 1) then bxor (rd c j) (gf_mul (rd p i) (rd c (j + 1)))
    else if j =? k - 1 then bxor (rd c j) (rd p i)
    else rd c j.
Proof.
  intros Hi Hik HL. unfold coeff_pass. cbv zeta.
  replace (k - 1 - (i - 1)) with (k - i) by lia.
  assert (G : length (for_range (k - i) (k - 1) (fun j c =>
                upd j (bxor (rd c j) (gf_mul (rd p i) (rd c (j + 1)))) c) c) = k /\
    forall j, rd (for_range (k - i) (k - 1) (fun j c =>
                upd j (bxor (rd c j) (gf_mul (rd p i) (rd c (j + 1)))) c) c) j =
      if (k - i <=? j) && (j <? k - 1)
      then bxor (rd c j) (gf_mul (rd p i) (rd c (j + 1))) else rd c j).
  { apply (for_range_ind (fun t c' => length c' = k /\
      forall j, rd c' j =
        if (k - i <=? j) && (j <? t)
        then bxor (rd c j) (gf_mul (rd p i) (rd c (j + 1))) else rd c j)); [lia| |].
    - split; auto. intros j.
      destruct (Nat.leb_spec (k - i) j), (Nat.ltb_spec j (k - i)); cbn [andb]; auto; lia.
    - intros t c' Ht [HL' H']. split; [now rewrite upd_length|].
      intros j. rewrite rd_upd, HL', !H'.
      assert (Hlt : t < k) by lia. apply Nat.ltb_lt in Hlt. rewrite Hlt, andb_true_r.
      destruct (Nat.eqb_spec j t) as [->|Hne].
      + destruct (Nat.leb_spec (k - i) t); [|lia].
        destruct (Nat.leb_spec (k - i) (t + 1)); [|lia].
        destruct (Nat.ltb_spec t t); [lia|].
        destruct (Nat.ltb_spec (t + 1) t); [lia|].
        destruct (Nat.ltb_spec t (S t)); [|lia]. reflexivity.
      + destruct (Nat.leb_spec (k - i) j); cbn [andb]; auto.
        destruct (Nat.ltb_spec j t), (Nat.ltb_spec j (S t)); auto; lia. }
  destruct G as [G1 G2]. split; [now rewrite upd_length|].
  intros j. rewrite rd_upd, G1, !G2.
  assert (Hlt : k - 1 < k) by lia. apply Nat.ltb_lt in Hlt. rewrite Hlt, andb_true_r.
  destruct (Nat.eqb_spec j (k - 1)) as [->|Hne].
  - destruct (Nat.ltb_spec (k - 1) (k - 1)); [lia|]. now rewrite andb_false_r.
  - reflexivity.
Qed.

Lemma coeff_pass_ev (i : nat) (c : list byte) (x : byte) :
  1 <= i -> i < k -> length c = k ->
  forall d, d < i ->
    ev (coeff_pass i c) (k - 1 - d) x =
    bxor (ev c (k - 1 - d) x) (gf_mul (rd p i) (ev c (k - d) x)).
Proof.
  intros Hi Hik HL. destruct (coeff_pass_spec i c Hi Hik HL) as [HL' H'].
  induction d as [|d IH]; intros Hd.
  - rewrite Nat.sub_0_r, (ev_step _ (k - 1)), (ev_step c (k - 1)) by lia.
    replace (S (k - 1)) with k by lia. rewrite !ev_end by lia.
    rewrite H'. destruct (Nat.ltb_spec (k - 1) (k - 1)); [lia|].
    rewrite andb_false_r, Nat.eqb_refl. ring.
  - rewrite (ev_step _ (k - 1 - S d)), (ev_step c (k - 1 - S d)) by lia.
    replace (S (k - 1 - S d)) with (k - 1 - d) by lia.
    rewrite IH by lia. rewrite H'.
    destruct (Nat.leb_spec (k - i) (k - 1 - S d)); [|lia].
    destruct (Nat.ltb_spec (k - 1 - S d) (k - 1)); [|lia]. cbn [andb].
    replace (k - 1 - S d + 1) with (k - 1 - d) by lia.
    replace (k - S d) with (k - 1 - d) by lia.
    rewrite !(ev_step c (k - 1 - d)) by lia.
    replace (S (k - 1 - d)) with (k - d) by lia. ring.
Qed.

(** The coefficients of P(x) = x (x - p_1) ... (x - p_{k-1}). *)
Lemma vdm_coeffs_spec :
  length p = k ->
  length (vdm_coeffs p k) = k /\
  rd (vdm_coeffs p k) 0 = x00 /\
  forall x, ev (vdm_coeffs p k) 1 x = linprod p (k - 1) x.
Proof.
  intros HLp. unfold vdm_coeffs. cbv zeta. fold coeff_pass.
  assert (E0 : upd (k - 1) (rd p 0) (repeat x00 k) = repeat x00 k).
  { apply (upd_same _ _ x00). rewrite Hp0. apply nth_repeat. }
  rewrite E0.
  change (for_range 1 k _ (repeat x00 k))
    with (for_range 1 k coeff_pass (repeat x00 k)).
  assert (G : length (for_range 1 k coeff_pass (repeat x00 k)) = k /\
    (forall j, j < k - (k - 1) -> rd (for_range 1 k coeff_pass (repeat x00 k)) j = x00) /\
    forall x, ev (for_range 1 k coeff_pass (repeat x00 k)) (k - (k - 1)) x =
              linprod p (k - 1) x).
  { apply (for_range_ind (fun i c => length c = k /\
      (forall j, j < k - (i - 1) -> rd c j = x00) /\
      forall x, ev c (k - (i - 1)) x = linprod p (i - 1) x)); [lia| |].
    - rewrite repeat_length. repeat split; auto.
      + intros j _. apply nth_repeat.
      + intros x. rewrite ev_end by (rewrite repeat_length; lia). reflexivity.
    - intros i c [Hi Hik] (HL & Hz & Hev).
      destruct (coeff_pass_spec i c Hi Hik HL) as [HL' H'].
      replace (S i - 1) with i by lia. repeat split; auto.
      + intros j Hj. rewrite H'.
        destruct (Nat.leb_spec (k - i) j); [lia|]. cbn [andb].
        destruct (Nat.eqb_spec j (k - 1)); [lia|]. apply Hz. lia.
      + intros x. pose proof (coeff_pass_ev i c x Hi Hik HL (i - 1)) as E.
        replace (k - 1 - (i - 1)) with (k - i) in E by lia.
        rewrite E by lia. rewrite (ev_step c (k - i)) by lia.
        replace (S (k - i)) with (k - (i - 1)) by lia.
        rewrite Hz, Hev by lia.
        destruct i as [|i']; [lia|]. cbn [linprod].
        replace (S i' - 1) with i' by lia. ring. }
  destruct G as (G1 & G2 & G3). replace (k - (k - 1)) with 1 in * by lia.
  repeat split; auto.
Qed.

End VdmCoeffs.

(** ** One row: synthetic division *)

Lemma vdm_row_spec (c b : list byte) (k : nat) (xx : byte) :
  1 <= k -> length c = k -> length b = k ->
  vdm_row c b k xx =
  (quot (c ++ [x01]) xx, peval (quot (c ++ [x01]) xx) xx).
Proof.
  intros Hk HLc HLb. unfold vdm_row. cbv zeta.
  set (cl := c ++ [x01]).
  assert (Hcl : length cl = S k) by (unfold cl; rewrite length_app; cbn; lia).
  set (body := fun (i : nat) '(b, t) => _).
  enough (G : let r := for_down (k - 1) body (upd (k - 1) x01 b, x01) in
              length (fst r) = k /\
              (forall m, 0 <= m < k -> rd (fst r) m = peval (skipn (S m) cl) xx) /\
              snd r = peval (skipn 0 (fst r)) xx).
  { cbv zeta in G. destruct (for_down (k - 1) body (upd (k - 1) x01 b, x01)) as [b' t'].
    cbn [fst snd] in G. destruct G as (G1 & G2 & G3).
    assert (Eb : b' = quot cl xx).
    { apply (list_ext _ _ x00).
      - rewrite quot_length, Hcl. lia.
      - intros m Hm. fold (rd b' m) (rd (quot cl xx) m).
        rewrite G2, nth_quot by lia. reflexivity. }
    rewrite G3. cbn [skipn]. now rewrite Eb. }
  apply (for_down_ind (fun i (r : list byte * byte) =>
    length (fst r) = k /\
    (forall m, i <= m < k -> rd (fst r) m = peval (skipn (S m) cl) xx) /\
    snd r = peval (skipn i (fst r)) xx)).
  - cbn [fst snd]. rewrite upd_length. repeat split; auto.
    + intros m Hm. assert (m = k - 1) by lia. subst m.
      rewrite rd_upd, Nat.eqb_refl, HLb.
      assert (Hlt : k - 1 < k) by lia. apply Nat.ltb_lt in Hlt. rewrite Hlt. cbn [andb].
      replace (S (k - 1)) with k by lia. unfold cl.
      rewrite skipn_app, skipn_all2, HLc, Nat.sub_diag by lia. cbn. ring.
    + rewrite (skipn_cons_nth x00 _ (k - 1)) by (rewrite upd_length; lia).
      rewrite skipn_all2 by (rewrite upd_length; lia).
      rewrite nth_upd_eq by lia. cbn. ring.
  - intros i [b' t'] Hi (G1 & G2 & G3). cbn [fst snd] in *. subst body. cbv beta iota.
    cbn [fst snd]. rewrite upd_length. repeat split; auto.
    + intros m Hm. rewrite rd_upd, G1.
      assert (Hlt : i < k) by lia. apply Nat.ltb_lt in Hlt. rewrite Hlt, andb_true_r.
      destruct (Nat.eqb_spec m i) as [->|Hne]; [|apply G2; lia].
      rewrite G2 by lia. replace (i + 1) with (S i) by lia.
      rewrite (skipn_cons_nth x00 cl (S i)) by lia. cbn [peval].
      f_equal. unfold cl. rewrite app_nth1 by lia. reflexivity.
    + rewrite (skipn_cons_nth x00 (upd i _ b') i) by (rewrite upd_length; lia).
      cbn [peval]. rewrite rd_upd, Nat.eqb_refl, G1.
      assert (Hlt : i < k) by lia. apply Nat.ltb_lt in Hlt. rewrite Hlt. cbn [andb].
      rewrite nth_upd_eq by lia.
      assert (Es : skipn (S i) (upd i (bxor (rd c (i + 1)) (gf_mul xx (rd b' (i + 1)))) b')
                   = skipn (S i) b').
      { apply (list_ext _ _ x00).
        - now rewrite !length_skipn, upd_length.
        - intros q _. rewrite !nth_skipn. apply nth_upd_neq. lia. }
      rewrite Es, G3. ring.
Qed.

(** ** The whole inversion *)

Section InvertVdm.
Variables (k : nat) (src : list byte).
Hypothesis Hk : 2 <= k.
Hypothesis Hsrc : k * k <= length src.

(** The evaluation points, read off the second column. *)
Definition vdm_points : list byte := map (fun i => rd src (1 + i * k)) (seq 0 k).

Lemma vdm_points_length : length vdm_points = k.
Proof. unfold vdm_points. now rewrite length_map, length_seq. Qed.

Lemma rd_vdm_points i : i < k -> rd vdm_points i = mx src k i 1.
Proof.
  intros Hi. unfold vdm_points, rd, mx.
  rewrite (nth_indep _ x00 (rd src (1 + 0 * k))) by now rewrite length_map, length_seq.
  rewrite (map_nth (fun i => rd src (1 + i * k))), seq_nth by auto.
  unfold rd. f_equal. lia.
Qed.

Lemma vdm_points_loop :
  for_loop k (fun i p => upd i (rd src (1 + i * k)) p) (repeat x00 k) = vdm_points.
Proof.
  assert (G : length (for_loop k (fun i p => upd i (rd src (1 + i * k)) p) (repeat x00 k)) = k
    /\ forall i, i < k ->
         rd (for_loop k (fun i p => upd i (rd src (1 + i * k)) p) (repeat x00 k)) i =
         rd src (1 + i * k)).
  { apply (for_loop_ind (fun t p => length p = k /\
      forall i, i < t -> rd p i = rd src (1 + i * k))).
    - split; [apply repeat_length|]. intros; lia.
    - intros t p Ht [HL H]. split; [now rewrite upd_length|].
      intros i Hi. rewrite rd_upd, HL. apply Nat.ltb_lt in Ht as Hlt.
      rewrite Hlt, andb_true_r. destruct (Nat.eqb_spec i t) as [->|]; auto.
      apply H. lia. }
  destruct G as [G1 G2]. apply (list_ext _ _ x00).
  - now rewrite vdm_points_length.
  - intros i Hi. rewrite G1 in Hi. fold (rd vdm_points i).
    rewrite rd_vdm_points by auto. unfold mx. rewrite Nat.add_comm. now apply G2.
Qed.

Hypothesis Hp0 : rd vdm_points 0 = x00.

Definition vdm_poly : list byte := vdm_coeffs vdm_points k ++ [x01].

(** The quotient of P by (x - p_row), and its value at p_row. *)
Definition vdm_quot (row : nat) : list byte := quot vdm_poly (rd vdm_points row).
Definition vdm_scale (row : nat) : byte := peval (vdm_quot row) (rd vdm_points row).

Lemma invert_vdm_spec :
  length (invert_vdm src k) = length src /\
  (forall col row, col < k -> row < k ->
     mx (invert_vdm src k) k col row =
     gf_mul (gf_inverse (vdm_scale row)) (rd (vdm_quot row) col)) /\
  (forall q, k * k <= q -> rd (invert_vdm src k) q = rd src q).
Proof.
  split; [apply invert_vdm_length|].
  unfold invert_vdm. destruct (Nat.eqb_spec k 1) as [|_]; [lia|].
  cbv zeta. rewrite vdm_points_loop.
  destruct (vdm_coeffs_spec k vdm_points Hk Hp0 vdm_points_length) as (HLc & _ & _).
  set (c := vdm_coeffs vdm_points k) in *.
  set (body := fun (row : nat) '(s, b) => _).
  enough (G : let r := for_loop k body (src, repeat x00 k) in
    length (snd r) = k /\ length (fst r) = length src /\
    (forall col row, col < k -> row < k ->
       mx (fst r) k col row =
       if row <? k then gf_mul (gf_inverse (vdm_scale row)) (rd (vdm_quot row) col)
       else mx src k col row) /\
    (forall q, k * k <= q -> rd (fst r) q = rd src q)).
  { cbv zeta in G. destruct G as (_ & _ & G3 & G4). split; auto.
    intros col row Hc Hr. rewrite G3 by auto. apply Nat.ltb_lt in Hr. now rewrite Hr. }
  apply (for_loop_ind (fun t (r : list byte * list byte) =>
    length (snd r) = k /\ length (fst r) = length src /\
    (forall col row, col < k -> row < k ->
       mx (fst r) k col row =
       if row <? t then gf_mul (gf_inverse (vdm_scale row)) (rd (vdm_quot row) col)
       else mx src k col row) /\
    (forall q, k * k <= q -> rd (fst r) q = rd src q))).
  - cbn [fst snd]. rewrite repeat_length. repeat split; auto.
  - intros t [s b] Ht (HLb & HLs & Hs & Hq). cbn [fst snd] in *.
    subst body. cbv beta iota.
    rewrite (vdm_row_spec c b k (rd vdm_points t)) by (auto; lia).
    fold vdm_poly. fold (vdm_quot t). fold (vdm_scale t). cbn [fst snd].
    split; [now rewrite quot_length; unfold vdm_poly; rewrite length_app, HLc; cbn; lia|].
    set (w := fun col => gf_mul (gf_inverse (vdm_scale t)) (rd (vdm_quot t) col)).
    assert (G : length (for_loop k (fun col s => upd (col * k + t) (w col) s) s) = length src /\
      (forall col row, col < k -> row < k ->
         mx (for_loop k (fun col s => upd (col * k + t) (w col) s) s) k col row =
         if (row =? t) && (col <? k) then w col else mx s k col row) /\
      (forall q, k * k <= q ->
         rd (for_loop k (fun col s => upd (col * k + t) (w col) s) s) q = rd s q)).
    { apply (for_loop_ind (fun u s' => length s' = length src /\
        (forall col row, col < k -> row < k ->
           mx s' k col row = if (row =? t) && (col <? u) then w col else mx s k col row) /\
        (forall q, k * k <= q -> rd s' q = rd s q))).
      - repeat split; auto. intros col row _ _. now rewrite andb_false_r.
      - intros u s' Hu (HL' & H' & Hq'). split; [now rewrite upd_length|]. split.
        + intros col row Hc Hr. unfold mx at 1.
          rewrite rd_upd, idx_eqb by auto.
          assert (Hlt : u * k + t < length s') by (pose proof (idx_lt k k u t Hu Ht); lia).
          apply Nat.ltb_lt in Hlt. rewrite Hlt, andb_true_r.
          fold (mx s' k col row). rewrite H' by auto.
          destruct (Nat.eqb_spec col u) as [->|Hne]; cbn [andb].
          * destruct (Nat.eqb_spec row t) as [->|Hrt]; cbn [andb].
            -- destruct (Nat.ltb_spec u (S u)); [reflexivity|lia].
            -- reflexivity.
          * destruct (Nat.eqb_spec row t); cbn [andb]; auto.
            destruct (Nat.ltb_spec col u), (Nat.ltb_spec col (S u)); auto; lia.
        + intros q Hq0. rewrite rd_upd, Hq' by auto.
          destruct (Nat.eqb_spec q (u * k + t)) as [->|]; auto.
          pose proof (idx_lt k k u t Hu Ht). lia. }
    destruct G as (G1 & G2 & G3). repeat split; auto.
    + intros col row Hc Hr. rewrite G2, Hs by auto.
      apply Nat.ltb_lt in Hc as Hc'. rewrite Hc', andb_true_r.
      destruct (Nat.eqb_spec row t) as [->|Hrt].
      * destruct (Nat.ltb_spec t (S t)); [reflexivity|lia].
      * destruct (Nat.ltb_spec row t), (Nat.ltb_spec row (S t)); auto; lia.
    + intros q Hq0. now rewrite G3, Hq.
Qed.

(** The matrix is Vandermonde on pairwise distinct points. *)
Hypothesis Hvdm : forall i j, i < k -> j < k ->
  mx src k i j = gf_pow (rd vdm_points i) j.
Hypothesis Hdistinct : NoDup vdm_points.

Lemma vdm_poly_length : length vdm_poly = S k.
Proof.
  destruct (vdm_coeffs_spec k vdm_points Hk Hp0 vdm_points_length) as (HLc & _ & _).
  unfold vdm_poly. rewrite length_app, HLc. cbn. lia.
Qed.

Lemma vdm_poly_root i : i < k -> peval vdm_poly (rd vdm_points i) = x00.
Proof.
  intros Hi.
  destruct (vdm_coeffs_spec k vdm_points Hk Hp0 vdm_points_length) as (HLc & Hc0 & Hev).
  change (peval vdm_poly (rd vdm_points i))
    with (ev (vdm_coeffs vdm_points k) 0 (rd vdm_points i)).
  rewrite ev_step, Hc0, Hev by lia.
  destruct i as [|i]; [rewrite Hp0; ring|].
  rewrite linprod_root by lia. ring.
Qed.

Lemma vdm_quot_length row : length (vdm_quot row) = k.
Proof. unfold vdm_quot. rewrite quot_length, vdm_poly_length. lia. Qed.

Lemma vdm_quot_root i row :
  i < k -> row < k -> i <> row -> peval (vdm_quot row) (rd vdm_points i) = x00.
Proof.
  intros Hi Hr Hne.
  pose proof (quot_spec vdm_poly (rd vdm_points row) (rd vdm_points i)) as E.
  rewrite !vdm_poly_root in E by auto. fold (vdm_quot row) in E.
  assert (E' : gf_mul (bxor (rd vdm_points i) (rd vdm_points row))
                      (peval (vdm_quot row) (rd vdm_points i)) = x00)
    by (rewrite <- E; reflexivity).
  destruct (gf_mul_eq_0 _ _ E') as [H|H]; [|exact H].
  apply (proj1 (bxor_eq_0 _ _)) in H. exfalso. apply Hne.
  apply (proj1 (NoDup_nth vdm_points x00) Hdistinct); rewrite ?vdm_points_length; auto.
Qed.

Lemma vdm_scale_nonzero row : row < k -> vdm_scale row <> x00.
Proof.
  intros Hr Hz.
  assert (Hall : all_zero (vdm_quot row)).
  { apply (roots_bound vdm_points Hdistinct).
    - now rewrite vdm_quot_length, vdm_points_length.
    - intros a Ha. destruct (In_nth _ _ x00 Ha) as (i & Hi & <-).
      rewrite vdm_points_length in Hi. fold (rd vdm_points i).
      destruct (Nat.eq_dec i row) as [->|Hne]; [exact Hz|].
      now apply vdm_quot_root. }
  assert (H1 : rd (vdm_quot row) (k - 1) = x01).
  { unfold vdm_quot. rewrite nth_quot by (rewrite vdm_poly_length; lia).
    replace (S (k - 1)) with k by lia. unfold vdm_poly.
    destruct (vdm_coeffs_spec k vdm_points Hk Hp0 vdm_points_length) as (HLc & _ & _).
    rewrite skipn_app, skipn_all2, HLc, Nat.sub_diag by lia. cbn. ring. }
  assert (H0 : rd (vdm_quot row) (k - 1) = x00).
  { apply Hall. apply nth_In. rewrite vdm_quot_length. lia. }
  rewrite H1 in H0. discriminate.
Qed.

(** The result is a right inverse of the Vandermonde matrix. *)
Lemma invert_vdm_right_inverse i row :
  i < k -> row < k ->
  gf_sum k (fun col => gf_mul (mx src k i col) (mx (invert_vdm src k) k col row)) =
  delta i row.
Proof.
  intros Hi Hr. destruct invert_vdm_spec as (_ & HW & _).
  rewrite (gf_sum_ext k _ (fun col =>
     gf_mul (gf_inverse (vdm_scale row))
            (gf_mul (rd (vdm_quot row) col) (gf_pow (rd vdm_points i) col)))).
  2: { intros col Hc. rewrite HW, Hvdm by auto. ring. }
  rewrite gf_sum_scale. rewrite <- (vdm_quot_length row) at 1.
  rewrite <- peval_sum. unfold delta.
  destruct (Nat.eqb_spec i row) as [->|Hne].
  - fold (vdm_scale row). apply gf_mul_inverse. now apply vdm_scale_nonzero.
  - rewrite vdm_quot_root by auto. ring.
Qed.

End InvertVdm.


(** * Part XIV: the generator matrix and the round trip *)

(** The evaluation point of row [r] of the Vandermonde matrix. *)
Definition pt (r : nat) : byte := if r =? 0 then x00 else gf_exp (r - 1).

Lemma vdm_entry_pow (r t : nat) : r <= 255 -> vdm_entry r t = gf_pow (pt r) t.
Proof.
  intros Hr. unfold vdm_entry, pt. destruct (Nat.eqb_spec r 0) as [->|Hne].
  - now rewrite gf_pow_0.
  - rewrite gf_pow_exp by lia. reflexivity.
Qed.

Lemma pt_inj (r r' : nat) : r <= 255 -> r' <= 255 -> pt r = pt r' -> r = r'.
Proof.
  intros Hr Hr' E. unfold pt in E.
  destruct (Nat.eqb_spec r 0) as [->|Hn], (Nat.eqb_spec r' 0) as [->|Hn']; auto.
  - symmetry in E. apply exp_nonzero in E; [contradiction|lia].
  - apply exp_nonzero in E; [contradiction|lia].
  - assert (E' : gf_log (gf_exp (r - 1)) = gf_log (gf_exp (r' - 1))) by now rewrite E.
    rewrite !log_exp in E' by lia. lia.
Qed.

Section Generator.
Variables (k n : nat) (T : list byte).
Hypothesis Hk : 1 <= k.
Hypothesis Hkn : k <= n.
Hypothesis Hn : n <= 256.
Hypothesis HT : vdm_rows k n n T.

Let W := invert_vdm T k.

Lemma T_length : length T = n * k.
Proof. apply HT. Qed.

Lemma T_entry i j : i < n -> j < k -> mx T k i j = gf_pow (pt i) j.
Proof.
  intros Hi Hj. destruct HT as [_ H]. rewrite H by auto. apply vdm_entry_pow. lia.
Qed.

Lemma kk_le : k * k <= n * k.
Proof. apply Nat.mul_le_mono_r. lia. Qed.

Lemma T_big : k * k <= length T.
Proof. rewrite T_length. apply kk_le. Qed.

Lemma T_points i : 2 <= k -> i < k -> rd (vdm_points k T) i = pt i.
Proof.
  intros H2 Hi. rewrite rd_vdm_points by (auto using T_big).
  rewrite T_entry by lia. cbn. ring.
Qed.

Lemma T_points_nodup : 2 <= k -> NoDup (vdm_points k T).
Proof.
  intros H2. apply (NoDup_nth _ x00). rewrite vdm_points_length.
  intros i j Hi Hj E. fold (rd (vdm_points k T) i) (rd (vdm_points k T) j) in E.
  rewrite !T_points in E by auto. apply pt_inj in E; lia.
Qed.

(** [invert_vdm] inverts the top block of the matrix. *)
Lemma vdm_top_inverse i row :
  i < k -> row < k ->
  gf_sum k (fun col => gf_mul (mx T k i col) (mx W k col row)) = delta i row.
Proof.
  intros Hi Hr. destruct (Nat.eq_dec k 1) as [Hk1|Hk1].
  - subst W. assert (i = 0) by lia. assert (row = 0) by lia. subst i row.
    assert (E : mx T k 0 0 = x01) by (rewrite T_entry by lia; reflexivity).
    rewrite Hk1 in E |- *. cbn [invert_vdm Nat.eqb].
    rewrite gf_sum_S, gf_sum_0, E. reflexivity.
  - apply invert_vdm_right_inverse; auto; try lia.
    + apply T_big.
    + rewrite T_points by lia. reflexivity.
    + intros a b Ha Hb. rewrite T_points by lia. apply T_entry; lia.
    + apply T_points_nodup. lia.
Qed.

Lemma W_length : length W = n * k.
Proof. subst W. rewrite invert_vdm_length. apply T_length. Qed.

Lemma W_bottom r t : k <= r -> r < n -> t < k -> mx W k r t = mx T k r t.
Proof.
  intros Hr Hrn Ht. destruct (Nat.eq_dec k 1) as [Hk1|Hk1].
  - subst W. rewrite Hk1. reflexivity.
  - destruct (invert_vdm_spec k T) as (_ & _ & H); try lia.
    + apply T_big.
    + rewrite T_points by lia. reflexivity.
    + unfold mx. apply H.
      assert (k * k <= r * k) by (apply Nat.mul_le_mono_r; lia). lia.
Qed.

(** The stored encoding matrix is V W, V the Vandermonde matrix. *)
Definition generator (enc : list byte) : Prop :=
  length enc = n * k /\
  forall r j, r < n -> j < k ->
    mx enc k r j = gf_sum k (fun t => gf_mul (gf_pow (pt r) t) (mx W k t j)).

Lemma generator_top (enc : list byte) r j :
  generator enc -> r < k -> j < k -> mx enc k r j = delta r j.
Proof.
  intros [_ H] Hr Hj. rewrite H by (auto; lia).
  rewrite <- (vdm_top_inverse r j Hr Hj). apply gf_sum_ext. intros t Ht.
  rewrite T_entry by lia. reflexivity.
Qed.

Lemma create_generator (enc : list byte) :
  length enc = n * k ->
  (forall q, rd enc q =
     if q <? k * k then (if q mod (k + 1) =? 0 then x01 else x00)
     else rd (parity_part k n T) q) ->
  generator enc.
Proof.
  intros HL Hq. split; auto. intros r j Hr Hj.
  destruct (Nat.lt_ge_cases r k) as [Hrk|Hrk].
  - unfold mx. rewrite Hq.
    assert (Hlt : r * k + j < k * k) by now apply idx_lt.
    apply Nat.ltb_lt in Hlt. rewrite Hlt, diag_mod by auto.
    change (if r =? j then x01 else x00) with (delta r j).
    rewrite <- (vdm_top_inverse r j Hrk Hj). apply gf_sum_ext. intros t Ht.
    rewrite T_entry by lia. reflexivity.
  - unfold mx. rewrite Hq.
    assert (Hkk : k * k <= r * k) by (apply Nat.mul_le_mono_r; lia).
    destruct (Nat.ltb_spec (r * k + j) (k * k)); [lia|].
    unfold parity_part. fold W. pose proof kk_le as Hle.
    unfold rd at 1. rewrite app_nth2; rewrite length_firstn, repeat_length; [|lia].
    replace (r * k + j - Nat.min (k * k) (n * k)) with ((r - k) * k + j)
      by (rewrite Nat.mul_sub_distr_r; lia).
    assert (Hs : length (skipn (k * k) (repeat x00 (n * k))) = (n - k) * k).
    { rewrite length_skipn, repeat_length, Nat.mul_sub_distr_r. reflexivity. }
    destruct (matmul_spec (skipn (k * k) W) W (skipn (k * k) (repeat x00 (n * k)))
                (n - k) k k Hs) as [_ Hm].
    fold (rd (matmul (skipn (k * k) W) W (skipn (k * k) (repeat x00 (n * k))) (n - k) k k)
             ((r - k) * k + j)).
    rewrite Hm by lia. apply gf_sum_ext. intros t Ht.
    unfold rd at 1. rewrite nth_skipn.
    replace (k * k + ((r - k) * k + t)) with (r * k + t)
      by (rewrite Nat.mul_sub_distr_r; lia).
    fold (rd W (r * k + t)). fold (mx W k r t).
    rewrite W_bottom, T_entry by lia.
    unfold mx. now rewrite (Nat.add_comm j).
Qed.

(** Any k rows of the generator with distinct indices form a
    non-singular matrix. *)
Lemma generator_rows_nonsingular (enc D : list byte) (sel : nat -> nat) :
  generator enc ->
  (forall p, p < k -> sel p < n) ->
  (forall p q, p < k -> q < k -> sel p = sel q -> p = q) ->
  (forall p j, p < k -> j < k -> mx D k p j = mx enc k (sel p) j) ->
  nonsingular D k.
Proof.
  intros Hgen Hsel Hinj HD x HLx Hx.
  set (y := map (fun t => gf_sum k (fun j => gf_mul (mx W k t j) (rd x j))) (seq 0 k)).
  assert (HLy : length y = k) by (unfold y; now rewrite length_map, length_seq).
  assert (Hy : forall t, t < k ->
            rd y t = gf_sum k (fun j => gf_mul (mx W k t j) (rd x j))).
  { intros t Ht. unfold y, rd.
    rewrite (nth_indep _ x00 (gf_sum k (fun j => gf_mul (mx W k 0 j) (nth j x x00))))
      by now rewrite length_map, length_seq.
    rewrite (map_nth (fun t => gf_sum k (fun j => gf_mul (mx W k t j) (nth j x x00)))).
    now rewrite seq_nth. }
  (* the value of y at the point of row r is (V W x)_r *)
  assert (Hval : forall r, r < n ->
            peval y (pt r) =
            gf_sum k (fun j => gf_mul (mx enc k r j) (rd x j))).
  { intros r Hr. rewrite peval_sum, HLy.
    rewrite (gf_sum_ext k _ (fun t => gf_sum k (fun j =>
               gf_mul (gf_mul (gf_pow (pt r) t) (mx W k t j)) (rd x j)))).
    - rewrite gf_sum_exchange. apply gf_sum_ext. intros j Hj.
      destruct Hgen as [_ Hg]. rewrite Hg by auto. now rewrite gf_sum_scale_r.
    - intros t Ht. rewrite Hy by auto. rewrite gf_mul_comm, <- gf_sum_scale.
      apply gf_sum_ext. intros j Hj. ring. }
  assert (Hzero : all_zero y).
  { apply (roots_bound (map (fun p => pt (sel p)) (seq 0 k))).
    - apply (NoDup_nth _ x00). rewrite length_map, length_seq. intros a b Ha Hb E.
      rewrite !(nth_indep _ x00 (pt (sel 0))) in E by now rewrite length_map, length_seq.
      rewrite !(map_nth (fun p => pt (sel p))), !seq_nth in E by auto. cbn in E.
      apply pt_inj in E.
      + now apply Hinj.
      + pose proof (Hsel a Ha). lia.
      + pose proof (Hsel b Hb). lia.
    - rewrite length_map, length_seq. lia.
    - intros a Ha. apply in_map_iff in Ha. destruct Ha as (p & <- & Hp).
      apply in_seq in Hp. rewrite Hval by (apply Hsel; lia).
      rewrite <- (Hx p) by lia. apply gf_sum_ext. intros j Hj.
      rewrite HD by (auto; lia). reflexivity. }
  intros i Hi.
  assert (E : gf_sum k (fun j => gf_mul (delta i j) (rd x j)) = rd x i).
  { rewrite (gf_sum_single k i); auto.
    - unfold delta. rewrite Nat.eqb_refl. ring.
    - intros j Hj Hne. unfold delta. destruct (Nat.eqb_spec i j); [lia|ring]. }
  rewrite <- E.
  rewrite (gf_sum_ext k _ (fun j => gf_mul (mx enc k i j) (rd x j)))
    by (intros j Hj; now rewrite (generator_top enc i j)).
  rewrite <- Hval by lia. rewrite peval_sum, HLy.
  apply gf_sum_zero. intros t Ht.
  rewrite (Hzero (rd y t)); [ring|]. apply nth_In. lia.
Qed.

End Generator.

(** ** [addmul_k] *)

Lemma addmul_k_spec (dst : list byte) (srcs : list (list byte)) (cs : list byte)
  (size k : nat) :
  size <= length dst ->
  length (addmul_k dst srcs cs size k) = length dst /\
  forall j, rd (addmul_k dst srcs cs size k) j =
    if j <? size
    then bxor (rd dst j)
              (gf_sum k (fun i => gf_mul (rd cs i) (rd (nth i srcs []) j)))
    else rd dst j.
Proof.
  intros Hsz. unfold addmul_k.
  apply (for_loop_ind (fun t d =>
    length d = length dst /\
    forall j, rd d j =
      if j <? size
      then bxor (rd dst j)
                (gf_sum t (fun i => gf_mul (rd cs i) (rd (nth i srcs []) j)))
      else rd dst j)).
  - split; auto. intros j. rewrite gf_sum_0. destruct (j <? size); [ring|auto].
  - intros t d Ht [HL Hd]. cbv beta zeta.
    destruct (is_zero (rd cs t)) eqn:Ez.
    + apply is_zero_true in Ez. split; auto. intros j.
      rewrite Hd, gf_sum_S, Ez. destruct (j <? size); auto. ring.
    + assert (Hin :
        length (for_loop size (fun j dst0 =>
                  xor_at dst0 j (gf_mul_table (rd cs t) (rd (nth t srcs []) j))) d)
          = length dst /\
        forall j, rd (for_loop size (fun j dst0 =>
                  xor_at dst0 j (gf_mul_table (rd cs t) (rd (nth t srcs []) j))) d) j =
          if j <? size
          then bxor (rd d j) (gf_mul (rd cs t) (rd (nth t srcs []) j))
          else rd d j).
      { assert (Hu : size <= size) by lia. revert Hu. generalize size at 1 3 4 5.
        intros u Hu.
        apply (for_loop_ind (fun u d' =>
          length d' = length dst /\
          forall j, rd d' j =
            if j <? u
            then bxor (rd d j) (gf_mul (rd cs t) (rd (nth t srcs []) j))
            else rd d j)).
        - split; auto.
        - intros j d' Hj [HL' Hd']. split.
          + now rewrite xor_at_length.
          + intros q. rewrite rd_xor_at, HL'.
            destruct (Nat.eqb_spec q j) as [->|Hq]; cbn [andb].
            * destruct (Nat.ltb_spec j (length dst)); [|lia].
              rewrite Hd'. destruct (Nat.ltb_spec j j); [lia|].
              destruct (Nat.ltb_spec j (S j)); [|lia]. reflexivity.
            * rewrite Hd'. destruct (Nat.ltb_spec q j), (Nat.ltb_spec q (S j));
                try lia; reflexivity. }
      destruct Hin as [HLi Hrd]. split; auto. intros j.
      rewrite Hrd, Hd, gf_sum_S. destruct (j <? size); auto. ring.
Qed.

Lemma memcpy_full (dst src : list byte) (n : nat) :
  length dst = n -> length src = n -> memcpy dst src n = src.
Proof.
  intros H1 H2. unfold memcpy. rewrite <- H2 at 1. rewrite firstn_all.
  rewrite skipn_all2 by lia. apply app_nil_r.
Qed.

Lemma rd_skipn (v : list byte) (p i : nat) : rd (skipn p v) i = rd v (p + i).
Proof. unfold rd. apply nth_skipn. Qed.

(** Encoding the shards at the indices of [I], in order. *)
Fixpoint encode_all (code : fec_code.t) (S : list shard) (I : list nat) (sz : nat)
  : result (list shard) :=
  match I with
  | [] => Ok []
  | index :: rest =>
    fec <- fec_code.encode code S (repeat x00 sz) index sz ;;
    others <- encode_all code S rest sz ;;
    Ok (fec :: others)
  end.

(** Construct, encode at the indices [I], decode. *)
Definition roundtrip (k n sz : nat) (S : list shard) (I : list nat)
  : result (list shard * list nat) :=
  code <- fec_code.create k n ;;
  pkt <- encode_all code S I sz ;;
  fec_code.decode code pkt I sz.

(** ** Encoding and decoding over a systematic MDS generator *)

Section RoundTrip.
Variables (k n : nat) (enc : list byte) (S : list shard) (sz : nat).
Hypothesis Henc : length enc = n * k.
Hypothesis Htop : forall r j, r < k -> j < k -> mx enc k r j = delta r j.
Hypothesis Hns : forall (D : list byte) (sel : nat -> nat),
  (forall p, p < k -> sel p < n) ->
  (forall p q, p < k -> q < k -> sel p = sel q -> p = q) ->
  (forall p j, p < k -> j < k -> mx D k p j = mx enc k (sel p) j) ->
  nonsingular D k.
Hypothesis HS : length S = k.
Hypothesis HSz : forall i, i < k -> length (nth i S []) = sz.

Let code := fec_code.mk k n enc.

(** [shard] is the encoding of [S] at index [idx]. *)
Definition coded (idx : nat) (shard : list byte) : Prop :=
  length shard = sz /\
  forall j, j < sz ->
    rd shard j = gf_sum k (fun i => gf_mul (mx enc k idx i) (rd (nth i S []) j)).

Lemma delta_sum (r : nat) (f : nat -> byte) :
  r < k -> gf_sum k (fun i => gf_mul (delta r i) (f i)) = f r.
Proof.
  intros Hr. rewrite (gf_sum_single k r); auto.
  - unfold delta. rewrite Nat.eqb_refl. ring.
  - intros i Hi Hne. unfold delta. destruct (Nat.eqb_spec r i); [lia|ring].
Qed.

Lemma coded_source (idx : nat) (shard : list byte) :
  idx < k -> coded idx shard -> shard = nth idx S [].
Proof.
  intros Hi [HL Hrd]. apply (list_ext _ _ x00).
  - rewrite HSz; auto.
  - intros j Hj. rewrite HL in Hj. fold (rd shard j). rewrite Hrd by auto.
    rewrite (gf_sum_ext k _ (fun i => gf_mul (delta idx i) (rd (nth i S []) j)))
      by (intros i Hik; now rewrite Htop).
    now rewrite delta_sum.
Qed.

Lemma encode_coded (idx : nat) :
  idx < n ->
  exists fec, fec_code.encode code S (repeat x00 sz) idx sz = Ok fec /\ coded idx fec.
Proof.
  intros Hi. unfold fec_code.encode. cbn [fec_code.n fec_code.k fec_code.enc_matrix code].
  destruct (Nat.leb_spec n idx); [lia|].
  destruct (Nat.ltb_spec idx k) as [Hk|Hk].
  - eexists. split; [reflexivity|].
    rewrite memcpy_full by (rewrite ?repeat_length, ?HSz; auto).
    split; [now apply HSz|]. intros j Hj.
    rewrite (gf_sum_ext k _ (fun i => gf_mul (delta idx i) (rd (nth i S []) j)))
      by (intros i Hik; now rewrite Htop).
    now rewrite delta_sum.
  - eexists. split; [reflexivity|].
    assert (Hm : sz <= length (memset (repeat x00 sz) x00 sz))
      by (rewrite memset_length; rewrite repeat_length; lia).
    destruct (addmul_k_spec (memset (repeat x00 sz) x00 sz) S
                (skipn (idx * k) enc) sz k Hm) as [HL Hrd].
    split.
    + rewrite HL, memset_length; rewrite repeat_length; lia.
    + intros j Hj. rewrite Hrd. destruct (Nat.ltb_spec j sz); [|lia].
      rewrite rd_memset. destruct (Nat.ltb_spec j sz); [|lia].
      rewrite bxor_0_l. apply gf_sum_ext. intros i Hik. now rewrite rd_skipn.
Qed.

Lemma encode_all_coded (I : list nat) :
  (forall i, In i I -> i < n) ->
  exists pkt, encode_all code S I sz = Ok pkt /\ length pkt = length I /\
    forall p, p < length I -> coded (nth p I 0) (nth p pkt []).
Proof.
  induction I as [|idx I IH]; intros HI.
  - exists []. split; [reflexivity|]. split; [reflexivity|].
    intros p Hp. cbn in Hp. lia.
  - destruct (encode_coded idx) as (fec & E & Hc); [apply HI; now left|].
    destruct IH as (pkt & E' & HL & Hp); [intros; apply HI; now right|].
    exists (fec :: pkt). cbn [encode_all]. rewrite E. cbn [bind]. rewrite E'. cbn [bind].
    split; [reflexivity|]. split; [cbn; lia|].
    intros p Hlt. destruct p as [|p]; cbn [nth]; [exact Hc|].
    apply Hp. cbn in Hlt. lia.
Qed.

(** Decoding k encoded shards with distinct indices gives back the
    sources. *)
Lemma decode_coded (pkt : list shard) (index : list nat) :
  length index = k -> length pkt = k -> NoDup index ->
  (forall i, In i index -> i < n) ->
  (forall p, p < k -> coded (nth p index 0) (nth p pkt [])) ->
  exists index1,
    fec_code.decode code pkt index sz = Ok (S, index1) /\ Permutation index index1.
Proof.
  intros HL HLp Hnd Hin Hc.
  destruct (decode_cases_rel coded code pkt index sz HL HLp Hc)
    as (r & pkt1 & index1 & _ & HL1 & HLp1 & HP & HR1 & Hcase).
  cbn [fec_code.n fec_code.k fec_code.enc_matrix code] in *.
  destruct Hcase as [(_ & (a & b & v & Hab & Hb & Ea & Eb & _) & _)
                    |(_ & _ & Hpl & Edec)].
  { exfalso. rewrite <- Eb in Ea. apply (proj1 (NoDup_nth index 0) Hnd) in Ea; lia. }
  assert (Hnd1 : NoDup index1) by (eapply Permutation_NoDup; eauto).
  assert (Hidx1 : forall i, i < k -> nth i index1 0 < n).
  { intros i Hi. apply Hin. apply (Permutation_in _ (Permutation_sym HP)).
    apply nth_In. lia. }
  destruct (build_decode_matrix_spec k n enc Henc index1 Hidx1) as (D & ED & HLD & HD).
  assert (HDe : forall p j, p < k -> j < k -> mx D k p j = mx enc k (nth p index1 0) j).
  { intros p j Hp Hj. rewrite HD by auto.
    destruct (Nat.ltb_spec (nth p index1 0) k) as [Hlt|Hge]; auto.
    destruct (Hpl p Hp) as [F|F]; [lia|]. rewrite F. symmetry. now apply Htop. }
  destruct (invert_mat_spec k D HLD) as [(B & EB & HLB & _ & HBD)|[_ (x & Hx)]].
  2:{ exfalso. apply (kernel_vector_singular D k x Hx).
      apply (Hns D (fun p => nth p index1 0)); auto.
      intros p q Hp Hq E. apply (proj1 (NoDup_nth index1 0) Hnd1); auto; lia. }
  exists index1. split; auto. rewrite Edec, ED, EB. cbn [bind]. cbv zeta.
  f_equal. f_equal.
  assert (Hnp0 : forall t, t <= k ->
    length (for_loop t (fun row new_pkt =>
               if k <=? nth row index1 0
               then upd row (addmul_k (repeat x00 sz) pkt1 (skipn (row * k) B) sz k) new_pkt
               else new_pkt) (repeat [] k)) = k /\
    forall row, row < t -> k <= nth row index1 0 ->
      nth row (for_loop t (fun row new_pkt =>
               if k <=? nth row index1 0
               then upd row (addmul_k (repeat x00 sz) pkt1 (skipn (row * k) B) sz k) new_pkt
               else new_pkt) (repeat [] k)) [] =
      addmul_k (repeat x00 sz) pkt1 (skipn (row * k) B) sz k).
  { intros t Ht.
    apply (for_loop_ind (fun t (np : list shard) =>
      length np = k /\
      forall row, row < t -> k <= nth row index1 0 ->
        nth row np [] = addmul_k (repeat x00 sz) pkt1 (skipn (row * k) B) sz k)).
    - split; [apply repeat_length|]. intros; lia.
    - intros i np Hi [HLn Hn]. cbv beta.
      destruct (Nat.leb_spec k (nth i index1 0)) as [Hge|Hlt].
      + split; [now rewrite upd_length|]. intros row Hrow Hk.
        rewrite nth_upd, HLn. destruct (Nat.eqb_spec row i) as [->|Hne]; cbn [andb].
        * destruct (Nat.ltb_spec i k); [reflexivity|lia].
        * apply Hn; auto. lia.
      + split; auto. intros row Hrow Hk.
        destruct (Nat.eq_dec row i) as [->|Hne]; [lia|]. apply Hn; auto. lia. }
  pose proof (Hnp0 k (Nat.le_refl k)) as Hnp. clear Hnp0.
  set (np := for_loop k (fun row new_pkt =>
               if k <=? nth row index1 0
               then upd row (addmul_k (repeat x00 sz) pkt1 (skipn (row * k) B) sz k) new_pkt
               else new_pkt) (repeat [] k)) in *.
  destruct Hnp as [HLnp Hnp].
  assert (Hfin : forall t, t <= k ->
    length (for_loop t (fun row pkt0 =>
              if k <=? nth row index1 0
              then upd row (memcpy (nth row pkt0 []) (nth row np []) sz) pkt0
              else pkt0) pkt1) = k /\
    forall row,
      nth row (for_loop t (fun row pkt0 =>
              if k <=? nth row index1 0
              then upd row (memcpy (nth row pkt0 []) (nth row np []) sz) pkt0
              else pkt0) pkt1) [] =
      if (row <? t) && (k <=? nth row index1 0)
      then memcpy (nth row pkt1 []) (nth row np []) sz
      else nth row pkt1 []).
  { intros t Ht.
    apply (for_loop_ind (fun t (p2 : list shard) =>
      length p2 = k /\
      forall row, nth row p2 [] =
        if (row <? t) && (k <=? nth row index1 0)
        then memcpy (nth row pkt1 []) (nth row np []) sz
        else nth row pkt1 [])).
    - split; auto.
    - intros i p2 Hi [HL2 H2]. cbv beta.
      destruct (Nat.leb_spec k (nth i index1 0)) as [Hge|Hlt].
      + split; [now rewrite upd_length|]. intros row.
        rewrite nth_upd, HL2. destruct (Nat.eqb_spec row i) as [->|Hne]; cbn [andb].
        * destruct (Nat.ltb_spec i k); [|lia].
          destruct (Nat.ltb_spec i (Datatypes.S i)); [|lia].
          destruct (Nat.leb_spec k (nth i index1 0)); [|lia]. cbn [andb].
          rewrite H2. destruct (Nat.ltb_spec i i); [lia|]. reflexivity.
        * rewrite H2. destruct (Nat.ltb_spec row i), (Nat.ltb_spec row (Datatypes.S i));
            try lia; reflexivity.
      + split; auto. intros row. rewrite H2.
        destruct (Nat.eq_dec row i) as [->|Hne].
        * destruct (Nat.leb_spec k (nth i index1 0)); [lia|].
          now rewrite !andb_false_r.
        * destruct (Nat.ltb_spec row i), (Nat.ltb_spec row (Datatypes.S i));
            try lia; reflexivity. }
  destruct (Hfin k (Nat.le_refl k)) as [HLf Hf].
  apply (list_ext _ _ []); [rewrite HLf; symmetry; exact HS|].
  rewrite HLf. intros row Hrow. rewrite Hf.
  destruct (Nat.ltb_spec row k); [|lia]. cbn [andb].
  destruct (HR1 row Hrow) as [HLr Hrd].
  destruct (Nat.leb_spec k (nth row index1 0)) as [Hge|Hlt].
  - rewrite Hnp by auto.
    destruct (addmul_k_spec (repeat x00 sz) pkt1 (skipn (row * k) B) sz k) as [HLa Ha];
      [rewrite repeat_length; lia|].
    rewrite repeat_length in HLa.
    rewrite memcpy_full by auto.
    apply (list_ext _ _ x00); [rewrite HLa, HSz; auto|].
    rewrite HLa. intros j Hj.
    fold (rd (addmul_k (repeat x00 sz) pkt1 (skipn (row * k) B) sz k) j).
    rewrite Ha. destruct (Nat.ltb_spec j sz); [|lia].
    unfold rd at 1. rewrite nth_repeat. rewrite bxor_0_l.
    rewrite (gf_sum_ext k _ (fun c => gf_sum k (fun i =>
       gf_mul (gf_mul (mx B k row c) (mx D k c i)) (rd (nth i S []) j)))).
    + rewrite gf_sum_exchange.
      rewrite (gf_sum_ext k _ (fun i => gf_mul (delta row i) (rd (nth i S []) j))).
      * now rewrite delta_sum.
      * intros i Hi. rewrite gf_sum_scale_r. now rewrite HBD.
    + intros c Hcl. rewrite rd_skipn. fold (mx B k row c).
      destruct (HR1 c Hcl) as [_ Hrc]. rewrite Hrc by auto.
      rewrite <- gf_sum_scale. apply gf_sum_ext. intros i Hi.
      rewrite HDe by auto. ring.
  - destruct (Hpl row Hrow) as [F|F]; [lia|].
    apply coded_source; auto. rewrite <- F at 1. split; auto.
Qed.

End RoundTrip.


(** * Part XV: the properties of the specification *)

(** ** C4 *)

(** C4.  Gauss-Jordan inversion is correct: for every k >= 1 and every
    non-singular k x k matrix M, [invert_mat M k] returns without error
    a matrix M' such that [matmul M M'] is the k x k identity (whatever
    the destination buffer held before). *)
Theorem invert_mat_correct (k : nat) (M c : list byte) :
  1 <= k -> length M = k * k -> length c = k * k -> nonsingular M k ->
  exists M', invert_mat M k = Ok M' /\ length M' = k * k /\
             matmul M M' c k k k = identity k.
Proof.
  intros Hk HL Hc Hns.
  destruct (invert_mat_spec k M HL) as [(B & E & HLB & F1 & F2)|[_ (x & Hx)]].
  - exists B. repeat split; auto.
    destruct (matmul_spec M B c k k k Hc) as [HLm Hm].
    apply (mx_ext k); auto using identity_length.
    intros i j Hi Hj. unfold mx at 1. rewrite Hm, mx_identity by auto.
    rewrite <- (F1 i j Hi Hj). apply gf_sum_ext. intros t Ht.
    unfold mx. now rewrite (Nat.add_comm j).
  - destruct (kernel_vector_singular M k x Hx Hns).
Qed.

Lemma invert_mat_correct_witness :
  exists M', invert_mat [x01; x02; x03; x04] 2 = Ok M' /\ length M' = 2 * 2 /\
             matmul [x01; x02; x03; x04] M' [x00; x00; x00; x00] 2 2 2 = identity 2.
Proof.
  apply (invert_mat_correct 2 [x01; x02; x03; x04] [x00; x00; x00; x00]);
    [lia | reflexivity | reflexivity |].
  apply (left_inverse_nonsingular _ [x02; x01; x8f; x8e]).
  intros i m Hi Hm.
  destruct i as [|[|i]]; [| |lia]; (destruct m as [|[|m]]; [| |lia]); reflexivity.
Defined.

(** ** C5 *)

(** C5.  [addmul(dst, src, c, sz)] on non-overlapping buffers of at least
    [sz] bytes sets [dst[i]] to [dst[i] ^ c * src[i]] for every i in
    [0, sz) and changes no other byte; with c = 0 it changes nothing.
    The unrolled loop and the tail loop together compute exactly this
    for every sz >= 0, below 16 as well. *)
Theorem addmul_contract (m : list byte) (dst src : nat) (c : byte) (sz : Z) :
  (0 <= sz)%Z ->
  dst + Z.to_nat sz <= length m -> src + Z.to_nat sz <= length m ->
  dst + Z.to_nat sz <= src \/ src + Z.to_nat sz <= dst ->
  let m' := addmul m dst src c sz in
  length m' = length m /\
  (forall i, i < Z.to_nat sz ->
     rd m' (dst + i) = bxor (rd m (dst + i)) (gf_mul c (rd m (src + i)))) /\
  (forall p, ~ (dst <= p < dst + Z.to_nat sz) -> rd m' p = rd m p) /\
  (c = x00 -> m' = m).
Proof.
  intros Hsz Hd Hs Hdisj m'.
  destruct (addmul_spec m dst src c (Z.to_nat sz) Hd Hs Hdisj) as [HL Hp].
  rewrite Z2Nat.id in * by auto. fold m' in HL, Hp.
  split; [exact HL|]. split; [|split].
  - intros i Hi. rewrite Hp.
    destruct (Nat.leb_spec dst (dst + i)), (Nat.ltb_spec (dst + i) (dst + Z.to_nat sz));
      try lia. cbn [andb]. do 3 f_equal. lia.
  - intros p Hn. rewrite Hp.
    destruct (Nat.leb_spec dst p), (Nat.ltb_spec p (dst + Z.to_nat sz));
      cbn [andb]; auto. lia.
  - intros ->. reflexivity.
Qed.

Lemma addmul_contract_witness :
  let m := repeat x07 20 ++ repeat x03 20 in
  let m' := addmul m 0 20 x05 17 in
  length m' = length m /\
  (forall i, i < Z.to_nat 17 ->
     rd m' (0 + i) = bxor (rd m (0 + i)) (gf_mul x05 (rd m (20 + i)))) /\
  (forall p, ~ (0 <= p < 0 + Z.to_nat 17) -> rd m' p = rd m p) /\
  (x05 = x00 -> m' = m).
Proof.
  apply (addmul_contract (repeat x07 20 ++ repeat x03 20) 0 20 x05 17);
    cbn; lia.
Defined.

(** ** C10 *)

Lemma shuffle_loop_fuel (fuel k : nat) (pkt : list shard) (index : list nat)
  (i ns : nat) (res : nat * list shard * list nat * nat) :
  shuffle_loop fuel k pkt index i ns = Some res ->
  shuffle_loop (S fuel) k pkt index i ns = Some res.
Proof.
  revert pkt index i ns. induction fuel as [|fuel IH]; intros pkt index i ns H;
    [discriminate|].
  cbn [shuffle_loop] in H. remember (S fuel) as f. cbn [shuffle_loop]. subst f.
  destruct (i <? k); auto.
  destruct ((k <=? nth i index 0) || (nth i index 0 =? i)); auto.
  destruct (nth (nth i index 0) index 0 =? nth i index 0); auto.
Qed.

(** C10.  The loop of [shuffle] terminates on arrays of k entries,
    whatever they hold: with fuel 2k + 1, and with any larger fuel, it
    returns 0 or 1, after at most k swaps. *)
Theorem shuffle_terminates (k : nat) (pkt : list shard) (index : list nat) :
  length index = k -> length pkt = k ->
  exists r pkt' index' nswaps,
    (forall fuel, 2 * k + 1 <= fuel ->
       shuffle_loop fuel k pkt index 0 0 = Some (r, pkt', index', nswaps)) /\
    shuffle pkt index k = Some (r, pkt', index') /\
    nswaps <= k /\ (r = 0 \/ r = 1).
Proof.
  intros HL HLp.
  destruct (shuffle_loop_spec (fun _ _ => True) k (2 * k + 1) pkt index 0 0)
    as (r & pkt' & index' & ns' & E & Hns & _ & _ & _ & _ & Hr); auto; try lia.
  { intros p Hp. lia. }
  exists r, pkt', index', ns'. split; [|split; [|split]].
  - intros fuel Hf. replace fuel with ((fuel - (2 * k + 1)) + (2 * k + 1)) by lia.
    induction (fuel - (2 * k + 1)) as [|d IH]; [exact E|].
    now apply shuffle_loop_fuel.
  - unfold shuffle. now rewrite E.
  - lia.
  - destruct Hr as [[-> _]|[-> _]]; auto.
Qed.

Lemma shuffle_terminates_witness :
  exists r pkt' index' nswaps,
    (forall fuel, 2 * 3 + 1 <= fuel ->
       shuffle_loop fuel 3 [[x01]; [x02]; [x03]] [2; 4; 0] 0 0 =
       Some (r, pkt', index', nswaps)) /\
    shuffle [[x01]; [x02]; [x03]] [2; 4; 0] 3 = Some (r, pkt', index') /\
    nswaps <= 3 /\ (r = 0 \/ r = 1).
Proof.
  apply (shuffle_terminates 3 [[x01]; [x02]; [x03]] [2; 4; 0]); reflexivity.
Defined.

(** ** C6 *)

(** C6.  When two positions of the index array hold the same source
    index v < k, [decode] fails with DuplicateIndex. *)
Theorem decode_duplicate_source (code : fec_code.t) (pkt : list shard)
  (index : list nat) (sz : nat) :
  length index = fec_code.k code -> length pkt = fec_code.k code ->
  dup_source (fec_code.k code) index ->
  fec_code.decode code pkt index sz = Throw DuplicateIndex.
Proof.
  intros HL HLp Hdup.
  destruct (decode_cases code pkt index sz HL HLp)
    as (r & pkt1 & index1 & _ & _ & _ & _ & [(_ & _ & E)|(_ & Hn & _)]); auto.
  contradiction.
Qed.

Lemma decode_duplicate_source_witness :
  exists code,
    fec_code.create 10 20 = Ok code /\
    fec_code.decode code (repeat [x00] 10) [0; 0; 1; 2; 3; 4; 5; 6; 7; 8] 1 =
    Throw DuplicateIndex.
Proof.
  eexists. split; [vm_compute; reflexivity|].
  apply decode_duplicate_source; [reflexivity | reflexivity |].
  exists 0, 1, 0. cbn. repeat split; lia.
Defined.

(** ** C9 *)

(** C9, amended.  When two positions of the index array hold the same
    parity index v >= k (all indices below n), [decode] never succeeds:
    it fails with DuplicateIndex when a source index is duplicated as
    well, because the shuffle step runs first, and with SingularMatrix
    otherwise. *)
Theorem decode_duplicate_parity (code : fec_code.t) (pkt : list shard)
  (index : list nat) (sz : nat) :
  let k := fec_code.k code in
  let n := fec_code.n code in
  length (fec_code.enc_matrix code) = n * k ->
  length index = k -> length pkt = k ->
  (forall i, i < k -> nth i index 0 < n) ->
  dup_parity k index ->
  (dup_source k index /\ fec_code.decode code pkt index sz = Throw DuplicateIndex) \/
  (~ dup_source k index /\ fec_code.decode code pkt index sz = Throw SingularMatrix).
Proof.
  intros k n Henc HL HLp Hidx Hdup. subst k n.
  destruct (decode_cases code pkt index sz HL HLp)
    as (r & pkt1 & index1 & _ & HL1 & _ & HP & [(_ & Hs & E)|(_ & Hn & _ & E)]);
    [left; auto|right]. split; auto. rewrite E.
  destruct (build_decode_matrix_spec _ _ _ Henc index1) as (D & ED & HLD & HD).
  { eapply perm_nth_bound; eauto. }
  rewrite ED.
  destruct (dup_parity_perm _ _ _ HP Hdup) as (a & b & v & Hab & Hb & Ha & Hbv & Hv).
  rewrite (invert_mat_equal_rows _ D a b); auto; try lia.
  intros j Hj. rewrite !HD, Ha, Hbv by lia.
  destruct (Nat.ltb_spec v (fec_code.k code)); [lia|reflexivity].
Qed.

Lemma decode_duplicate_parity_witness :
  exists code,
    fec_code.create 4 6 = Ok code /\
    ((dup_source 4 [0; 1; 4; 4] /\
      fec_code.decode code (repeat [x00] 4) [0; 1; 4; 4] 1 = Throw DuplicateIndex) \/
     (~ dup_source 4 [0; 1; 4; 4] /\
      fec_code.decode code (repeat [x00] 4) [0; 1; 4; 4] 1 = Throw SingularMatrix)).
Proof.
  eexists. split; [vm_compute; reflexivity|].
  apply (decode_duplicate_parity
           (fec_code.mk 4 6 _) (repeat [x00] 4) [0; 1; 4; 4] 1);
    [reflexivity | reflexivity | reflexivity | |].
  - intros i Hi. cbn in Hi. do 4 (destruct i as [|i]; [cbn; lia|]). lia.
  - exists 2, 3, 4. cbn. repeat split; lia.
Defined.

(** Counterexample to C9 as stated: with a duplicated source index next
    to the duplicated parity index, the failure is DuplicateIndex. *)
Lemma decode_duplicate_parity_counterexample :
  exists code,
    fec_code.create 4 5 = Ok code /\
    nth 2 [0; 0; 4; 4] 0 = 4 /\ nth 3 [0; 0; 4; 4] 0 = 4 /\
    fec_code.decode code (repeat [x00] 4) [0; 0; 4; 4] 1 = Throw DuplicateIndex /\
    fec_code.decode code (repeat [x00] 4) [0; 0; 4; 4] 1 <> Throw SingularMatrix.
Proof.
  eexists. split; [vm_compute; reflexivity|].
  repeat split; try (vm_compute; reflexivity). vm_compute. discriminate.
Qed.

(** ** C8 *)

(** C8, amended.  After a successful [decode] on arrays of k entries the
    index array is a permutation of the one passed in; every source
    index c < k that was passed in is left at position c; and every
    position i below k holds either i or a parity index >= k. *)
Theorem decode_index_postcondition (code : fec_code.t) (pkt pkt' : list shard)
  (index index' : list nat) (sz : nat) :
  length index = fec_code.k code -> length pkt = fec_code.k code ->
  fec_code.decode code pkt index sz = Ok (pkt', index') ->
  Permutation index index' /\
  (forall p, p < fec_code.k code -> nth p index 0 < fec_code.k code ->
     nth (nth p index 0) index' 0 = nth p index 0) /\
  forall i, i < fec_code.k code ->
    nth i index' 0 = i \/ fec_code.k code <= nth i index' 0.
Proof.
  intros HL HLp E.
  destruct (decode_cases code pkt index sz HL HLp)
    as (r & pkt1 & index1 & _ & HL1 & _ & HP & [(_ & _ & E')|(_ & _ & Hpl & E')]);
    rewrite E' in E; [discriminate|].
  destruct (build_decode_matrix _ _ _ index1) as [m| |]; cbn [bind] in E;
    try discriminate.
  injection E as _ <-. split; [exact HP|]. split.
  - intros p Hp Hc.
    assert (Hin : In (nth p index 0) index1)
      by (apply (Permutation_in _ HP), nth_In; lia).
    destruct (In_nth index1 _ 0 Hin) as (q & Hq & Eq).
    destruct (Hpl q ltac:(lia)) as [G|G]; [lia|]. congruence.
  - intros i Hi. destruct (Hpl i Hi); auto.
Qed.

Lemma decode_index_postcondition_witness :
  exists code,
    fec_code.create 3 5 = Ok code /\
    Permutation [1; 4; 3] [4; 1; 3] /\
    (forall p, p < fec_code.k code -> nth p [1; 4; 3] 0 < fec_code.k code ->
       nth (nth p [1; 4; 3] 0) [4; 1; 3] 0 = nth p [1; 4; 3] 0) /\
    forall i, i < fec_code.k code ->
      nth i [4; 1; 3] 0 = i \/ fec_code.k code <= nth i [4; 1; 3] 0.
Proof.
  eexists. split; [vm_compute; reflexivity|].
  apply (decode_index_postcondition (fec_code.mk 3 5 _)
           [[x02]; [x69]; [x15]] [[x01]; [x02]; [x03]] [1; 4; 3] [4; 1; 3] 1);
    [reflexivity | reflexivity | vm_compute; reflexivity].
Defined.

(** Counterexample to C8 as stated: a successful [decode] of two parity
    shards leaves their indices, not [0, 1, 2], in the index array. *)
Lemma decode_index_counterexample :
  exists code,
    fec_code.create 3 5 = Ok code /\
    fec_code.decode code [[x69]; [x02]; [x15]] [4; 1; 3] 1 =
      Ok ([[x01]; [x02]; [x03]], [4; 1; 3]) /\
    nth 0 [4; 1; 3] 0 <> 0.
Proof.
  eexists. split; [vm_compute; reflexivity|].
  split; [vm_compute; reflexivity|]. cbn. lia.
Qed.

(** ** C7 *)

(** C7, amended.  For k = 1, [invert_vdm] returns its argument unchanged;
    on the 1 x 1 Vandermonde matrix, which is [1], that is the identity. *)
Theorem invert_vdm_one (V : list byte) :
  invert_vdm V 1 = V /\ (V = [x01] -> invert_vdm V 1 = identity 1).
Proof. split; [reflexivity|]. intros ->. reflexivity. Qed.

(** Counterexample to C7 as stated: a 1 x 1 input other than [1] does
    not become 1. *)
Lemma invert_vdm_one_counterexample :
  rd (invert_vdm [x05] 1) 0 = x05 /\ x05 <> x01.
Proof. split; [reflexivity|discriminate]. Qed.

(** ** C3 *)

(** C3.  After a successful construction for (k, n) the codec holds k and
    n, its encoding matrix has n * k entries, and the top k x k block of
    the matrix is the identity. *)
Theorem systematic_generator (k n : nat) (code : fec_code.t) :
  fec_code.create k n = Ok code ->
  fec_code.k code = k /\ fec_code.n code = n /\
  length (fec_code.enc_matrix code) = n * k /\
  forall i j, i < k -> j < k -> mx (fec_code.enc_matrix code) k i j = delta i j.
Proof.
  intros E.
  destruct (create_outcome k n)
    as [[_ F]|[[_ F]|[[_ F]|[(Hk & Hkn & Hn & Hk') (T & enc & _ & F & HL & Hq)]]]];
    rewrite F in E; try discriminate.
  injection E as <-. cbn [fec_code.k fec_code.n fec_code.enc_matrix].
  repeat split; auto. intros i j Hi Hj. unfold mx. rewrite Hq.
  assert (Hlt : i * k + j < k * k) by now apply idx_lt.
  apply Nat.ltb_lt in Hlt. rewrite Hlt, diag_mod by auto. reflexivity.
Qed.

Lemma systematic_generator_witness :
  exists code,
    fec_code.create 3 5 = Ok code /\
    fec_code.k code = 3 /\ fec_code.n code = 5 /\
    length (fec_code.enc_matrix code) = 5 * 3 /\
    forall i j, i < 3 -> j < 3 -> mx (fec_code.enc_matrix code) 3 i j = delta i j.
Proof.
  eexists. split; [vm_compute; reflexivity|].
  apply (systematic_generator 3 5). vm_compute. reflexivity.
Defined.

(** ** C2 *)

(** C2, on the code.  The storage of the encoding matrix is asked for
    before the guards.  When it cannot be had the constructor throws
    from there, whatever k and n are.  When it can, the constructor
    throws InvalidParameters exactly when k > 256, n > 256 or k > n and
    returns a codec exactly when 1 <= k <= n <= 256 and k <= 255.  In
    the two cases left its behaviour is undefined: for k = 0 and
    n <= 256 the store to [tmp_m[0]] is outside the empty vector; for
    k = n = 256 the counter of the loop writing the diagonal, a [byte],
    wraps from 255 to 0 and the next store is past the end of the
    encoding matrix. *)
Theorem constructor_parameters (heap k n : N) :
  (k < fec_code.size_max)%N -> (n < fec_code.size_max)%N ->
  let size := ((n * k) mod fec_code.size_max)%N in
  (fec_code.fec_code heap k n = Throw BadAlloc <-> (heap < size)%N) /\
  (fec_code.fec_code heap k n = Throw InvalidParameters <->
   (size <= heap)%N /\ (256 < k \/ 256 < n \/ n < k)%N) /\
  (fec_code.fec_code heap k n = Undefined <->
   (size <= heap)%N /\ (k = 0 /\ n <= 256 \/ k = 256 /\ n = 256)%N) /\
  ((exists code, fec_code.fec_code heap k n = Ok code) <->
   (size <= heap)%N /\ (1 <= k /\ k <= n /\ n <= 256 /\ k <= 255)%N).
Proof.
  intros _ _ size. unfold fec_code.fec_code. cbv zeta.
  change ((n * k) mod fec_code.size_max)%N with size. clearbody size.
  destruct (N.ltb_spec heap size) as [Hh|Hh].
  - split; [split; auto|]. split; [split; [discriminate|lia]|].
    split; [split; [discriminate|lia]|].
    split; [intros [code F]; discriminate F|lia].
  - destruct (create_outcome (N.to_nat k) (N.to_nat n))
      as [[H F]|[[H F]|[[H F]|[H (T & enc & _ & F & _)]]]]; rewrite F.
    + split; [split; [discriminate|lia]|]. split; [split; [intros _|auto]; lia|].
      split; [split; [discriminate|lia]|].
      split; [intros [code G]; discriminate G|lia].
    + split; [split; [discriminate|lia]|]. split; [split; [discriminate|lia]|].
      split; [split; [intros _|auto]; lia|].
      split; [intros [code G]; discriminate G|lia].
    + split; [split; [discriminate|lia]|]. split; [split; [discriminate|lia]|].
      split; [split; [intros _|auto]; lia|].
      split; [intros [code G]; discriminate G|lia].
    + split; [split; [discriminate|lia]|]. split; [split; [discriminate|lia]|].
      split; [split; [discriminate|lia]|].
      split; [intros _; lia|]. intros _. eexists. reflexivity.
Qed.

Lemma constructor_parameters_witness :
  (fec_code.fec_code 65536 256 256 = Throw BadAlloc <->
   (65536 < (256 * 256) mod fec_code.size_max)%N) /\
  (fec_code.fec_code 65536 256 256 = Throw InvalidParameters <->
   ((256 * 256) mod fec_code.size_max <= 65536)%N /\
   (256 < 256 \/ 256 < 256 \/ 256 < 256)%N) /\
  (fec_code.fec_code 65536 256 256 = Undefined <->
   ((256 * 256) mod fec_code.size_max <= 65536)%N /\
   (256 = 0 /\ 256 <= 256 \/ 256 = 256 /\ 256 = 256)%N) /\
  ((exists code, fec_code.fec_code 65536 256 256 = Ok code) <->
   ((256 * 256) mod fec_code.size_max <= 65536)%N /\
   (1 <= 256 /\ 256 <= 256 /\ 256 <= 256 /\ 256 <= 255)%N).
Proof.
  apply (constructor_parameters 65536 256 256); reflexivity.
Defined.

(** ** C1 *)

(** C1, on the code, at the parameters where it fails: for k = n = 256
    no round trip starts, because the construction of the codec runs
    past the end of its encoding matrix. *)
Theorem roundtrip_256 (sz : nat) (S : list shard) (I : list nat) :
  roundtrip 256 256 sz S I = Undefined.
Proof.
  unfold roundtrip.
  destruct (create_outcome 256 256) as [[H _]|[[H _]|[[_ F]|[H _]]]];
    [exfalso; lia | exfalso; lia | | exfalso; lia].
  rewrite F. reflexivity.
Qed.

(** X1: the round trip on every parameter pair at which a codec exists:
    for 1 <= k <= n <= 256 with k <= 255, any k source shards of sz
    bytes and any k pairwise distinct indices below n, constructing the
    codec, encoding at the indices and decoding succeeds and leaves the
    source shards in pkt; the index array is left as a permutation of
    the one passed in. *)
Theorem roundtrip_correct (k n sz : nat) (S : list shard) (I : list nat) :
  1 <= k -> k <= n -> n <= 256 -> k <= 255 ->
  length S = k -> (forall i, i < k -> length (nth i S []) = sz) ->
  length I = k -> NoDup I -> (forall i, In i I -> i < n) ->
  exists I', roundtrip k n sz S I = Ok (S, I') /\ Permutation I I'.
Proof.
  intros Hk Hkn Hn Hk255 HS HSz HI Hnd Hin. unfold roundtrip.
  destruct (create_outcome k n) as [[H _]|[[H _]|[[H _]|[_ H]]]];
    [exfalso; lia | exfalso; lia | exfalso; lia |].
  destruct H as (T & enc & HT & E & HL & Hq). rewrite E. cbn [bind].
  pose proof (create_generator k n T Hk Hkn Hn HT enc HL Hq) as Hgen.
  assert (Htop : forall r j, r < k -> j < k -> mx enc k r j = delta r j)
    by (intros r j; apply (generator_top k n T Hk Hkn Hn HT enc r j Hgen)).
  destruct (encode_all_coded k n enc S sz HL Htop HS HSz I Hin) as (pkt & Ee & HLp & Hc).
  rewrite Ee. cbn [bind]. rewrite HI in HLp, Hc.
  apply (decode_coded k n enc S sz HL Htop); auto.
  intros D sel Hsel Hinj HD.
  apply (generator_rows_nonsingular k n T Hk Hkn Hn HT enc D sel); auto.
Qed.

Lemma roundtrip_correct_witness :
  exists I',
    roundtrip 3 5 1 [[x01]; [x02]; [x03]] [4; 1; 3] =
      Ok ([[x01]; [x02]; [x03]], I') /\
    Permutation [4; 1; 3] I'.
Proof.
  apply (roundtrip_correct 3 5 1 [[x01]; [x02]; [x03]] [4; 1; 3]);
    try lia; try reflexivity.
  - intros [|[|[|i]]] Hi; try reflexivity. lia.
  - repeat constructor; cbn; intuition lia.
  - intros i [<-|[<-|[<-|[]]]]; lia.
Defined.

(** X2: the code is MDS.  On every codec the constructor returns, any k
    rows of the encoding matrix taken at pairwise distinct indices below
    n form a non-singular k x k matrix. *)
Theorem encoding_rows_nonsingular (k n : nat) (code : fec_code.t)
  (D : list byte) (sel : nat -> nat) :
  fec_code.create k n = Ok code ->
  (forall p, p < k -> sel p < n) ->
  (forall p q, p < k -> q < k -> sel p = sel q -> p = q) ->
  (forall p j, p < k -> j < k ->
     mx D k p j = mx (fec_code.enc_matrix code) k (sel p) j) ->
  nonsingular D k.
Proof.
  intros E Hsel Hinj HD.
  destruct (create_outcome k n) as [[_ F]|[[_ F]|[[_ F]|[H F]]]];
    try (rewrite F in E; discriminate E).
  destruct H as (Hk & Hkn & Hn & _).
  destruct F as (T & enc & HT & E' & HL & Hq).
  rewrite E' in E. injection E as <-. cbn [fec_code.enc_matrix] in HD.
  apply (generator_rows_nonsingular k n T Hk Hkn Hn HT enc D sel); auto.
  now apply create_generator.
Qed.

Lemma encoding_rows_nonsingular_witness :
  exists code,
    fec_code.create 2 3 = Ok code /\ nonsingular [x00; x01; x03; x02] 2.
Proof.
  eexists. split; [vm_compute; reflexivity|].
  apply (encoding_rows_nonsingular 2 3
           (fec_code.mk 2 3 [x01; x00; x00; x01; x03; x02])
           [x00; x01; x03; x02] (fun p => Datatypes.S p)).
  - vm_compute. reflexivity.
  - intros p Hp. lia.
  - intros p q _ _ H. lia.
  - intros [|[|p]] [|[|j]] Hp Hj; try lia; reflexivity.
Defined.

(** X3: [invert_vdm] on a Vandermonde matrix.  For k >= 2, if the top
    k x k block of src is the Vandermonde matrix of k pairwise distinct
    points, the first of which is 0, then invert_vdm(src, k) leaves in
    that block a right inverse of it. *)
Theorem invert_vdm_inverts (k : nat) (src pts : list byte) (i row : nat) :
  2 <= k -> k * k <= length src ->
  length pts = k -> NoDup pts -> rd pts 0 = x00 ->
  (forall a b, a < k -> b < k -> mx src k a b = gf_pow (rd pts a) b) ->
  i < k -> row < k ->
  gf_sum k (fun col => gf_mul (mx src k i col) (mx (invert_vdm src k) k col row))
  = delta i row.
Proof.
  intros Hk Hsrc HLp Hnd Hp0 Hv Hi Hrow.
  assert (Hpts : vdm_points k src = pts).
  { apply (list_ext _ _ x00); rewrite vdm_points_length; [now rewrite HLp|].
    intros a Ha. fold (rd (vdm_points k src) a) (rd pts a).
    rewrite rd_vdm_points, Hv by (auto; lia). cbn. ring. }
  apply invert_vdm_right_inverse; auto; rewrite Hpts; auto.
Qed.

Lemma invert_vdm_inverts_witness :
  gf_sum 2 (fun col => gf_mul (mx [x01; x00; x01; x03] 2 1 col)
                         (mx (invert_vdm [x01; x00; x01; x03] 2) 2 col 1))
  = delta 1 1.
Proof.
  apply (invert_vdm_inverts 2 [x01; x00; x01; x03] [x00; x03] 1 1);
    try (cbn; lia); try reflexivity.
  - repeat constructor; cbn; intuition discriminate.
  - intros [|[|a]] [|[|b]] Ha Hb; try lia; reflexivity.
Defined.

(** X4: [matmul(a, b, c, n, k, m)] stores in c the product of the n x k
    matrix a and the k x m matrix b, all row-major. *)
Theorem matmul_product (a b c : list byte) (n k m i j : nat) :
  length c = n * m -> i < n -> j < m ->
  rd (matmul a b c n k m) (i * m + j) =
  gf_sum k (fun t => gf_mul (rd a (i * k + t)) (rd b (j + t * m))).
Proof.
  intros Hc Hi Hj. now apply (matmul_spec a b c n k m Hc).
Qed.

Lemma matmul_product_witness :
  rd (matmul [x02; x03] [x04; x05] [x00] 1 2 1) (0 * 1 + 0) =
  gf_sum 2 (fun t => gf_mul (rd [x02; x03] (0 * 2 + t)) (rd [x04; x05] (0 + t * 1))).
Proof.
  apply (matmul_product [x02; x03] [x04; x05] [x00] 1 2 1 0 0); [reflexivity|lia|lia].
Defined.

(** X5: [encode] throws for an invalid index exactly when the index is
    not below n, and returns normally exactly when it is. *)
Theorem encode_invalid_index (code : fec_code.t) (src : list shard)
  (fec : list byte) (index sz : nat) :
  (fec_code.encode code src fec index sz = Throw InvalidIndex <->
   fec_code.n code <= index) /\
  ((exists out, fec_code.encode code src fec index sz = Ok out) <->
   index < fec_code.n code).
Proof.
  unfold fec_code.encode.
  destruct (Nat.leb_spec (fec_code.n code) index) as [H|H].
  - split; split; auto; [intros [out F]; discriminate F|lia].
  - destruct (index <? fec_code.k code); split; split; auto;
      try (intros F; discriminate F); try lia; intros _; eexists; reflexivity.
Qed.


(** * Part XVI: the rest of the file *)

(** ** [modnn] *)

(** The loop of [modnn(int x)]; [fuel] bounds the number of iterations. *)
Fixpoint modnn_loop (fuel : nat) (x : Z) : option Z :=
  match fuel with
  | O => None
  | S fuel' =>
    if (255 <=? x)%Z then
      let x := (x - 255)%Z in
      let x := (Z.shiftr x 8 + Z.land x 255)%Z in
      modnn_loop fuel' x
    else Some x
  end.

(** [modnn(x)]: the [int] left by the loop, converted to [byte]. *)
Definition modnn (fuel : nat) (x : Z) : option Z :=
  match modnn_loop fuel x with
  | Some r => Some (r mod 256)%Z
  | None => None
  end.

Lemma modnn_step (x : Z) :
  (255 <= x)%Z ->
  let x' := (Z.shiftr (x - 255) 8 + Z.land (x - 255) 255)%Z in
  (0 <= x')%Z /\ (x' mod 255 = x mod 255)%Z /\ (x' / 255 < x / 255)%Z.
Proof.
  intros Hx x'.
  assert (E : x' = ((x - 255) / 256 + (x - 255) mod 256)%Z).
  { unfold x'. rewrite Z.shiftr_div_pow2 by lia.
    change (Z.land (x - 255) 255) with (Z.land (x - 255) (Z.ones 8)).
    rewrite Z.land_ones by lia. reflexivity. }
  pose proof (Z.div_mod (x - 255) 256 ltac:(lia)) as D.
  pose proof (Z.mod_pos_bound (x - 255) 256 ltac:(lia)) as B.
  assert (Q : (0 <= (x - 255) / 256)%Z) by (apply Z.div_pos; lia).
  assert (Ex : (x = x' + 255 * (1 + (x - 255) / 256))%Z) by lia.
  split; [lia|]. split.
  - rewrite Ex at 1. rewrite Z.mul_comm, Z.mod_add by lia. reflexivity.
  - rewrite Ex at 1. rewrite Z.mul_comm, Z.div_add by lia. lia.
Qed.

Lemma modnn_loop_spec (fuel : nat) :
  forall x, (0 <= x)%Z -> (x / 255 < Z.of_nat fuel)%Z ->
  modnn_loop fuel x = Some (x mod 255)%Z.
Proof.
  induction fuel as [|fuel IH]; intros x Hx Hf.
  - assert (0 <= x / 255)%Z by (apply Z.div_pos; lia). lia.
  - cbn [modnn_loop]. destruct (Z.leb_spec 255 x) as [H|H].
    + destruct (modnn_step x H) as (H0 & Hm & Hd). cbv zeta.
      rewrite IH by lia. now rewrite Hm.
    + now rewrite Z.mod_small by lia.
Qed.

(** X6: [modnn(x)] is [x % 255] for every non-negative [int], reached
    after at most x / 255 + 1 tests of the loop condition. *)
Theorem modnn_mod (fuel : nat) (x : Z) :
  (0 <= x)%Z -> (x / 255 < Z.of_nat fuel)%Z ->
  modnn fuel x = Some (x mod 255)%Z.
Proof.
  intros Hx Hf. unfold modnn. rewrite modnn_loop_spec by assumption.
  f_equal. pose proof (Z.mod_pos_bound x 255 ltac:(lia)).
  apply Z.mod_small. lia.
Qed.

Lemma modnn_mod_witness : modnn 5 1000 = Some (1000 mod 255)%Z.
Proof. apply (modnn_mod 5 1000); [lia | reflexivity]. Defined.

(** ** [init_mul_table] and [init_fec] *)

(** The static array [gf_mul_table[256][256]]. *)
Definition mul_table : Type := list (list byte).

(** [t[i][j]] and [t[i][j] = v] *)
Definition tget (t : mul_table) (i j : nat) : byte := rd (nth i t []) j.

Definition tset (t : mul_table) (i j : nat) (v : byte) : mul_table :=
  upd i (upd j v (nth i t [])) t.

(** [init_mul_table()] *)
Definition init_mul_table (t : mul_table) : mul_table :=
  let t :=
    for_loop 256 (fun i t =>
      for_loop 256 (fun j t =>
        tset t i j
          (nth ((b2n (nth i GF_LOG x00) + b2n (nth j GF_LOG x00)) mod 255) GF_EXP x00))
        t) t in
  for_loop 256 (fun i t =>
    let t := tset t i 0 x00 in
    tset t 0 i x00) t.

(** The statics of [init_fec]: the flag and the table, both
    zero-initialised when the program starts. *)
Record fec_statics : Type :=
  mk_statics { fec_initialized : bool; gf_mul_table_array : mul_table }.

Definition statics_at_start : fec_statics :=
  mk_statics false (repeat (repeat x00 256) 256).

(** [init_fec()] *)
Definition init_fec (st : fec_statics) : fec_statics :=
  if negb (fec_initialized st) then
    mk_statics true (init_mul_table (gf_mul_table_array st))
  else st.

Lemma init_fec_again (st : fec_statics) :
  fec_initialized st = true -> init_fec st = st.
Proof. intros H. unfold init_fec. now rewrite H. Qed.

Lemma init_fec_iter (m : nat) (st : fec_statics) :
  Nat.iter (S m) init_fec st = init_fec st.
Proof.
  induction m as [|m IH]; [reflexivity|].
  change (Nat.iter (S (S m)) init_fec st) with (init_fec (Nat.iter (S m) init_fec st)).
  rewrite IH. apply init_fec_again. unfold init_fec.
  destruct (fec_initialized st) eqn:E; [exact E|reflexivity].
Qed.

(** The table has 256 rows of 256 bytes. *)
Definition table_dims (t : mul_table) : Prop :=
  length t = 256 /\ forall i, i < 256 -> length (nth i t []) = 256.

Lemma tset_dims (t : mul_table) (i j : nat) (v : byte) :
  table_dims t -> table_dims (tset t i j v).
Proof.
  intros [HL HR]. unfold tset. split; [now rewrite upd_length|].
  intros a Ha. rewrite nth_upd, HL.
  destruct (Nat.eqb_spec a i) as [->|Hne]; cbn [andb]; [|now apply HR].
  destruct (Nat.ltb_spec i 256); [|now apply HR].
  rewrite upd_length. now apply HR.
Qed.

Lemma tget_tset (t : mul_table) (i j a b : nat) (v : byte) :
  table_dims t -> i < 256 -> j < 256 ->
  tget (tset t i j v) a b = if (a =? i) && (b =? j) then v else tget t a b.
Proof.
  intros [HL HR] Hi Hj. unfold tget, tset. rewrite nth_upd, HL.
  destruct (Nat.eqb_spec a i) as [->|Hne]; cbn [andb]; [|reflexivity].
  destruct (Nat.ltb_spec i 256); [|lia].
  rewrite rd_upd, HR by auto.
  destruct (Nat.eqb_spec b j); cbn [andb]; [|reflexivity].
  destruct (Nat.ltb_spec j 256); [reflexivity|lia].
Qed.

Lemma statics_at_start_dims : table_dims (gf_mul_table_array statics_at_start).
Proof.
  split; [apply repeat_length|]. intros i Hi. cbn [gf_mul_table_array statics_at_start].
  rewrite nth_repeat_lt by (rewrite ?repeat_length; lia). apply repeat_length.
Qed.

Lemma fill_pass (F : nat -> nat -> byte) (t : mul_table) :
  table_dims t ->
  table_dims (for_loop 256 (fun i t0 =>
                for_loop 256 (fun j t1 => tset t1 i j (F i j)) t0) t) /\
  forall a b, a < 256 -> b < 256 ->
    tget (for_loop 256 (fun i t0 =>
            for_loop 256 (fun j t1 => tset t1 i j (F i j)) t0) t) a b = F a b.
Proof.
  intros Hd.
  apply (for_loop_ind (fun i t0 =>
    table_dims t0 /\ forall a b, a < i -> b < 256 -> tget t0 a b = F a b)).
  - split; auto. intros; lia.
  - intros i t0 Hi [Hd0 H0].
    assert (G : table_dims (for_loop 256 (fun j t1 => tset t1 i j (F i j)) t0) /\
                (forall a b, a < i -> b < 256 ->
                   tget (for_loop 256 (fun j t1 => tset t1 i j (F i j)) t0) a b = F a b) /\
                (forall b, b < 256 ->
                   tget (for_loop 256 (fun j t1 => tset t1 i j (F i j)) t0) i b = F i b)).
    { apply (for_loop_ind (fun j t1 =>
        table_dims t1 /\
        (forall a b, a < i -> b < 256 -> tget t1 a b = F a b) /\
        (forall b, b < j -> tget t1 i b = F i b))).
      - split; [exact Hd0|]. split; [exact H0|]. intros; lia.
      - intros j t1 Hj (Hd1 & Ha & Hb). split; [now apply tset_dims|]. split.
        + intros a b Hai Hb256. rewrite tget_tset by auto.
          destruct (Nat.eqb_spec a i); [lia|]. cbn [andb]. now apply Ha.
        + intros b Hbj. rewrite tget_tset by auto. rewrite Nat.eqb_refl. cbn [andb].
          destruct (Nat.eqb_spec b j) as [->|Hne]; [reflexivity|]. apply Hb. lia. }
    destruct G as (Gd & Ga & Gb). split; auto. intros a b Ha Hb.
    destruct (Nat.eq_dec a i) as [->|Hne]; [now apply Gb|]. apply Ga; auto. lia.
Qed.

Lemma clear_pass (F : nat -> nat -> byte) (t : mul_table) (m : nat) :
  table_dims t ->
  (forall a b, a < 256 -> b < 256 -> tget t a b = F a b) ->
  m <= 256 ->
  table_dims (for_loop m (fun i t0 => tset (tset t0 i 0 x00) 0 i x00) t) /\
  forall a b, a < 256 -> b < 256 ->
    tget (for_loop m (fun i t0 => tset (tset t0 i 0 x00) 0 i x00) t) a b =
    if ((b =? 0) && (a <? m)) || ((a =? 0) && (b <? m)) then x00 else F a b.
Proof.
  intros Hd H1 Hm.
  apply (for_loop_ind (fun m t0 =>
    table_dims t0 /\
    forall a b, a < 256 -> b < 256 ->
      tget t0 a b =
      if ((b =? 0) && (a <? m)) || ((a =? 0) && (b <? m)) then x00 else F a b)).
  - split; auto. intros a b Ha Hb. rewrite !andb_false_r. cbn [orb]. now apply H1.
  - intros i t0 Hi [Hd0 H0]. split; [now apply tset_dims, tset_dims|].
    intros a b Ha Hb.
    rewrite tget_tset by (try apply tset_dims; auto; lia).
    rewrite tget_tset by (auto; lia). rewrite H0 by auto.
    destruct (Nat.eqb_spec a 0), (Nat.eqb_spec b 0), (Nat.eqb_spec a i),
      (Nat.eqb_spec b i), (Nat.ltb_spec a i), (Nat.ltb_spec b i),
      (Nat.ltb_spec a (S i)), (Nat.ltb_spec b (S i)); cbn [andb orb];
      try lia; reflexivity.
Qed.

Lemma init_mul_table_spec (t : mul_table) :
  table_dims t ->
  table_dims (init_mul_table t) /\
  forall a b, a < 256 -> b < 256 ->
    tget (init_mul_table t) a b =
    if (a =? 0) || (b =? 0) then x00
    else nth ((b2n (nth a GF_LOG x00) + b2n (nth b GF_LOG x00)) mod 255) GF_EXP x00.
Proof.
  intros Hd. unfold init_mul_table. cbv zeta.
  pose proof (fill_pass (fun a b =>
    nth ((b2n (nth a GF_LOG x00) + b2n (nth b GF_LOG x00)) mod 255) GF_EXP x00)
    t Hd) as [Hd1 H1].
  pose proof (clear_pass _ _ 256 Hd1 H1 (Nat.le_refl _)) as [Hd2 H2].
  cbv beta in Hd2, H2. split; [exact Hd2|].
  intros a b Ha Hb. rewrite H2 by auto.
  destruct (Nat.ltb_spec a 256), (Nat.ltb_spec b 256); try lia.
  rewrite !andb_true_r, orb_comm. reflexivity.
Qed.

Lemma b2n_zero (x : byte) : (b2n x =? 0) = is_zero x.
Proof.
  assert (C : forall b, Bool.eqb (b2n b =? 0) (is_zero b) = true)
    by (apply byte_forall; vm_compute; reflexivity).
  apply Bool.eqb_prop, C.
Qed.

Lemma init_fec_first (x y : byte) :
  tget (gf_mul_table_array (init_fec statics_at_start)) (b2n x) (b2n y) =
  gf_mul_table x y.
Proof.
  unfold init_fec. cbn [fec_initialized statics_at_start negb gf_mul_table_array].
  destruct (init_mul_table_spec (repeat (repeat x00 256) 256) statics_at_start_dims)
    as [_ H].
  rewrite H by (unfold b2n; pose proof (Byte.to_nat_bounded x);
                pose proof (Byte.to_nat_bounded y); lia).
  rewrite !b2n_zero. reflexivity.
Qed.

(** X7: after the first call of [init_fec], and after any number of
    further calls, [gf_mul_table[x][y]] is 0 when x or y is 0 and
    [GF_EXP[(GF_LOG[x] + GF_LOG[y]) % 255]] otherwise; the later calls
    leave the statics as they are. *)
Theorem init_fec_table (m : nat) (x y : byte) :
  Nat.iter (S m) init_fec statics_at_start = init_fec statics_at_start /\
  tget (gf_mul_table_array (Nat.iter (S m) init_fec statics_at_start))
       (b2n x) (b2n y) =
  (if is_zero x || is_zero y then x00
   else gf_exp ((gf_log x + gf_log y) mod 255)).
Proof.
  split; [apply init_fec_iter|].
  rewrite init_fec_iter. apply init_fec_first.
Qed.

(** ** The field GF(2^8) *)

(** X8: [gf_mul] with xor is the arithmetic of a field on the bytes:
    the product is commutative and associative, distributes over xor,
    has 1 as its unit and no zero divisors, and [GF_INVERSE[x]] is the
    inverse of every x other than 0. *)
Theorem gf_mul_field :
  (forall x y, gf_mul x y = gf_mul y x) /\
  (forall x y z, gf_mul x (gf_mul y z) = gf_mul (gf_mul x y) z) /\
  (forall x y z, gf_mul x (bxor y z) = bxor (gf_mul x y) (gf_mul x z)) /\
  (forall x, gf_mul x01 x = x) /\
  (forall x y, gf_mul x y = x00 <-> x = x00 \/ y = x00) /\
  (forall x, x <> x00 -> gf_mul (gf_inverse x) x = x01).
Proof.
  split; [intros; ring|]. split; [intros; ring|]. split; [intros; ring|].
  split; [intros; ring|]. split; [|apply gf_mul_inverse].
  intros x y. split; [apply gf_mul_eq_0|].
  intros [->| ->]; ring.
Qed.

(** Multiplication of polynomials over GF(2) modulo
    1 + x^2 + x^3 + x^4 + x^8, the polynomial named at the head of the
    tables, by shifts and xors on the bit patterns. *)
Definition poly_xtime (a : N) : N :=
  let s := N.shiftl a 1 in
  if N.testbit s 8 then N.lxor s 285 else s.

Fixpoint poly_mul_loop (bits : nat) (a b acc : N) : N :=
  match bits with
  | O => acc
  | S bits' =>
    poly_mul_loop bits' (poly_xtime a) (N.shiftr b 1)
      (if N.testbit b 0 then N.lxor acc a else acc)
  end.

Definition poly_mul (a b : N) : N := poly_mul_loop 8 a b 0.

(** X9: the table product is the product of the polynomials modulo
    1 + x^2 + x^3 + x^4 + x^8, and xor is their sum. *)
Theorem gf_mul_polynomial (x y : byte) :
  Byte.to_N (gf_mul x y) = poly_mul (Byte.to_N x) (Byte.to_N y) /\
  Byte.to_N (bxor x y) = N.lxor (Byte.to_N x) (Byte.to_N y).
Proof.
  assert (C : forall a, forallb (fun b =>
             N.eqb (Byte.to_N (gf_mul a b)) (poly_mul (Byte.to_N a) (Byte.to_N b)) &&
             N.eqb (Byte.to_N (bxor a b)) (N.lxor (Byte.to_N a) (Byte.to_N b)))
             all_bytes = true)
    by (apply byte_forall; vm_compute; reflexivity).
  specialize (C x). rewrite forallb_forall in C.
  specialize (C y (all_bytes_complete y)). apply andb_prop in C.
  destruct C as [C1 C2]. split; now apply N.eqb_eq.
Qed.

(** X10: the tables agree with one another: [GF_LOG] and [GF_EXP] are
    inverse to each other on the non-zero bytes and the exponents below
    255, the second half of [GF_EXP] repeats the first, and [GF_INVERSE]
    is an involution on the non-zero bytes that fixes 0. *)
Theorem gf_tables :
  (length GF_EXP = 510 /\ length GF_LOG = 256 /\ length GF_INVERSE = 256) /\
  (forall x, x <> x00 -> gf_log x < 255 /\ gf_exp (gf_log x) = x) /\
  (forall i, i < 255 -> gf_exp i <> x00 /\ gf_log (gf_exp i) = i /\
                        gf_exp (i + 255) = gf_exp i) /\
  (forall x, x <> x00 -> gf_inverse x <> x00 /\ gf_inverse (gf_inverse x) = x) /\
  gf_inverse x00 = x00 /\ gf_log x00 = 255.
Proof.
  split; [repeat split|]. split; [|split; [|split]].
  - intros x Hx. split; [now apply log_lt | now apply exp_log].
  - intros i Hi. split; [now apply exp_nonzero|].
    split; [now apply log_exp | now apply exp_dup].
  - intros x Hx. split; [now apply inverse_log|].
    assert (C : forall b, Byte.eqb (gf_inverse (gf_inverse b)) b = true)
      by (apply byte_forall; vm_compute; reflexivity).
    apply byte_eqb_eq, C.
  - split; reflexivity.
Qed.

(** ** [addmul_k] and [encode] *)

(** X11: [addmul_k(dst, srcs, cs, size, k)] adds to each of the first
    [size] bytes of dst the combination of the k source bytes at that
    offset with the coefficients cs, and leaves the other bytes of dst
    and its length as they are. *)
Theorem addmul_k_result (dst : list byte) (srcs : list (list byte))
  (cs : list byte) (size k : nat) :
  size <= length dst ->
  length (addmul_k dst srcs cs size k) = length dst /\
  forall j, rd (addmul_k dst srcs cs size k) j =
    if j <? size
    then bxor (rd dst j)
              (gf_sum k (fun i => gf_mul (rd cs i) (rd (nth i srcs []) j)))
    else rd dst j.
Proof. apply addmul_k_spec. Qed.

Lemma addmul_k_result_witness :
  length (addmul_k [x01; x02] [[x03]; [x04]] [x05; x06] 1 2) = length [x01; x02] /\
  forall j, rd (addmul_k [x01; x02] [[x03]; [x04]] [x05; x06] 1 2) j =
    if j <? 1
    then bxor (rd [x01; x02] j)
              (gf_sum 2 (fun i => gf_mul (rd [x05; x06] i)
                                         (rd (nth i [[x03]; [x04]] []) j)))
    else rd [x01; x02] j.
Proof.
  apply (addmul_k_result [x01; x02] [[x03]; [x04]] [x05; x06] 1 2). cbn. lia.
Defined.

Lemma encode_spec (code : fec_code.t) (src : list shard) (fec : list byte)
  (index sz : nat) :
  let k := fec_code.k code in
  let n := fec_code.n code in
  length (fec_code.enc_matrix code) = n * k ->
  index < n -> sz <= length fec ->
  (forall i, i < k -> sz <= length (nth i src [])) ->
  exists out,
    fec_code.encode code src fec index sz = Ok out /\
    length out = length fec /\
    forall j, rd out j =
      if j <? sz then
        if index <? k then rd (nth index src []) j
        else gf_sum k (fun i =>
               gf_mul (rd (fec_code.enc_matrix code) (index * k + i))
                      (rd (nth i src []) j))
      else rd fec j.
Proof.
  intros k n _ Hi Hsz Hsrc. unfold fec_code.encode. fold k n.
  destruct (Nat.leb_spec n index); [lia|].
  destruct (Nat.ltb_spec index k) as [Hk|Hk].
  - eexists. split; [reflexivity|]. split.
    + apply memcpy_length; auto.
    + intros j. apply rd_memcpy; auto.
  - eexists. split; [reflexivity|].
    assert (Hm : sz <= length (memset fec x00 sz)) by now rewrite memset_length.
    destruct (addmul_k_spec (memset fec x00 sz) src
                (skipn (index * k) (fec_code.enc_matrix code)) sz k Hm) as [HL Hrd].
    split; [now rewrite HL, memset_length|].
    intros j. rewrite Hrd, rd_memset. destruct (Nat.ltb_spec j sz); [|reflexivity].
    rewrite bxor_0_l. apply gf_sum_ext. intros i Hik. now rewrite rd_skipn.
Qed.

(** X12: [encode] at a valid index writes sz bytes of fec and nothing
    else: for a source index the bytes of that source shard, for a
    parity index the combination of the k source shards with the row of
    the encoding matrix at that index. *)
Theorem encode_result (code : fec_code.t) (src : list shard) (fec : list byte)
  (index sz : nat) :
  let k := fec_code.k code in
  let n := fec_code.n code in
  length (fec_code.enc_matrix code) = n * k ->
  index < n -> sz <= length fec ->
  (forall i, i < k -> sz <= length (nth i src [])) ->
  exists out,
    fec_code.encode code src fec index sz = Ok out /\
    length out = length fec /\
    forall j, rd out j =
      if j <? sz then
        if index <? k then rd (nth index src []) j
        else gf_sum k (fun i =>
               gf_mul (rd (fec_code.enc_matrix code) (index * k + i))
                      (rd (nth i src []) j))
      else rd fec j.
Proof. apply encode_spec. Qed.

Lemma encode_result_witness :
  exists out,
    fec_code.encode (fec_code.mk 2 3 [x01; x00; x00; x01; x03; x02])
      [[x05; x09]; [x07; x09]] [x0a; x0b] 2 1 = Ok out /\
    length out = 2 /\
    forall j, rd out j =
      if j <? 1 then
        if 2 <? 2 then rd (nth 2 [[x05; x09]; [x07; x09]] []) j
        else gf_sum 2 (fun i =>
               gf_mul (rd [x01; x00; x00; x01; x03; x02] (2 * 2 + i))
                      (rd (nth i [[x05; x09]; [x07; x09]] []) j))
      else rd [x0a; x0b] j.
Proof.
  apply (encode_result (fec_code.mk 2 3 [x01; x00; x00; x01; x03; x02])
           [[x05; x09]; [x07; x09]] [x0a; x0b] 2 1).
  - reflexivity.
  - cbn. lia.
  - cbn. lia.
  - intros [|[|i]] Hi; cbn in *; lia.
Defined.

(** ** [shuffle] *)

(** X13: on arrays of k entries [shuffle] returns 1 exactly when two
    positions hold the same source index (a value below k), and 0
    otherwise.  Either way the index array is left as a permutation of
    the one passed in and every shard is still paired with its index;
    on 0 every position p holds p or a parity index. *)
Theorem shuffle_result (k : nat) (pkt : list shard) (index : list nat) :
  length index = k -> length pkt = k ->
  exists r pkt' index',
    shuffle pkt index k = Some (r, pkt', index') /\
    length index' = k /\ length pkt' = k /\
    Permutation index index' /\
    (forall p, p < k -> exists q, q < k /\
       nth p index' 0 = nth q index 0 /\ nth p pkt' [] = nth q pkt []) /\
    (r = 1 /\ dup_source k index
     \/
     r = 0 /\ ~ dup_source k index /\
     forall p, p < k -> k <= nth p index' 0 \/ nth p index' 0 = p).
Proof.
  intros HL HLp.
  destruct (shuffle_spec
              (fun i s => exists q, q < k /\ i = nth q index 0 /\ s = nth q pkt [])
              k pkt index)
    as (r & pkt1 & index1 & E & HL1 & HLp1 & HP & HR1 & Hres); try lia.
  { intros p Hp. exists p. auto. }
  exists r, pkt1, index1. rewrite HL in HL1. rewrite HLp in HLp1.
  split; [exact E|]. split; [exact HL1|]. split; [exact HLp1|].
  split; [exact HP|]. split; [exact HR1|].
  destruct Hres as [[-> Hpl]|[-> Hc]].
  - right. split; [reflexivity|]. split; [|exact Hpl].
    now apply (placed_no_dup k index index1).
  - left. split; [reflexivity|].
    apply (conflict_dup k index index1); auto. lia.
Qed.

Lemma shuffle_result_witness :
  exists r pkt' index',
    shuffle [[x01]; [x02]; [x03]] [4; 0; 1] 3 = Some (r, pkt', index') /\
    length index' = 3 /\ length pkt' = 3 /\
    Permutation [4; 0; 1] index' /\
    (forall p, p < 3 -> exists q, q < 3 /\
       nth p index' 0 = nth q [4; 0; 1] 0 /\
       nth p pkt' [] = nth q [[x01]; [x02]; [x03]] []) /\
    (r = 1 /\ dup_source 3 [4; 0; 1]
     \/
     r = 0 /\ ~ dup_source 3 [4; 0; 1] /\
     forall p, p < 3 -> 3 <= nth p index' 0 \/ nth p index' 0 = p).
Proof.
  apply (shuffle_result 3 [[x01]; [x02]; [x03]] [4; 0; 1]); reflexivity.
Defined.

(** ** [build_decode_matrix] and the outcomes of [decode] *)

Lemma build_decode_matrix_throws (k n : nat) (enc : list byte) (index : list nat) :
  (exists p, p < k /\ k <= nth p index 0 /\ n <= nth p index 0) ->
  build_decode_matrix k n enc index = Throw BadDecodeIndex.
Proof.
  intros (p & Hp & Hk & Hn). unfold build_decode_matrix.
  assert (E : for_r (seq 0 k) (fun i matrix =>
                let p := i * k in
                if nth i index 0 <? k then
                  Ok (upd (p + i) x01 (memset_at matrix p x00 k))
                else if nth i index 0 <? n then
                  Ok (memcpy_at matrix p (skipn (nth i index 0 * k) enc) k)
                else Throw BadDecodeIndex) (repeat x00 (k * k)) =
              Throw BadDecodeIndex).
  { generalize (repeat x00 (k * k)).
    assert (Hin : In p (seq 0 k)) by (apply in_seq; lia).
    induction (seq 0 k) as [|h t IH]; intros m; [destruct Hin|].
    cbn [for_r]. cbv zeta.
    destruct (Nat.ltb_spec (nth h index 0) k) as [H1|H1].
    - cbn [bind]. apply IH. destruct Hin as [->|Hin]; [lia|exact Hin].
    - destruct (Nat.ltb_spec (nth h index 0) n) as [H2|H2]; [|reflexivity].
      cbn [bind]. apply IH. destruct Hin as [->|Hin]; [lia|exact Hin]. }
  cbv zeta in E |- *. rewrite E. reflexivity.
Qed.

Lemma bounded_search (P : nat -> bool) (k : nat) :
  (forall p, p < k -> P p = true) \/ (exists p, p < k /\ P p = false).
Proof.
  induction k as [|k [IH|(p & Hp & E)]].
  - left. intros; lia.
  - destruct (P k) eqn:E.
    + left. intros p Hp. destruct (Nat.eq_dec p k) as [->|]; [exact E|].
      apply IH. lia.
    + right. exists k. auto.
  - right. exists p. auto.
Qed.

Lemma build_decode_matrix_cases (k n : nat) (enc : list byte) (index : list nat) :
  k <= n -> length enc = n * k -> length index = k ->
  ((exists p, p < k /\ n <= nth p index 0) /\
   build_decode_matrix k n enc index = Throw BadDecodeIndex)
  \/
  ((forall p, p < k -> nth p index 0 < n) /\
   exists D,
     length D = k * k /\
     (forall i j, i < k -> j < k ->
        mx D k i j =
        if nth i index 0 <? k then delta i j else mx enc k (nth i index 0) j) /\
     ((exists B,
         build_decode_matrix k n enc index = Ok B /\ length B = k * k /\
         (forall i m, i < k -> m < k ->
            gf_sum k (fun j => gf_mul (mx D k i j) (mx B k j m)) = delta i m) /\
         (forall i m, i < k -> m < k ->
            gf_sum k (fun j => gf_mul (mx B k i j) (mx D k j m)) = delta i m))
      \/
      (build_decode_matrix k n enc index = Throw SingularMatrix /\
       ~ nonsingular D k))).
Proof.
  intros Hkn Henc HL.
  destruct (bounded_search (fun p => nth p index 0 <? n) k) as [Hall|(p & Hp & E)].
  - right.
    assert (Hlt : forall p, p < k -> nth p index 0 < n)
      by (intros p Hp; apply Nat.ltb_lt; now apply Hall).
    split; [exact Hlt|].
    destruct (build_decode_matrix_spec k n enc Henc index Hlt) as (D & ED & HLD & HD).
    exists D. split; [exact HLD|]. split; [exact HD|]. rewrite ED.
    destruct (invert_mat_spec k D HLD) as [(B & EB & HLB & H1 & H2)|[Es (x & Hx)]].
    + left. exists B. auto.
    + right. split; [exact Es|]. now apply (kernel_vector_singular D k x).
  - left. apply Nat.ltb_ge in E. split; [now exists p|].
    apply build_decode_matrix_throws. exists p. split; [exact Hp|]. lia.
Qed.

(** X14: [build_decode_matrix] on k indices.  It throws for a bad index
    exactly when some index is not below n.  Otherwise it builds the
    matrix D whose row i is the unit row i when index[i] < k and row
    index[i] of the encoding matrix when not, and returns the two-sided
    inverse of D, or fails as [invert_mat] does when D is singular. *)
Theorem build_decode_matrix_result (k n : nat) (enc : list byte) (index : list nat) :
  k <= n -> length enc = n * k -> length index = k ->
  ((exists p, p < k /\ n <= nth p index 0) /\
   build_decode_matrix k n enc index = Throw BadDecodeIndex)
  \/
  ((forall p, p < k -> nth p index 0 < n) /\
   exists D,
     length D = k * k /\
     (forall i j, i < k -> j < k ->
        mx D k i j =
        if nth i index 0 <? k then delta i j else mx enc k (nth i index 0) j) /\
     ((exists B,
         build_decode_matrix k n enc index = Ok B /\ length B = k * k /\
         (forall i m, i < k -> m < k ->
            gf_sum k (fun j => gf_mul (mx D k i j) (mx B k j m)) = delta i m) /\
         (forall i m, i < k -> m < k ->
            gf_sum k (fun j => gf_mul (mx B k i j) (mx D k j m)) = delta i m))
      \/
      (build_decode_matrix k n enc index = Throw SingularMatrix /\
       ~ nonsingular D k))).
Proof. apply build_decode_matrix_cases. Qed.

Lemma build_decode_matrix_result_witness :
  ((exists p, p < 2 /\ 3 <= nth p [0; 2] 0) /\
   build_decode_matrix 2 3 [x01; x00; x00; x01; x03; x02] [0; 2] =
     Throw BadDecodeIndex)
  \/
  ((forall p, p < 2 -> nth p [0; 2] 0 < 3) /\
   exists D,
     length D = 2 * 2 /\
     (forall i j, i < 2 -> j < 2 ->
        mx D 2 i j =
        if nth i [0; 2] 0 <? 2 then delta i j
        else mx [x01; x00; x00; x01; x03; x02] 2 (nth i [0; 2] 0) j) /\
     ((exists B,
         build_decode_matrix 2 3 [x01; x00; x00; x01; x03; x02] [0; 2] = Ok B /\
         length B = 2 * 2 /\
         (forall i m, i < 2 -> m < 2 ->
            gf_sum 2 (fun j => gf_mul (mx D 2 i j) (mx B 2 j m)) = delta i m) /\
         (forall i m, i < 2 -> m < 2 ->
            gf_sum 2 (fun j => gf_mul (mx B 2 i j) (mx D 2 j m)) = delta i m))
      \/
      (build_decode_matrix 2 3 [x01; x00; x00; x01; x03; x02] [0; 2] =
         Throw SingularMatrix /\
       ~ nonsingular D 2))).
Proof.
  apply (build_decode_matrix_result 2 3 [x01; x00; x00; x01; x03; x02] [0; 2]);
    [lia | reflexivity | reflexivity].
Defined.

Lemma not_NoDup_positions (l : list nat) :
  ~ NoDup l ->
  exists a b, a < b /\ b < length l /\ nth a l 0 = nth b l 0.
Proof.
  induction l as [|h t IH]; intros H.
  - destruct H. constructor.
  - destruct (in_dec Nat.eq_dec h t) as [Hin|Hnin].
    + destruct (In_nth t h 0 Hin) as (q & Hq & E).
      exists 0, (S q). cbn. split; [lia|]. split; [lia|]. now rewrite E.
    + destruct IH as (a & b & Hab & Hb & E).
      { intros Hnd. apply H. now constructor. }
      exists (S a), (S b). cbn. split; [lia|]. split; [lia|]. exact E.
Qed.

Section DecodeOutcome.
Variables (k n : nat) (enc : list byte).
Hypothesis Hkn : k <= n.
Hypothesis Henc : length enc = n * k.
Hypothesis Htop : forall r j, r < k -> j < k -> mx enc k r j = delta r j.
Hypothesis Hns : forall (D : list byte) (sel : nat -> nat),
  (forall p, p < k -> sel p < n) ->
  (forall p q, p < k -> q < k -> sel p = sel q -> p = q) ->
  (forall p j, p < k -> j < k -> mx D k p j = mx enc k (sel p) j) ->
  nonsingular D k.

Let code := fec_code.mk k n enc.

(** The four outcomes of [decode] on arrays of k entries, in the order
    in which the code tests for them. *)
Lemma decode_outcome (pkt : list shard) (index : list nat) (sz : nat) :
  length index = k -> length pkt = k ->
  (dup_source k index /\
   fec_code.decode code pkt index sz = Throw DuplicateIndex)
  \/
  (~ dup_source k index /\ (exists i, In i index /\ n <= i) /\
   fec_code.decode code pkt index sz = Throw BadDecodeIndex)
  \/
  (~ dup_source k index /\ (forall i, In i index -> i < n) /\ ~ NoDup index /\
   fec_code.decode code pkt index sz = Throw SingularMatrix)
  \/
  (NoDup index /\ (forall i, In i index -> i < n) /\
   exists pkt' index',
     fec_code.decode code pkt index sz = Ok (pkt', index') /\
     Permutation index index').
Proof.
  intros HL HLp.
  destruct (decode_cases code pkt index sz HL HLp)
    as (r & pkt1 & index1 & _ & HL1 & _ & HP & [(_ & Hs & E)|(_ & Hn & Hpl & E)]);
    [left; auto|right].
  cbn [fec_code.n fec_code.k fec_code.enc_matrix code] in *.
  destruct (build_decode_matrix_cases k n enc index1 Hkn Henc HL1)
    as [[(p & Hp & Hbad) Eb]|(Hlt & D & HLD & HD & HB)].
  { left. split; [exact Hn|]. split.
    - exists (nth p index1 0). split; [|exact Hbad].
      apply (Permutation_in _ (Permutation_sym HP)), nth_In. lia.
    - rewrite E, Eb. reflexivity. }
  right.
  assert (Hin : forall i, In i index -> i < n).
  { intros i Hi. apply (Permutation_in _ HP) in Hi.
    destruct (In_nth index1 i 0 Hi) as (q & Hq & <-). apply Hlt. lia. }
  assert (HDe : forall p j, p < k -> j < k -> mx D k p j = mx enc k (nth p index1 0) j).
  { intros p j Hp Hj. rewrite HD by auto.
    destruct (Nat.ltb_spec (nth p index1 0) k) as [Hlt'|Hge]; auto.
    destruct (Hpl p Hp) as [F|F]; [lia|]. rewrite F. symmetry. now apply Htop. }
  destruct (ListDec.NoDup_dec Nat.eq_dec index1) as [Hnd|Hnd].
  - right. split; [eapply Permutation_NoDup; [apply Permutation_sym|]; eauto|].
    split; [exact Hin|].
    destruct HB as [(B & EB & _)|[_ Hsing]].
    + rewrite E, EB. cbn [bind]. eexists. exists index1. split; [reflexivity|exact HP].
    + exfalso. apply Hsing.
      apply (Hns D (fun p => nth p index1 0)); auto.
      intros p q Hp Hq Epq. apply (proj1 (NoDup_nth index1 0) Hnd); auto; lia.
  - left. split; [exact Hn|]. split; [exact Hin|]. split.
    + intros Hnd'. apply Hnd. eapply Permutation_NoDup; eauto.
    + destruct (not_NoDup_positions index1 Hnd) as (a & b & Hab & Hb & Eab).
      rewrite E.
      destruct (Nat.lt_ge_cases (nth a index1 0) k) as [Hv|Hv].
      * exfalso. apply (placed_no_dup k index1 index1 HL1 (Permutation_refl _) Hpl).
        exists a, b, (nth a index1 0). auto.
      * destruct (build_decode_matrix_spec k n enc Henc index1 Hlt)
          as (D' & ED' & HLD' & HD').
        rewrite ED', (invert_mat_equal_rows k D' a b); auto; try lia.
        intros j Hj. rewrite !HD' by (auto; lia). rewrite <- Eab.
        destruct (Nat.ltb_spec (nth a index1 0) k); [lia|reflexivity].
Qed.

End DecodeOutcome.

Lemma create_codec (k n : nat) (code : fec_code.t) :
  fec_code.create k n = Ok code ->
  exists enc,
    code = fec_code.mk k n enc /\ 1 <= k /\ k <= n /\ length enc = n * k /\
    (forall r j, r < k -> j < k -> mx enc k r j = delta r j) /\
    (forall (D : list byte) (sel : nat -> nat),
       (forall p, p < k -> sel p < n) ->
       (forall p q, p < k -> q < k -> sel p = sel q -> p = q) ->
       (forall p j, p < k -> j < k -> mx D k p j = mx enc k (sel p) j) ->
       nonsingular D k).
Proof.
  intros E.
  destruct (create_outcome k n) as [[_ F]|[[_ F]|[[_ F]|[H F]]]];
    try (rewrite F in E; discriminate E).
  destruct H as (Hk & Hkn & Hn & _).
  destruct F as (T & enc & HT & E' & HL & Hq).
  rewrite E' in E. injection E as <-.
  pose proof (create_generator k n T Hk Hkn Hn HT enc HL Hq) as Hgen.
  exists enc. split; [reflexivity|]. split; [exact Hk|]. split; [exact Hkn|].
  split; [exact HL|]. split.
  - intros r j. apply (generator_top k n T Hk Hkn Hn HT enc r j Hgen).
  - intros D sel. apply (generator_rows_nonsingular k n T Hk Hkn Hn HT enc D sel Hgen).
Qed.

Lemma NoDup_no_dup_source (k : nat) (index : list nat) :
  NoDup index -> ~ dup_source k index.
Proof.
  intros Hnd (a & b & v & Hab & Hb & Ea & Eb & _).
  rewrite <- Eb in Ea. apply (proj1 (NoDup_nth index 0) Hnd) in Ea; lia.
Qed.

(** X15: on a codec returned by the constructor, [decode] on arrays of
    k entries succeeds exactly when the k indices are pairwise distinct
    and all below n, whatever the shards hold. *)
Theorem decode_succeeds_iff (k n : nat) (code : fec_code.t)
  (pkt : list shard) (index : list nat) (sz : nat) :
  fec_code.create k n = Ok code ->
  length index = k -> length pkt = k ->
  ((exists out, fec_code.decode code pkt index sz = Ok out) <->
   NoDup index /\ forall i, In i index -> i < n).
Proof.
  intros E HL HLp.
  destruct (create_codec k n code E) as (enc & -> & Hk & Hkn & Henc & Htop & Hns).
  destruct (decode_outcome k n enc Hkn Henc Htop Hns pkt index sz HL HLp)
    as [(Hd & F)|[(_ & (i & Hi & Hbad) & F)|[(_ & _ & Hn & F)
       |(Hnd & Hin & p' & i' & F & _)]]]; rewrite F.
  - split; [intros [out G]; discriminate G|].
    intros [Hnd _]. now destruct (NoDup_no_dup_source k index Hnd).
  - split; [intros [out G]; discriminate G|].
    intros [_ Hin]. specialize (Hin i Hi). lia.
  - split; [intros [out G]; discriminate G|]. intros [Hnd _]. now destruct Hn.
  - split; [intros _; split; assumption|]. intros _. now exists (p', i').
Qed.

Lemma decode_succeeds_iff_witness :
  exists code,
    fec_code.create 3 5 = Ok code /\
    ((exists out,
        fec_code.decode code [[x69]; [x02]; [x15]] [4; 1; 3] 1 = Ok out) <->
     NoDup [4; 1; 3] /\ forall i, In i [4; 1; 3] -> i < 5).
Proof.
  eexists. split; [vm_compute; reflexivity|].
  apply (decode_succeeds_iff 3 5 (fec_code.mk 3 5 _)
           [[x69]; [x02]; [x15]] [4; 1; 3] 1);
    [vm_compute; reflexivity | reflexivity | reflexivity].
Defined.

(** X16: the errors of [decode] on a codec returned by the constructor,
    on arrays of k entries, in the order in which the code finds them:
    the duplicate-index error exactly when a source index is held
    twice; else the bad-index error exactly when some index is not below
    n; else the singular-matrix error exactly when the indices are not
    pairwise distinct.  There is no other failure. *)
Theorem decode_errors (k n : nat) (code : fec_code.t)
  (pkt : list shard) (index : list nat) (sz : nat) :
  fec_code.create k n = Ok code ->
  length index = k -> length pkt = k ->
  (fec_code.decode code pkt index sz = Throw DuplicateIndex <->
   dup_source k index) /\
  (fec_code.decode code pkt index sz = Throw BadDecodeIndex <->
   ~ dup_source k index /\ exists i, In i index /\ n <= i) /\
  (fec_code.decode code pkt index sz = Throw SingularMatrix <->
   ~ dup_source k index /\ (forall i, In i index -> i < n) /\ ~ NoDup index) /\
  ((exists out, fec_code.decode code pkt index sz = Ok out) \/
   fec_code.decode code pkt index sz = Throw DuplicateIndex \/
   fec_code.decode code pkt index sz = Throw BadDecodeIndex \/
   fec_code.decode code pkt index sz = Throw SingularMatrix).
Proof.
  intros E HL HLp.
  destruct (create_codec k n code E) as (enc & -> & Hk & Hkn & Henc & Htop & Hns).
  destruct (decode_outcome k n enc Hkn Henc Htop Hns pkt index sz HL HLp)
    as [(Hd & F)|[(Hd & (i & Hi & Hbad) & F)|[(Hd & Hin & Hnd & F)
       |(Hnd & Hin & p' & i' & F & _)]]]; rewrite F.
  - split; [split; auto|]. split; [split; [discriminate|tauto]|].
    split; [split; [discriminate|tauto]|auto].
  - split; [split; [discriminate|tauto]|]. split; [split; eauto|].
    split; [split; [discriminate|]|auto].
    intros (_ & Hin & _). specialize (Hin i Hi). lia.
  - split; [split; [discriminate|tauto]|]. split; [split; [discriminate|]|].
    + intros (_ & i & Hi & Hbad). specialize (Hin i Hi). lia.
    + split; [split; auto|auto].
  - pose proof (NoDup_no_dup_source k index Hnd) as Hd.
    split; [split; [discriminate|tauto]|]. split; [split; [discriminate|]|].
    + intros (_ & i & Hi & Hbad). specialize (Hin i Hi). lia.
    + split; [split; [discriminate|tauto]|]. left. now exists (p', i').
Qed.

Lemma decode_errors_witness :
  exists code,
    fec_code.create 3 5 = Ok code /\
    (fec_code.decode code [[x69]; [x02]; [x15]] [4; 1; 7] 1 = Throw DuplicateIndex <->
     dup_source 3 [4; 1; 7]) /\
    (fec_code.decode code [[x69]; [x02]; [x15]] [4; 1; 7] 1 = Throw BadDecodeIndex <->
     ~ dup_source 3 [4; 1; 7] /\ exists i, In i [4; 1; 7] /\ 5 <= i) /\
    (fec_code.decode code [[x69]; [x02]; [x15]] [4; 1; 7] 1 = Throw SingularMatrix <->
     ~ dup_source 3 [4; 1; 7] /\ (forall i, In i [4; 1; 7] -> i < 5) /\
     ~ NoDup [4; 1; 7]) /\
    ((exists out,
        fec_code.decode code [[x69]; [x02]; [x15]] [4; 1; 7] 1 = Ok out) \/
     fec_code.decode code [[x69]; [x02]; [x15]] [4; 1; 7] 1 = Throw DuplicateIndex \/
     fec_code.decode code [[x69]; [x02]; [x15]] [4; 1; 7] 1 = Throw BadDecodeIndex \/
     fec_code.decode code [[x69]; [x02]; [x15]] [4; 1; 7] 1 = Throw SingularMatrix).
Proof.
  eexists. split; [vm_compute; reflexivity|].
  apply (decode_errors 3 5 (fec_code.mk 3 5 _)
           [[x69]; [x02]; [x15]] [4; 1; 7] 1);
    [vm_compute; reflexivity | reflexivity | reflexivity].
Defined.

(** The loop of [decode] that moves the rebuilt shards to their place. *)
Lemma decode_move_loop (k sz : nat) (np pkt1 : list shard) (index1 : list nat)
  (t row : nat) :
  length pkt1 = k -> t <= k ->
  nth row (for_loop t (fun row pkt0 =>
             if k <=? nth row index1 0
             then upd row (memcpy (nth row pkt0 []) (nth row np []) sz) pkt0
             else pkt0) pkt1) [] =
  if (row <? t) && (k <=? nth row index1 0)
  then memcpy (nth row pkt1 []) (nth row np []) sz
  else nth row pkt1 [].
Proof.
  intros HLp Ht. revert row.
  apply (for_loop_ind (fun t (p2 : list shard) =>
    length p2 = k /\
    forall row, nth row p2 [] =
      if (row <? t) && (k <=? nth row index1 0)
      then memcpy (nth row pkt1 []) (nth row np []) sz
      else nth row pkt1 [])).
  - split; auto.
  - intros i p2 Hi [HL2 H2]. cbv beta.
    destruct (Nat.leb_spec k (nth i index1 0)) as [Hge|Hlt].
    + split; [now rewrite upd_length|]. intros row.
      rewrite nth_upd, HL2. destruct (Nat.eqb_spec row i) as [->|Hne]; cbn [andb].
      * destruct (Nat.ltb_spec i k); [|lia].
        destruct (Nat.ltb_spec i (S i)); [|lia].
        destruct (Nat.leb_spec k (nth i index1 0)); [|lia]. cbn [andb].
        rewrite H2. destruct (Nat.ltb_spec i i); [lia|]. reflexivity.
      * rewrite H2. destruct (Nat.ltb_spec row i), (Nat.ltb_spec row (S i));
          try lia; reflexivity.
    + split; auto. intros row. rewrite H2.
      destruct (Nat.eq_dec row i) as [->|Hne].
      * destruct (Nat.leb_spec k (nth i index1 0)); [lia|].
        now rewrite !andb_false_r.
      * destruct (Nat.ltb_spec row i), (Nat.ltb_spec row (S i));
          try lia; reflexivity.
Qed.

(** X17: [decode] passes the source shards through.  On any codec and
    arrays of k entries, when [decode] succeeds, every shard passed in
    with a source index c < k is returned unchanged in pkt[c], and
    index[c] is c. *)
Theorem decode_keeps_sources (code : fec_code.t) (pkt pkt' : list shard)
  (index index' : list nat) (sz p : nat) :
  let k := fec_code.k code in
  length index = k -> length pkt = k ->
  fec_code.decode code pkt index sz = Ok (pkt', index') ->
  p < k -> nth p index 0 < k ->
  nth (nth p index 0) pkt' [] = nth p pkt [] /\
  nth (nth p index 0) index' 0 = nth p index 0.
Proof.
  intros k HL HLp E Hp Hc. subst k.
  destruct (decode_cases_rel
              (fun i s => exists q, q < fec_code.k code /\
                                    i = nth q index 0 /\ s = nth q pkt [])
              code pkt index sz HL HLp)
    as (r & pkt1 & index1 & _ & HL1 & HLp1 & HP & HR1 & Hcase).
  { intros q Hq. exists q. auto. }
  destruct Hcase as [(_ & _ & F)|(_ & Hnd & Hpl & F)];
    [rewrite F in E; discriminate E|].
  rewrite F in E.
  destruct (build_decode_matrix (fec_code.k code) (fec_code.n code)
              (fec_code.enc_matrix code) index1) as [B| |];
    cbn [bind] in E; try discriminate E.
  cbv zeta in E. injection E as E1 E2. subst index'.
  set (c := nth p index 0) in *.
  assert (Hcc : nth c index1 0 = c).
  { assert (Hin : In c index1)
      by (apply (Permutation_in _ HP); apply nth_In; lia).
    destruct (In_nth index1 c 0 Hin) as (q & Hq & Eq).
    destruct (Hpl q ltac:(lia)) as [G|G]; [lia|]. congruence. }
  split; [|exact Hcc].
  rewrite <- E1, decode_move_loop by (auto; lia).
  rewrite Hcc. destruct (Nat.leb_spec (fec_code.k code) c); [lia|].
  rewrite andb_false_r.
  destruct (HR1 c Hc) as (q & Hq & Ei & Es). rewrite Es.
  rewrite Hcc in Ei.
  destruct (Nat.lt_total p q) as [Hlt|[->|Hlt]]; [|reflexivity|]; exfalso; apply Hnd.
  - exists p, q, c. repeat split; auto; lia.
  - exists q, p, c. repeat split; auto; lia.
Qed.

Lemma decode_keeps_sources_witness :
  nth (nth 1 [4; 0; 3] 0) [[x02]; [x96]; [xac]] [] = nth 1 [[x69]; [x02]; [x15]] [] /\
  nth (nth 1 [4; 0; 3] 0) [0; 4; 3] 0 = nth 1 [4; 0; 3] 0.
Proof.
  apply (decode_keeps_sources
           (fec_code.mk 3 5 [x01; x00; x00; x00; x01; x00; x00; x00; x01;
                             x0f; x08; x06; x2d; x30; x1c])
           [[x69]; [x02]; [x15]] [[x02]; [x96]; [xac]] [4; 0; 3] [0; 4; 3] 1 1);
    [reflexivity | reflexivity | vm_compute; reflexivity | cbn; lia | cbn; lia].
Defined.

(** ** [invert_mat] twice *)

Lemma gf_sum_delta_l (k r : nat) (f : nat -> byte) :
  r < k -> gf_sum k (fun i => gf_mul (delta r i) (f i)) = f r.
Proof.
  intros Hr. rewrite (gf_sum_single k r); auto.
  - unfold delta. rewrite Nat.eqb_refl. ring.
  - intros i Hi Hne. unfold delta. destruct (Nat.eqb_spec r i); [lia|ring].
Qed.

(** X18: inverting twice gives the matrix back: when [invert_mat]
    succeeds on a k x k matrix M and leaves B, it succeeds on B and
    leaves M. *)
Theorem invert_mat_involutive (k : nat) (M B : list byte) :
  length M = k * k ->
  invert_mat M k = Ok B ->
  invert_mat B k = Ok M.
Proof.
  intros HL E.
  destruct (invert_mat_spec k M HL) as [(B' & EB & HLB & HMB & HBM)|[F _]];
    [|rewrite F in E; discriminate E].
  rewrite EB in E. injection E as ->.
  destruct (invert_mat_spec k B HLB) as [(C & EC & HLC & HBC & HCB)|[_ (x & Hx)]].
  - rewrite EC. f_equal. apply (mx_ext k); auto.
    intros i j Hi Hj.
    rewrite <- (gf_sum_delta_l k i (fun t => mx C k t j)) by auto.
    rewrite (gf_sum_ext k _ (fun t => gf_sum k (fun s =>
               gf_mul (gf_mul (mx M k i s) (mx B k s t)) (mx C k t j)))).
    + rewrite gf_sum_exchange.
      rewrite (gf_sum_ext k _ (fun s => gf_mul (mx M k i s) (delta s j))).
      * now rewrite gf_sum_delta_r.
      * intros s Hs. rewrite <- (HBC s j Hs Hj), <- gf_sum_scale.
        apply gf_sum_ext. intros t Ht. ring.
    + intros t Ht. rewrite <- (HMB i t Hi Ht). now rewrite gf_sum_scale_r.
  - exfalso. apply (kernel_vector_singular B k x Hx).
    now apply (left_inverse_nonsingular B M k).
Qed.

Lemma invert_mat_involutive_witness :
  invert_mat [x01; x00; xf4; xf4] 2 = Ok [x01; x00; x01; x03].
Proof.
  apply (invert_mat_involutive 2 [x01; x00; x01; x03] [x01; x00; xf4; xf4]);
    [reflexivity | vm_compute; reflexivity].
Defined.

(** ** The parity rows of the encoding matrix *)

(** X19: on every codec the constructor returns, no entry of a parity
    row of the encoding matrix is 0: every parity shard depends on every
    source shard. *)
Theorem parity_entries_nonzero (k n : nat) (code : fec_code.t) (r j : nat) :
  fec_code.create k n = Ok code ->
  k <= r -> r < n -> j < k ->
  mx (fec_code.enc_matrix code) k r j <> x00.
Proof.
  intros E Hr Hrn Hj Hz.
  destruct (create_codec k n code E) as (enc & -> & Hk & Hkn & Henc & Htop & Hns).
  cbn [fec_code.enc_matrix] in Hz.
  set (sel := fun p => if p =? j then r else p).
  set (D := map (fun q => mx enc k (sel (q / k)) (q mod k)) (seq 0 (k * k))).
  assert (HD : forall p t, p < k -> t < k -> mx D k p t = mx enc k (sel p) t).
  { intros p t Hp Ht. unfold mx at 1, rd, D.
    assert (Hq : p * k + t < k * k) by now apply idx_lt.
    rewrite (nth_indep _ x00 (mx enc k (sel (0 / k)) (0 mod k)))
      by now rewrite length_map, length_seq.
    rewrite (map_nth (fun q => mx enc k (sel (q / k)) (q mod k))), seq_nth by auto.
    cbn [Nat.add]. now rewrite idx_div, idx_mod by auto. }
  assert (Hnon : nonsingular D k).
  { apply (Hns D sel); auto.
    - intros p Hp. unfold sel. destruct (p =? j); lia.
    - intros p q Hp Hq. unfold sel.
      destruct (Nat.eqb_spec p j), (Nat.eqb_spec q j); lia. }
  set (x := map (fun t => delta t j) (seq 0 k)).
  assert (Hx : forall t, t < k -> rd x t = delta t j).
  { intros t Ht. unfold x, rd.
    rewrite (nth_indep _ x00 (delta 0 j)) by now rewrite length_map, length_seq.
    rewrite (map_nth (fun t => delta t j)), seq_nth by auto. reflexivity. }
  assert (Hone : rd x j = x00).
  { apply Hnon; auto.
    - unfold x. now rewrite length_map, length_seq.
    - intros i Hi.
      rewrite (gf_sum_ext k _ (fun t => gf_mul (mx D k i t) (delta t j)))
        by (intros t Ht; now rewrite Hx).
      rewrite gf_sum_delta_r, HD by auto. unfold sel.
      destruct (Nat.eqb_spec i j) as [->|Hne]; [exact Hz|].
      rewrite Htop by auto. unfold delta.
      destruct (Nat.eqb_spec i j); [lia|reflexivity]. }
  rewrite Hx in Hone by auto. unfold delta in Hone.
  rewrite Nat.eqb_refl in Hone. discriminate Hone.
Qed.

Lemma parity_entries_nonzero_witness :
  exists code,
    fec_code.create 3 5 = Ok code /\ mx (fec_code.enc_matrix code) 3 4 2 <> x00.
Proof.
  eexists. split; [vm_compute; reflexivity|].
  apply (parity_entries_nonzero 3 5 (fec_code.mk 3 5 _) 4 2);
    [vm_compute; reflexivity | lia | lia | lia].
Defined.

(** ** Decoding, then encoding again *)

(** The loop of [decode] that rebuilds the shards at the parity
    positions. *)
Lemma decode_rebuild_loop (k sz : nat) (B : list byte) (pkt1 : list shard)
  (index1 : list nat) (t row : nat) :
  t <= k -> row < t -> k <= nth row index1 0 ->
  nth row (for_loop t (fun row new_pkt =>
             if k <=? nth row index1 0
             then upd row (addmul_k (repeat x00 sz) pkt1 (skipn (row * k) B) sz k)
                      new_pkt
             else new_pkt) (repeat [] k)) [] =
  addmul_k (repeat x00 sz) pkt1 (skipn (row * k) B) sz k.
Proof.
  intros Ht. revert row.
  apply (for_loop_ind (fun t (np : list shard) =>
    length np = k /\
    forall row, row < t -> k <= nth row index1 0 ->
      nth row np [] = addmul_k (repeat x00 sz) pkt1 (skipn (row * k) B) sz k)).
  - split; [apply repeat_length|]. intros; lia.
  - intros i np Hi [HLn Hn]. cbv beta.
    destruct (Nat.leb_spec k (nth i index1 0)) as [Hge|Hlt].
    + split; [now rewrite upd_length|]. intros row Hrow Hk.
      rewrite nth_upd, HLn. destruct (Nat.eqb_spec row i) as [->|Hne]; cbn [andb].
      * destruct (Nat.ltb_spec i k); [reflexivity|lia].
      * apply Hn; auto. lia.
    + split; auto. intros row Hrow Hk.
      destruct (Nat.eq_dec row i) as [->|Hne]; [lia|]. apply Hn; auto. lia.
Qed.

Section DecodeEncode.
Variables (k n : nat) (enc : list byte).
Hypothesis Hkn : k <= n.
Hypothesis Henc : length enc = n * k.
Hypothesis Htop : forall r j, r < k -> j < k -> mx enc k r j = delta r j.
Hypothesis Hns : forall (D : list byte) (sel : nat -> nat),
  (forall p, p < k -> sel p < n) ->
  (forall p q, p < k -> q < k -> sel p = sel q -> p = q) ->
  (forall p j, p < k -> j < k -> mx D k p j = mx enc k (sel p) j) ->
  nonsingular D k.

Let code := fec_code.mk k n enc.

Lemma decode_encode (pkt pkt' : list shard) (index index' : list nat) (sz q : nat) :
  length index = k -> length pkt = k ->
  (forall p, p < k -> length (nth p pkt []) = sz) ->
  fec_code.decode code pkt index sz = Ok (pkt', index') ->
  q < k ->
  fec_code.encode code pkt' (repeat x00 sz) (nth q index 0) sz = Ok (nth q pkt []).
Proof.
  intros HL HLp Hsz E Hq.
  assert (Hnd : NoDup index /\ forall i, In i index -> i < n).
  { destruct (decode_outcome k n enc Hkn Henc Htop Hns pkt index sz HL HLp)
      as [(_ & F)|[(_ & _ & F)|[(_ & _ & _ & F)|(Hnd & Hin & _)]]];
      try (fold code in F; rewrite F in E; discriminate E). auto. }
  destruct Hnd as [Hnd Hin].
  destruct (decode_cases_rel
              (fun i s => length s = sz /\
                          exists p, p < k /\ i = nth p index 0 /\ s = nth p pkt [])
              code pkt index sz HL HLp)
    as (r & pkt1 & index1 & _ & HL1 & HLp1 & HP & HR1 & Hcase).
  { intros p Hp. split; [now apply Hsz|]. exists p. auto. }
  cbn [fec_code.n fec_code.k fec_code.enc_matrix code] in *.
  destruct Hcase as [(_ & _ & F)|(_ & _ & Hpl & F)];
    [rewrite F in E; discriminate E|].
  rewrite F in E. clear F.
  destruct (build_decode_matrix_cases k n enc index1 Hkn Henc HL1)
    as [[_ Eb]|(Hlt & D & HLD & HD & [(B & EB & HLB & HDB & HBD)|[Eb _]])];
    try (rewrite Eb in E; discriminate E).
  rewrite EB in E. cbn [bind] in E. cbv zeta in E. injection E as E1 E2.
  (* the position of the pair (index[q], pkt[q]) after the shuffle *)
  assert (Hpos : exists p, p < k /\ nth p index1 0 = nth q index 0 /\
                           nth p pkt1 [] = nth q pkt []).
  { assert (Hi : In (nth q index 0) index1)
      by (apply (Permutation_in _ HP), nth_In; lia).
    destruct (In_nth index1 _ 0 Hi) as (p & Hp & Ep). rewrite HL1 in Hp.
    exists p. split; [exact Hp|]. split; [exact Ep|].
    destruct (HR1 p Hp) as (_ & q' & Hq' & Ei & Es). rewrite Es.
    rewrite Ep in Ei. apply (proj1 (NoDup_nth index 0) Hnd) in Ei; try lia.
    now rewrite Ei. }
  destruct Hpos as (p & Hp & Ep & Es). rewrite <- Ep, <- Es.
  (* the rows of B at the source positions are unit rows *)
  assert (HBs : forall row c, row < k -> c < k -> nth row index1 0 < k ->
                  mx B k row c = delta row c).
  { intros row c Hrow Hc Hs. rewrite <- (HDB row c Hrow Hc).
    rewrite (gf_sum_ext k _ (fun j => gf_mul (delta row j) (mx B k j c))).
    - now rewrite gf_sum_delta_l.
    - intros j Hj. rewrite HD by auto.
      destruct (Nat.ltb_spec (nth row index1 0) k); [reflexivity|lia]. }
  (* every returned shard is the combination of the shuffled ones by B *)
  assert (Hout : forall row, row < k ->
            length (nth row pkt' []) = sz /\
            forall j, j < sz ->
              rd (nth row pkt' []) j =
              gf_sum k (fun c => gf_mul (mx B k row c) (rd (nth c pkt1 []) j))).
  { intros row Hrow. rewrite <- E1, decode_move_loop by (auto; lia).
    destruct (Nat.ltb_spec row k); [|lia]. cbn [andb].
    destruct (HR1 row Hrow) as [HLr _].
    destruct (Nat.leb_spec k (nth row index1 0)) as [Hge|Hs].
    - rewrite decode_rebuild_loop by (auto; lia).
      destruct (addmul_k_spec (repeat x00 sz) pkt1 (skipn (row * k) B) sz k)
        as [HLa Ha]; [rewrite repeat_length; lia|].
      rewrite repeat_length in HLa. rewrite memcpy_full by auto.
      split; [exact HLa|]. intros j Hj. rewrite Ha.
      destruct (Nat.ltb_spec j sz); [|lia].
      unfold rd at 1. rewrite nth_repeat, bxor_0_l.
      apply gf_sum_ext. intros c Hc. now rewrite rd_skipn.
    - split; [exact HLr|]. intros j Hj.
      rewrite (gf_sum_ext k _ (fun c => gf_mul (delta row c) (rd (nth c pkt1 []) j)))
        by (intros c Hc; now rewrite HBs).
      now rewrite gf_sum_delta_l. }
  assert (Hp' : nth p index1 0 < n) by now apply Hlt.
  destruct (encode_spec code pkt' (repeat x00 sz) (nth p index1 0) sz)
    as (out & Eo & HLo & Hrd); cbn [fec_code.n fec_code.k fec_code.enc_matrix code];
    auto; [now rewrite repeat_length|intros i Hi; now rewrite (proj1 (Hout i Hi))|].
  cbn [fec_code.n fec_code.k fec_code.enc_matrix code] in *.
  rewrite Eo. f_equal. rewrite repeat_length in HLo.
  destruct (HR1 p Hp) as [HLr _].
  apply (list_ext _ _ x00); [congruence|]. rewrite HLo. intros j Hj.
  fold (rd out j) (rd (nth p pkt1 []) j). rewrite Hrd.
  destruct (Nat.ltb_spec j sz); [|lia].
  destruct (Nat.ltb_spec (nth p index1 0) k) as [Hs|Hge].
  - destruct (Hpl p Hp) as [G|G]; [lia|]. rewrite G.
    rewrite (proj2 (Hout p Hp)) by auto.
    rewrite (gf_sum_ext k _ (fun c => gf_mul (delta p c) (rd (nth c pkt1 []) j)))
      by (intros c Hc; rewrite HBs by (auto; lia); reflexivity).
    now rewrite gf_sum_delta_l.
  - rewrite (gf_sum_ext k _ (fun i => gf_sum k (fun c =>
       gf_mul (gf_mul (mx D k p i) (mx B k i c)) (rd (nth c pkt1 []) j)))).
    + rewrite gf_sum_exchange.
      rewrite (gf_sum_ext k _ (fun c => gf_mul (delta p c) (rd (nth c pkt1 []) j))).
      * now rewrite gf_sum_delta_l.
      * intros c Hc. rewrite gf_sum_scale_r. now rewrite HDB.
    + intros i Hi. rewrite (proj2 (Hout i Hi)) by auto.
      rewrite <- gf_sum_scale. apply gf_sum_ext. intros c Hc.
      rewrite HD by auto. destruct (Nat.ltb_spec (nth p index1 0) k); [lia|].
      unfold mx at 2. ring.
Qed.

End DecodeEncode.

(** X20: decoding, then encoding again.  On a codec returned by the
    constructor, when [decode] succeeds on k shards of sz bytes, whatever
    they hold, encoding the returned shards at each index that was passed
    in gives back the shard that was passed in with it. *)
Theorem decode_then_encode (k n : nat) (code : fec_code.t)
  (pkt pkt' : list shard) (index index' : list nat) (sz q : nat) :
  fec_code.create k n = Ok code ->
  length index = k -> length pkt = k ->
  (forall p, p < k -> length (nth p pkt []) = sz) ->
  fec_code.decode code pkt index sz = Ok (pkt', index') ->
  q < k ->
  fec_code.encode code pkt' (repeat x00 sz) (nth q index 0) sz = Ok (nth q pkt []).
Proof.
  intros E HL HLp Hsz Ed Hq.
  destruct (create_codec k n code E) as (enc & -> & Hk & Hkn & Henc & Htop & Hns).
  now apply (decode_encode k n enc Hkn Henc Htop Hns pkt pkt' index index').
Qed.

Lemma decode_then_encode_witness :
  exists code,
    fec_code.create 3 5 = Ok code /\
    fec_code.encode code [[x02]; [x96]; [xac]] (repeat x00 1)
      (nth 0 [4; 0; 3] 0) 1 = Ok (nth 0 [[x69]; [x02]; [x15]] []).
Proof.
  eexists. split; [vm_compute; reflexivity|].
  apply (decode_then_encode 3 5 (fec_code.mk 3 5 _)
           [[x69]; [x02]; [x15]] [[x02]; [x96]; [xac]] [4; 0; 3] [0; 4; 3] 1 0);
    [vm_compute; reflexivity | reflexivity | reflexivity | | vm_compute; reflexivity | lia].
  intros [|[|[|p]]] Hp; try reflexivity. lia.
Defined.
